(** * Warehouse-robot HTN domains (CMSC722_Pyhop): a shallow embedding

    The Python sources [simple_warehouse_robot.py] and
    [final_warehouse_robot.py] are embedded as Rocq functions.

    - Python dictionaries of the world state ([state.loc], [state.cargo],
      [state.battery], [rigid_relations.types]) are finite maps; a lookup
      of a missing key raises [KeyError], as in Python.
    - [rigid_relations.adjacent] is a dictionary that the code iterates
      over, so it is kept as the list of its keys in insertion order.
    - Operators mutate the state object in place and return it, or return
      [False]; they are computations in a state-and-exception monad [M]
      over the world (the global [rigid_relations] and the state object).
    - The planner itself ([pyhop.pyhop]) is not part of the sources; it is
      modelled from the specification in the section on planning. *)

From stdpp Require Import gmap strings list fin_maps sorting.
From Stdlib Require Import ZArith Lia.

Open Scope string_scope.
Open Scope Z_scope.

#[local] Set Warnings "-clear-no-such-hyp".

(** ** Python outcomes *)

(** The exceptions the embedded code can raise.  [OutOfFuel] is not a
    Python exception: it is the answer of a fuelled loop of the model
    whose fuel ran out; the loops of the helpers are proved never to
    produce it. *)
Inductive exn := KeyError | IndexError | ValueError | TypeError | OutOfFuel.

Inductive res (A : Type) :=
| Ret (a : A)
| Raise (e : exn).
Arguments Ret {A} a.
Arguments Raise {A} e.

#[global] Instance exn_eq_dec : EqDecision exn.
Proof. solve_decision. Defined.

#[global] Instance res_ret : MRet res := fun A a => Ret a.
#[global] Instance res_bind : MBind res := fun A B f m =>
  match m with
  | Ret a => f a
  | Raise e => Raise e
  end.

(** ** The world: rigid relations and the state object *)

Record Rigid := mkRigid {
  types : gmap string (list string);
  adjacent : list (string * string)
}.

Record State := mkState {
  loc : gmap string string;
  cargo : gmap string (list string);
  battery : gmap string Z
}.

Record World := mkWorld {
  rigid_relations : Rigid;
  state : State
}.

(** [d[k]] on a dictionary. *)
Definition dict_get {V} (d : gmap string V) (k : string) : res V :=
  match d !! k with
  | Some v => Ret v
  | None => Raise KeyError
  end.

(** ** The monad of operators and methods *)

Definition M (A : Type) : Type := World -> res A * World.

#[global] Instance M_ret : MRet M := fun A a w => (Ret a, w).
#[global] Instance M_bind : MBind M := fun A B f m w =>
  match m w with
  | (Ret a, w') => f a w'
  | (Raise e, w') => (Raise e, w')
  end.

(** Reading the global [rigid_relations] and the state object. *)
Definition with_rigid {A} (f : Rigid -> res A) : M A :=
  fun w => (f (rigid_relations w), w).
Definition with_state {A} (f : State -> res A) : M A :=
  fun w => (f (state w), w).
Definition with_world {A} (f : World -> res A) : M A :=
  fun w => (f w, w).
Definition raiseM {A} (e : exn) : M A :=
  fun w => (Raise e, w).

(** Item assignments [state.loc[k] = v], [state.battery[k] = v] and the
    in-place updates of the list [state.cargo[k]]. *)
Definition loc_set (k v : string) : M unit := fun w =>
  let st := state w in
  (Ret tt, mkWorld (rigid_relations w)
             (mkState (<[k := v]> (loc st)) (cargo st) (battery st))).
Definition battery_set (k : string) (v : Z) : M unit := fun w =>
  let st := state w in
  (Ret tt, mkWorld (rigid_relations w)
             (mkState (loc st) (cargo st) (<[k := v]> (battery st)))).
Definition cargo_set (k : string) (v : list string) : M unit := fun w =>
  let st := state w in
  (Ret tt, mkWorld (rigid_relations w)
             (mkState (loc st) (<[k := v]> (cargo st)) (battery st))).

(** [rigid_relations.adjacent.pop(k)]. *)
Definition adjacent_pop (k : string * string) : M unit := fun w =>
  let rr := rigid_relations w in
  if bool_decide (k ∈ adjacent rr)
  then (Ret tt, mkWorld (mkRigid (types rr)
                           (filter (fun e => e ≠ k) (adjacent rr))) (state w))
  else (Raise KeyError, w).

(** Python's short-circuit [a and b] on booleans. *)
Definition andM (a b : M bool) : M bool :=
  x ← a; if (x : bool) then b else mret false.
Infix "&&&" := andM (at level 40, left associativity).

(** [list.remove(x)]: drops the first occurrence, [ValueError] if none. *)
Fixpoint list_remove (x : string) (l : list string) : res (list string) :=
  match l with
  | [] => Raise ValueError
  | y :: l' => if decide (y = x) then Ret l'
               else l'' ← list_remove x l'; Ret (y :: l'')
  end.

(** ** Helpers shared by the domain files *)

Definition is_adjacent (rr : Rigid) (room_x room_y : string) : bool :=
  let val1 := bool_decide ((room_x, room_y) ∈ adjacent rr) in
  let val2 := bool_decide ((room_y, room_x) ∈ adjacent rr) in
  val1 || val2.

Definition is_a (rr : Rigid) (variable type : string) : res bool :=
  l ← dict_get (types rr) type; Ret (bool_decide (variable ∈ l)).

Definition is_at (st : State) (robot room : string) : res bool :=
  l ← dict_get (loc st) robot; Ret (bool_decide (room = l)).

Definition is_charging_station (rr : Rigid) (loc : string) : res bool :=
  l ← dict_get (types rr) "charging_stations"; Ret (bool_decide (loc ∈ l)).

(** ** Python lists and dictionaries passed as task arguments *)

(** [l[i]] with Python's negative indices. *)
Definition py_index {A} (l : list A) (i : Z) : res A :=
  let j := if bool_decide (i < 0) then Z.of_nat (length l) + i else i in
  if bool_decide (j < 0) then Raise IndexError
  else match l !! Z.to_nat j with
       | Some x => Ret x
       | None => Raise IndexError
       end.

(** A dictionary whose iteration order matters (the container to
    destination map of [transport_all]) is the list of its items in
    insertion order. *)
Definition adict_in (k : string) (d : list (string * string)) : bool :=
  bool_decide (k ∈ d.*1).

Fixpoint adict_get (d : list (string * string)) (k : string) : res string :=
  match d with
  | [] => Raise KeyError
  | (k', v) :: d' => if decide (k' = k) then Ret v else adict_get d' k
  end.

(** [d.pop(k)] on a copy of [d]. *)
Definition adict_pop (d : list (string * string)) (k : string)
    : res (list (string * string)) :=
  if adict_in k d then Ret (filter (fun kv => kv.1 ≠ k) d)
  else Raise KeyError.

Fixpoint mapM_res {A B} (f : A -> res B) (l : list A) : res (list B) :=
  match l with
  | [] => Ret []
  | x :: l' => y ← f x; ys ← mapM_res f l'; Ret (y :: ys)
  end.

(** [list.sort(key=...)] is stable: an element goes before the first
    element of the sorted rest whose key is not smaller. *)
Fixpoint insert_by_key (x : Z * string) (l : list (Z * string))
    : list (Z * string) :=
  match l with
  | [] => [x]
  | y :: l' => if bool_decide (x.1 ≤ y.1) then x :: y :: l'
               else y :: insert_by_key x l'
  end.

Definition sort_by_key (l : list (Z * string)) : list string :=
  (foldr insert_by_key [] l).*2.

(** ** Path finding

    [get_shortest_path] first builds the graph [G] from the adjacency
    dictionary: [G[x]] is the dictionary of the neighbours of [x], kept
    here as the list of its keys in insertion order (the order in which
    the loop [for neighbor in G[node]] meets them). *)

Definition add_neighbor (y : string) (nbrs : list string) : list string :=
  if bool_decide (y ∈ nbrs) then nbrs else nbrs ++ [y].

(** [if k not in G: G[k] = {}]. *)
Definition ensure_key (k : string) (G : gmap string (list string))
    : gmap string (list string) :=
  match G !! k with
  | Some _ => G
  | None => <[k := []]> G
  end.

(** One round of the loop [for (x,y) in rigid_relations.adjacent]. *)
Definition add_edge (G : gmap string (list string)) (e : string * string)
    : gmap string (list string) :=
  let G := ensure_key e.2 (ensure_key e.1 G) in
  alter (add_neighbor e.1) e.2 (alter (add_neighbor e.2) e.1 G).

Definition build_graph (rr : Rigid) : gmap string (list string) :=
  fold_left add_edge (adjacent rr) ∅.

(** The loop [for neighbor in G[node]] of [get_shortest_path]:
    [visited] maps a node to its predecessor ([None] for the start). *)
Fixpoint visit_neighbors (node : string) (nbrs : list string)
    (visited : gmap string (option string)) (queue : list string)
    : gmap string (option string) * list string :=
  match nbrs with
  | [] => (visited, queue)
  | neighbor :: nbrs' =>
      match visited !! neighbor with
      | None => visit_neighbors node nbrs'
                  (<[neighbor := Some node]> visited) (queue ++ [neighbor])
      | Some _ => visit_neighbors node nbrs' visited queue
      end
  end.

(** The loop [while len(queue) > 0] of [get_shortest_path]; [end_] is
    [None] when the caller passes Python's [None] for [end]. *)
Fixpoint search_loop (fuel : nat) (G : gmap string (list string))
    (end_ : option string) (visited : gmap string (option string))
    (queue : list string) : res (gmap string (option string)) :=
  match fuel with
  | O => Raise OutOfFuel
  | S fuel' =>
      match queue with
      | [] => Ret visited
      | node :: queue' =>
          if bool_decide (Some node = end_) then Ret visited
          else
            nbrs ← dict_get G node;
            let vq := visit_neighbors node nbrs visited queue' in
            search_loop fuel' G end_ vq.1 vq.2
      end
  end.

(** The loop [while visited[prev] != None]. *)
Fixpoint path_loop (fuel : nat) (visited : gmap string (option string))
    (prev : string) (path : list string) : res (list string) :=
  match fuel with
  | O => Raise OutOfFuel
  | S fuel' =>
      p ← dict_get visited prev;
      match p with
      | None => Ret path
      | Some parent => path_loop fuel' visited parent (path ++ [prev])
      end
  end.

(** The result is [Some path], or [None] for Python's [False]. *)
Definition get_shortest_path (rr : Rigid) (start : string)
    (end_ : option string) : res (option (list string)) :=
  let G := build_graph rr in
  visited ← search_loop (S (size G)) G end_ {[start := None]} [start];
  match end_ with
  | None => Ret None
  | Some e =>
      match visited !! e with
      | None => Ret None
      | Some _ =>
          path ← path_loop (size visited) visited e [];
          Ret (Some (reverse path))
      end
  end.

(** The inner loop of [get_all_charging_station]. *)
Fixpoint scan_neighbors (rr : Rigid) (nbrs : list string)
    (visited : gset string) (queue stations : list string)
    : res (gset string * list string * list string) :=
  match nbrs with
  | [] => Ret (visited, queue, stations)
  | neighbor :: nbrs' =>
      if bool_decide (neighbor ∈ visited)
      then scan_neighbors rr nbrs' visited queue stations
      else
        cs ← dict_get (types rr) "charging_stations";
        scan_neighbors rr nbrs' ({[neighbor]} ∪ visited) (queue ++ [neighbor])
          (if bool_decide (neighbor ∈ cs) then stations ++ [neighbor]
           else stations)
  end.

Fixpoint station_loop (fuel : nat) (rr : Rigid)
    (G : gmap string (list string)) (visited : gset string)
    (queue stations : list string) : res (list string) :=
  match fuel with
  | O => Raise OutOfFuel
  | S fuel' =>
      match queue with
      | [] => Ret stations
      | node :: queue' =>
          nbrs ← dict_get G node;
          vqs ← scan_neighbors rr nbrs visited queue' stations;
          station_loop fuel' rr G vqs.1.1 vqs.1.2 vqs.2
      end
  end.

(** Finds all charging stations, sorted in increasing order of distance
    from [loc]. *)
Definition get_all_charging_station (rr : Rigid) (loc : string)
    : res (list string) :=
  let G := build_graph rr in
  station_loop (S (size G)) rr G {[loc]} [loc] [].

(** The result is [None] for Python's [None]. *)
Definition get_closest_charging_station (rr : Rigid) (loc : string)
    : res (option string) :=
  b ← is_charging_station rr loc;
  if (b : bool) then Ret (Some loc)
  else stations ← get_all_charging_station rr loc; Ret (head stations).

(** [len(get_shortest_path(loc1, loc2))]; [len(False)] is a [TypeError]. *)
Definition distance (rr : Rigid) (loc1 : string) (loc2 : option string)
    : res Z :=
  p ← get_shortest_path rr loc1 loc2;
  match p with
  | None => Raise TypeError
  | Some path => Ret (Z.of_nat (length path))
  end.

(** ** The planner

    [pyhop.py] is not among the sources: the search is modelled from the
    specification (section 4.1, Decomposition Search). *)

(** Modelled from the spec: the Domain Descriptor of [pyhop] (the
    registries filled by [declare_operators] and [declare_methods], which
    are missing from the sources).  [operators] maps an atomic task to its
    operator applied to the task's arguments; [methods] maps a compound
    task to its decomposition functions in declaration order. *)
Record Domain (task : Type) := mkDomain {
  operators : task -> option (M bool);
  methods : task -> list (M (option (list task)))
}.
Arguments operators {task} _ _.
Arguments methods {task} _ _.

Section Planner.
Context {task : Type} (D : Domain task).

(** Modelled from the spec: [seek_plan] of [pyhop] (missing from the
    sources), the depth-first, backtracking, first-success search.
    - An empty task network gives the empty plan.
    - An atomic head task: its operator is applied to a copy of the state;
      if it fails the branch fails, otherwise the search goes on from the
      resulting state and the task is prepended to the plan found.
    - A compound head task: its methods are tried in declaration order on
      the current state; a method that returns subtasks [S] leads to a
      search on [S ++ rest], whose plan is returned at once if there is
      one; otherwise the next method is tried.
    The result is [Some plan] or [None] for Failure(NoPlanFound).  An
    exception of an operator or method ends the search (nothing in the
    spec catches it).  The state object handed to the operator is a copy,
    so the caller's state is the one it had ([state w]); the global rigid
    relations are whatever the callees left.  After a method's branch has
    failed the next method runs on the state object as that branch left
    it: the operators of the branch worked on copies, and a method that
    does not write to the state leaves nothing to restore
    ([seek_plan_readonly] below).  [fuel] bounds the depth of the
    recursion. *)
Fixpoint seek_plan (fuel : nat) (task_network : list task)
    : M (option (list task)) :=
  match fuel with
  | O => raiseM OutOfFuel
  | S fuel' =>
      match task_network with
      | [] => mret (Some [])
      | t :: rest =>
          match operators D t with
          | Some operator => fun w =>
              let restore r w' := (r, mkWorld (rigid_relations w') (state w)) in
              match operator w with
              | (Ret true, w1) =>
                  match seek_plan fuel' rest w1 with
                  | (Ret (Some plan), w2) => restore (Ret (Some (t :: plan))) w2
                  | (r, w2) => restore r w2
                  end
              | (Ret false, w1) => restore (Ret None) w1
              | (Raise e, w1) => restore (Raise e) w1
              end
          | None =>
              (fix try_methods (ms : list (M (option (list task))))
                   : M (option (list task)) :=
                 match ms with
                 | [] => mret None
                 | m :: ms' =>
                     subtasks ← m;
                     match subtasks with
                     | None => try_methods ms'
                     | Some subtasks =>
                         solution ← seek_plan fuel' (subtasks ++ rest)%list;
                         match solution with
                         | Some plan => mret (Some plan)
                         | None => try_methods ms'
                         end
                     end
                 end) (methods D t)
          end
      end
  end.

(** Modelled from the spec: [plan(state, goal_tasks)], the entry point
    ([pyhop.pyhop]), which starts the search on the goal tasks. *)
Definition plan (fuel : nat) (goal_tasks : list task) : M (option (list task)) :=
  seek_plan fuel goal_tasks.

(** Executing a plan step by step on the state object: the world in
    which step [i] of the plan is executed, if the steps before it all
    succeed. *)
Fixpoint world_at (p : list task) (w : World) (i : nat) : option World :=
  match i with
  | O => Some w
  | S i' =>
      match p with
      | [] => None
      | t :: p' =>
          match operators D t with
          | Some operator =>
              match operator w with
              | (Ret true, w1) => world_at p' w1 i'
              | _ => None
              end
          | None => None
          end
      end
  end.

End Planner.

(** ** final_warehouse_robot.py: constants and operators *)

Module Final.

(** [rigid_relations] as the file declares it. *)
Definition rigid_relations0 : Rigid := {|
  types := <["robot" := ["R1"]]>
           (<["object" := ["c1"; "c2"; "c3"]]>
           (<["loc" := ["room1"; "room2"; "room3"; "room4"; "room5";
                        "room6"; "room7"; "room8"; "room9"]]>
           (<["charging_stations" := ["room3"; "room6"; "room9"]]> ∅)));
  adjacent := [("room1", "room2"); ("room2", "room3"); ("room2", "room4");
               ("room2", "room5"); ("room5", "room6"); ("room3", "room4");
               ("room3", "room7"); ("room7", "room8"); ("room8", "room9");
               ("room6", "room9")]
|}.

Definition COST_PER_MOVE : Z := 20.
Definition FULL_BATTERY : Z := 100.

Definition state0 : State := {|
  loc := <["R1" := "room1"]> (<["c1" := "room4"]>
         (<["c2" := "room6"]> (<["c3" := "room8"]> ∅)));
  cargo := <["R1" := []]> ∅;
  battery := <["R1" := 100]> ∅
|}.

(** The world of a state and an adjacency relation under the file's type
    declarations: [rigid_relations.types] is never assigned to, the
    adjacency dictionary loses an entry in [move_exec]. *)
Definition world (adj : list (string * string)) (st : State) : World :=
  mkWorld (mkRigid (types rigid_relations0) adj) st.

Definition move (R start_loc end_loc : string) : M bool :=
  type_check ← with_rigid (fun rr => is_a rr R "robot")
                &&& with_rigid (fun rr => is_a rr start_loc "loc")
                &&& with_rigid (fun rr => is_a rr end_loc "loc");
  guard ← mret type_check
            &&& with_rigid (fun rr => Ret (is_adjacent rr start_loc end_loc))
            &&& with_state (fun st => is_at st R start_loc)
            &&& with_state (fun st => b ← dict_get (battery st) R;
                                      Ret (bool_decide (b > COST_PER_MOVE)));
  if (guard : bool) then
    loc_set R end_loc;;
    b ← with_state (fun st => dict_get (battery st) R);
    battery_set R (b - COST_PER_MOVE);;
    mret true
  else mret false.

(** Max capacity of robot is 1. *)
Definition pickup (R c : string) : M bool :=
  type_check ← with_rigid (fun rr => is_a rr R "robot")
                &&& with_rigid (fun rr => is_a rr c "object");
  guard ← mret type_check
            &&& with_state (fun st => l ← dict_get (cargo st) R;
                                      Ret (bool_decide (length l = 0%nat)));
  if (guard : bool) then
    l ← with_state (fun st => dict_get (cargo st) R);
    cargo_set R (l ++ [c]);;
    loc_set c R;;
    mret true
  else mret false.

Definition drop (R c : string) : M bool :=
  type_check ← with_rigid (fun rr => is_a rr R "robot")
                &&& with_rigid (fun rr => is_a rr c "object");
  guard ← mret type_check
            &&& with_state (fun st => l ← dict_get (loc st) c;
                                      Ret (bool_decide (l = R)));
  if (guard : bool) then
    l ← with_state (fun st => dict_get (loc st) R);
    loc_set c l;;
    cg ← with_state (fun st => dict_get (cargo st) R);
    cg' ← with_state (fun _ => list_remove c cg);
    cargo_set R cg';;
    mret true
  else mret false.

(** Recharge only at a charging station. *)
Definition recharge (R : string) : M bool :=
  type_check ← with_rigid (fun rr => is_a rr R "robot");
  guard ← mret type_check
            &&& (l ← with_state (fun st => dict_get (loc st) R);
                 with_rigid (fun rr => is_charging_station rr l));
  if (guard : bool) then
    battery_set R FULL_BATTERY;;
    mret true
  else mret false.

(** The execution-time [move]: it fails between room2 and room4 and
    removes that edge from the global adjacency dictionary. *)
Definition move_exec (R start_loc end_loc : string) : M bool :=
  type_check ← with_rigid (fun rr => is_a rr R "robot")
                &&& with_rigid (fun rr => is_a rr start_loc "loc")
                &&& with_rigid (fun rr => is_a rr end_loc "loc");
  guard ← mret type_check
            &&& with_rigid (fun rr => Ret (is_adjacent rr start_loc end_loc))
            &&& with_state (fun st => is_at st R start_loc)
            &&& with_state (fun st => b ← dict_get (battery st) R;
                                      Ret (bool_decide (b > COST_PER_MOVE)));
  if (guard : bool) then
    if bool_decide (start_loc = "room4" ∧ end_loc = "room2")
       || bool_decide (start_loc = "room2" ∧ end_loc = "room4")
    then adjacent_pop ("room2", "room4");; mret false
    else
      loc_set R end_loc;;
      b ← with_state (fun st => dict_get (battery st) R);
      battery_set R (b - COST_PER_MOVE);;
      mret true
  else mret false.

(** Tasks: the four operators and the compound tasks of the file. *)
Inductive task :=
| t_move (R start_loc end_loc : string)
| t_pickup (R c : string)
| t_drop (R c : string)
| t_recharge (R : string)
| t_transport_all (R : string) (container_destination_map : list (string * string))
| t_transport_all_order (R : string) (containers : list string)
    (container_destination_map : list (string * string)) (i : Z)
| t_transport (R c dest : string)
| t_travel (R dest : string) (excluded_stations : list string)
| t_travel_with_wrapper (R dest : string) (i limit : Z)
| t_travel_with (R dest : string) (i : Z) (excluded_stations : list string)
| t_travel_via (R dest station : string)
    (other_stations excluded_stations : list string) (i : Z).

(** LIMIT of number of refuels in a given solution. *)
Definition LIMIT : Z :=
  Z.of_nat (length (default [] (types rigid_relations0 !! "charging_stations"))).

(** A method returns [Some subtasks], or [None] for [False]. *)
Abbreviation method := (M (option (list task))).

(** An object is already present on the robot, then transport it first. *)
Definition transport_all1 (R : string) (container_destination_map : list (string * string))
    : method :=
  cg ← with_state (fun st => dict_get (cargo st) R);
  match cg with
  | c0 :: _ =>
      if adict_in c0 container_destination_map then
        new_map ← with_state (fun _ => adict_pop container_destination_map c0);
        dest ← with_state (fun _ => adict_get container_destination_map c0);
        mret (Some [t_transport R c0 dest; t_transport_all R new_map])
      else mret None
  | [] => mret None
  end.

(** First drop off the container which is closest to the robot. *)
Definition transport_all2 (R : string) (container_destination_map : list (string * string))
    : method :=
  cg ← with_state (fun st => dict_get (cargo st) R);
  if bool_decide (length cg = 0%nat)
     && bool_decide (0 < length container_destination_map)%nat then
    let containers := container_destination_map.*1 in
    keyed ← with_world (fun w => mapM_res (fun c =>
                 lR ← dict_get (loc (state w)) R;
                 lc ← dict_get (loc (state w)) c;
                 d ← distance (rigid_relations w) lR (Some lc);
                 Ret (d, c)) containers);
    mret (Some [t_transport_all_order R (sort_by_key keyed)
                  container_destination_map 0])
  else mret None.

(** Nothing left to drop off. *)
Definition transport_all3 (R : string) (container_destination_map : list (string * string))
    : method :=
  if bool_decide (length container_destination_map = 0%nat) then mret (Some [])
  else mret None.

Definition transport_all_order_guard (R : string)
    (container_destination_map : list (string * string)) (i : Z) : M bool :=
  cg ← with_state (fun st => dict_get (cargo st) R);
  mret (bool_decide (length cg = 0%nat)
        && bool_decide (0 < length container_destination_map)%nat
        && bool_decide (i < Z.of_nat (length container_destination_map))).

(** Option 1: transport the container at [containers[i]] first. *)
Definition transport_all_order1 (R : string) (containers : list string)
    (container_destination_map : list (string * string)) (i : Z) : method :=
  g ← transport_all_order_guard R container_destination_map i;
  if (g : bool) then
    c ← with_state (fun _ => py_index containers i);
    new_map ← with_state (fun _ => adict_pop container_destination_map c);
    dest ← with_state (fun _ => adict_get container_destination_map c);
    mret (Some [t_transport R c dest; t_transport_all R new_map])
  else mret None.

(** Option 2: call [transport_all_order] on [i+1]. *)
Definition transport_all_order2 (R : string) (containers : list string)
    (container_destination_map : list (string * string)) (i : Z) : method :=
  g ← transport_all_order_guard R container_destination_map i;
  if (g : bool) then
    mret (Some [t_transport_all_order R containers container_destination_map (i + 1)])
  else mret None.

(** Case 1: [c] has not been picked. *)
Definition transport1 (R c dest : string) : method :=
  lc ← with_state (fun st => dict_get (loc st) c);
  g ← mret (bool_decide (lc ≠ dest)) &&& with_rigid (fun rr => is_a rr lc "loc");
  if (g : bool) then
    mret (Some [t_travel R lc [lc]; t_pickup R c; t_travel R dest [dest];
                t_drop R c])
  else mret None.

(** Case 2: [c] is already loaded onto [R]. *)
Definition transport2 (R c dest : string) : method :=
  lc ← with_state (fun st => dict_get (loc st) c);
  if bool_decide (lc ≠ dest) && bool_decide (lc = R) then
    mret (Some [t_travel R dest [dest]; t_drop R c])
  else mret None.

(** Case 3: [c] is already at [dest]. *)
Definition transport3 (R c dest : string) : method :=
  lc ← with_state (fun st => dict_get (loc st) c);
  if bool_decide (lc = dest) then mret (Some []) else mret None.

(** Case 1: [R] is already at [dest]. *)
Definition travel_default (R dest : string) (excluded_stations : list string)
    : method :=
  lR ← with_state (fun st => dict_get (loc st) R);
  if bool_decide (lR = dest) then mret (Some []) else mret None.

Definition travel1 (R dest : string) (excluded_stations : list string)
    : method :=
  mret (Some [t_travel_with_wrapper R dest 0 LIMIT]).

(** First try to solve with the available limit. *)
Definition travel_with_wrapper1 (R dest : string) (i limit : Z) : method :=
  if bool_decide (i ≤ limit) then mret (Some [t_travel_with R dest i []])
  else mret None.

(** Else try to stretch the number of recharges by 1. *)
Definition travel_with_wrapper2 (R dest : string) (i limit : Z) : method :=
  if bool_decide (i < limit) then
    mret (Some [t_travel_with_wrapper R dest (i + 1) limit])
  else mret None.

(** The moves along [path], starting from [prev]. *)
Fixpoint moves_along (R prev : string) (path : list string) : list task :=
  match path with
  | [] => []
  | l :: path' => t_move R prev l :: moves_along R l path'
  end.

(** The battery estimate shared by [travel_with1] and [travel_via1]:
    [COST_PER_MOVE*(distance(from, dest) +
                    distance(dest, get_closest_charging_station(dest)))]. *)
Definition travel_cost (rr : Rigid) (from dest : string) : res Z :=
  d1 ← distance rr from (Some dest);
  cs ← get_closest_charging_station rr dest;
  d2 ← distance rr dest cs;
  Ret (COST_PER_MOVE * (d1 + d2)).

(** Case 1: [i == 0], so travel directly to [dest]. *)
Definition travel_with1 (R dest : string) (i : Z) (excluded_stations : list string)
    : method :=
  if bool_decide (i = 0) then
    b ← with_state (fun st => dict_get (battery st) R);
    lR ← with_state (fun st => dict_get (loc st) R);
    cost ← with_rigid (fun rr => travel_cost rr lR dest);
    let enough_battery := bool_decide (b > cost) in
    lR' ← with_state (fun st => dict_get (loc st) R);
    g ← mret (bool_decide (lR' ≠ dest))
          &&& with_rigid (fun rr => is_a rr dest "loc")
          &&& mret enough_battery;
    if (g : bool) then
      lR'' ← with_state (fun st => dict_get (loc st) R);
      path ← with_rigid (fun rr => get_shortest_path rr lR'' (Some dest));
      prev ← with_state (fun st => dict_get (loc st) R);
      match path with
      | Some path => mret (Some (moves_along R prev path))
      | None => raiseM TypeError
      end
    else mret None
  else mret None.

(** Case 2: [i > 0], so travel to [dest] via exactly [i] stations. *)
Definition travel_with2 (R dest : string) (i : Z) (excluded_stations : list string)
    : method :=
  if bool_decide (i > 0) then
    stations ← with_rigid (fun rr => get_all_charging_station rr dest);
    let filtered_stations :=
      filter (fun s => s ∉ excluded_stations) stations in
    lR ← with_state (fun st => dict_get (loc st) R);
    g ← mret (bool_decide (lR ≠ dest))
          &&& with_rigid (fun rr => is_a rr dest "loc")
          &&& mret (bool_decide (0 < length filtered_stations)%nat);
    if (g : bool) then
      match filtered_stations with
      | s0 :: others =>
          mret (Some [t_travel_via R dest s0 others excluded_stations i])
      | [] => raiseM IndexError
      end
    else mret None
  else mret None.

(** Travel to [dest] via [station] as the last station. *)
Definition travel_via1 (R dest station : string)
    (other_stations excluded_stations : list string) (i : Z) : method :=
  cost ← with_rigid (fun rr => travel_cost rr station dest);
  let enough_battery := bool_decide (FULL_BATTERY > cost) in
  g ← mret (bool_decide (i > 0))
        &&& with_rigid (fun rr => is_a rr station "loc")
        &&& mret enough_battery;
  if (g : bool) then
    let new_excluded_stations := (excluded_stations ++ [station])%list in
    mret (Some [t_travel_with R station (i - 1) new_excluded_stations;
                t_recharge R;
                t_travel_with R dest 0 new_excluded_stations])
  else mret None.

(** Makes another call to [travel_via]. *)
Definition travel_via2 (R dest station : string)
    (other_stations excluded_stations : list string) (i : Z) : method :=
  if bool_decide (i > 0) && bool_decide (0 < length other_stations)%nat then
    match other_stations with
    | s0 :: others =>
        mret (Some [t_travel_via R dest s0 others
                      (excluded_stations ++ [station]) i])
    | [] => raiseM IndexError
    end
  else mret None.

(** [pyhop.declare_operators(move, pickup, drop, recharge)]. *)
Definition operators (t : task) : option (M bool) :=
  match t with
  | t_move R s e => Some (move R s e)
  | t_pickup R c => Some (pickup R c)
  | t_drop R c => Some (drop R c)
  | t_recharge R => Some (recharge R)
  | _ => None
  end.

(** The [pyhop.declare_methods] calls, in their order. *)
Definition methods (t : task) : list method :=
  match t with
  | t_transport_all R m =>
      [transport_all1 R m; transport_all2 R m; transport_all3 R m]
  | t_transport_all_order R cs m i =>
      [transport_all_order1 R cs m i; transport_all_order2 R cs m i]
  | t_transport R c dest =>
      [transport1 R c dest; transport2 R c dest; transport3 R c dest]
  | t_travel R dest ex => [travel_default R dest ex; travel1 R dest ex]
  | t_travel_with_wrapper R dest i limit =>
      [travel_with_wrapper1 R dest i limit; travel_with_wrapper2 R dest i limit]
  | t_travel_with R dest i ex =>
      [travel_with1 R dest i ex; travel_with2 R dest i ex]
  | t_travel_via R dest s os ex i =>
      [travel_via1 R dest s os ex i; travel_via2 R dest s os ex i]
  | _ => []
  end.

Definition domain : Domain task := mkDomain task operators methods.

End Final.

(** ** simple_warehouse_robot.py *)

Module Simple.

Definition rigid_relations0 : Rigid := {|
  types := <["robot" := ["R1"]]>
           (<["object" := ["c1"]]>
           (<["loc" := ["room1"; "room2"; "room3"; "room4"]]> ∅));
  adjacent := [("room1", "room2"); ("room1", "room3"); ("room2", "room4")]
|}.

Definition state0 : State := {|
  loc := <["R1" := "room1"]> (<["c1" := "room3"]> ∅);
  cargo := <["R1" := []]> ∅;
  battery := <["R1" := 50]> ∅
|}.

Definition move (R start_loc end_loc : string) : M bool :=
  type_check ← with_rigid (fun rr => is_a rr R "robot")
                &&& with_rigid (fun rr => is_a rr start_loc "loc")
                &&& with_rigid (fun rr => is_a rr end_loc "loc");
  guard ← mret type_check
            &&& with_rigid (fun rr => Ret (is_adjacent rr start_loc end_loc))
            &&& with_state (fun st => is_at st R start_loc)
            &&& with_state (fun st => b ← dict_get (battery st) R;
                                      Ret (bool_decide (b > 25)));
  if (guard : bool) then
    loc_set R end_loc;;
    b ← with_state (fun st => dict_get (battery st) R);
    battery_set R (b - 25);;
    mret true
  else mret false.

Definition pickup (R c : string) : M bool :=
  type_check ← with_rigid (fun rr => is_a rr R "robot")
                &&& with_rigid (fun rr => is_a rr c "object");
  guard ← mret type_check
            &&& with_state (fun st => l ← dict_get (cargo st) R;
                                      Ret (bool_decide (length l = 0%nat)));
  if (guard : bool) then
    l ← with_state (fun st => dict_get (cargo st) R);
    cargo_set R (l ++ [c]);;
    loc_set c R;;
    mret true
  else mret false.

Definition drop (R c : string) : M bool :=
  type_check ← with_rigid (fun rr => is_a rr R "robot")
                &&& with_rigid (fun rr => is_a rr c "object");
  guard ← mret type_check
            &&& with_state (fun st => l ← dict_get (loc st) c;
                                      Ret (bool_decide (l = R)));
  if (guard : bool) then
    l ← with_state (fun st => dict_get (loc st) R);
    loc_set c l;;
    cg ← with_state (fun st => dict_get (cargo st) R);
    cg' ← with_state (fun _ => list_remove c cg);
    cargo_set R cg';;
    mret true
  else mret false.

Definition recharge (R : string) : M bool :=
  type_check ← with_rigid (fun rr => is_a rr R "robot");
  if (type_check : bool) then
    battery_set R 100;;
    mret true
  else mret false.

Inductive task :=
| t_move (R start_loc end_loc : string)
| t_pickup (R c : string)
| t_drop (R c : string)
| t_recharge (R : string)
| t_transport (R c dest : string)
| t_travel (R dest : string)
| t_move_next (R loc next_loc : string).

Abbreviation method := (M (option (list task))).

Definition transport1 (R c dest : string) : method :=
  lc ← with_state (fun st => dict_get (loc st) c);
  g ← mret (bool_decide (lc ≠ dest)) &&& with_rigid (fun rr => is_a rr lc "loc");
  if (g : bool) then
    mret (Some [t_travel R lc; t_pickup R c; t_travel R dest; t_drop R c])
  else mret None.

(** [c] is already loaded onto [R]. *)
Definition transport2 (R c dest : string) : method :=
  lc ← with_state (fun st => dict_get (loc st) c);
  if bool_decide (lc ≠ dest) && bool_decide (lc = R) then
    mret (Some [t_travel R dest; t_drop R c])
  else mret None.

(** [c] is already at [dest]. *)
Definition transport3 (R c dest : string) : method :=
  lc ← with_state (fun st => dict_get (loc st) c);
  if bool_decide (lc = dest) then mret (Some []) else mret None.

Fixpoint move_nexts (R prev : string) (path : list string) : list task :=
  match path with
  | [] => []
  | l :: path' => t_move_next R prev l :: move_nexts R l path'
  end.

Definition travel1 (R dest : string) : method :=
  lR ← with_state (fun st => dict_get (loc st) R);
  g ← mret (bool_decide (lR ≠ dest)) &&& with_rigid (fun rr => is_a rr dest "loc");
  if (g : bool) then
    lR' ← with_state (fun st => dict_get (loc st) R);
    path ← with_rigid (fun rr => get_shortest_path rr lR' (Some dest));
    prev ← with_state (fun st => dict_get (loc st) R);
    match path with
    | Some path => mret (Some (move_nexts R prev path))
    | None => raiseM TypeError
    end
  else mret None.

Definition travel2 (R dest : string) : method :=
  lR ← with_state (fun st => dict_get (loc st) R);
  if bool_decide (lR = dest) then mret (Some []) else mret None.

(** Move to adjacent node with no need to recharge. *)
Definition move_next1 (R loc next_loc : string) : method :=
  g ← with_rigid (fun rr => Ret (is_adjacent rr loc next_loc))
        &&& with_state (fun st => b ← dict_get (battery st) R;
                                  Ret (bool_decide (b > 25)));
  if (g : bool) then mret (Some [t_move R loc next_loc]) else mret None.

(** Insufficient battery, so move to adjacent node after recharging. *)
Definition move_next2 (R loc next_loc : string) : method :=
  g ← with_rigid (fun rr => Ret (is_adjacent rr loc next_loc))
        &&& with_state (fun st => b ← dict_get (battery st) R;
                                  Ret (bool_decide (b ≤ 25)));
  if (g : bool) then mret (Some [t_recharge R; t_move R loc next_loc])
  else mret None.

Definition operators (t : task) : option (M bool) :=
  match t with
  | t_move R s e => Some (move R s e)
  | t_pickup R c => Some (pickup R c)
  | t_drop R c => Some (drop R c)
  | t_recharge R => Some (recharge R)
  | _ => None
  end.

Definition methods (t : task) : list method :=
  match t with
  | t_transport R c dest =>
      [transport1 R c dest; transport2 R c dest; transport3 R c dest]
  | t_travel R dest => [travel1 R dest; travel2 R dest]
  | t_move_next R l n => [move_next1 R l n; move_next2 R l n]
  | _ => []
  end.

Definition domain : Domain task := mkDomain task operators methods.

(** [pyhop.pyhop(state0, [('transport', 'R1', 'c1', 'room4')])]. *)
Definition main (fuel : nat) : res (option (list task)) :=
  (plan domain fuel [t_transport "R1" "c1" "room4"]
     (mkWorld rigid_relations0 state0)).1.

End Simple.


(** * Specification vocabulary *)

(** A Python exception, as opposed to the fuel of a loop of the model
    running out. *)
Definition is_raise {A} (r : res A) : Prop :=
  match r with
  | Ret _ => False
  | Raise e => e ≠ OutOfFuel
  end.

(** An answer of Python: a value or an exception, the fuel of the model
    did not run out. *)
Definition res_ok {A} (r : res A) : Prop := r ≠ Raise OutOfFuel.


(** A computation that leaves [rigid_relations] as it found it, whatever
    its outcome. *)
Definition preserves_rigid {A} (m : M A) : Prop :=
  ∀ w, rigid_relations (m w).2 = rigid_relations w.

(** A computation that leaves the whole world (the rigid relations and
    the state object) as it found it, whatever its outcome. *)
Definition readonly {A} (m : M A) : Prop := ∀ w, (m w).2 = w.

(** Cargo capacity one: every cargo list of the state has at most one
    item. *)
Definition cargo_bounded (st : State) : Prop :=
  ∀ R l, cargo st !! R = Some l -> (length l ≤ 1)%nat.

(** The adjacency graph of the rigid relations is undirected. *)
Definition edge (rr : Rigid) (x y : string) : Prop :=
  (x, y) ∈ adjacent rr ∨ (y, x) ∈ adjacent rr.

(** A room of the adjacency graph: it occurs in some adjacency pair. *)
Definition vertex (rr : Rigid) (x : string) : Prop := ∃ y, edge rr x y.

(** [walk rr a b n]: [b] is reached from [a] along [n] edges. *)
Inductive walk (rr : Rigid) (a : string) : string -> nat -> Prop :=
| walk_nil : walk rr a a 0
| walk_snoc b c n : walk rr a b n -> edge rr b c -> walk rr a c (S n).

Definition reachable (rr : Rigid) (a b : string) : Prop := ∃ n, walk rr a b n.

(** [n] is the number of edges on a shortest path from [a] to [b]. *)
Definition shortest (rr : Rigid) (a b : string) (n : nat) : Prop :=
  walk rr a b n ∧ ∀ m, walk rr a b m -> (n ≤ m)%nat.

(** ** Planning *)

(** The methods loop of [seek_plan], as a function of its own. *)
Fixpoint try_methods {task} (D : Domain task) (fuel' : nat) (rest : list task)
    (ms : list (M (option (list task)))) : M (option (list task)) :=
  match ms with
  | [] => mret None
  | m :: ms' =>
      subtasks ← m;
      match subtasks with
      | None => try_methods D fuel' rest ms'
      | Some subtasks =>
          solution ← seek_plan D fuel' (subtasks ++ rest)%list;
          match solution with
          | Some plan => mret (Some plan)
          | None => try_methods D fuel' rest ms'
          end
      end
  end.

(** Every step of a returned plan is an operator that succeeds in the
    world reached by the steps before it. *)
Definition executes {task} (D : Domain task) (w : World) (p : list task)
    : Prop :=
  ∀ i t, p !! i = Some t ->
    ∃ wi operator w1, world_at D p w i = Some wi ∧
      operators D t = Some operator ∧ operator wi = (Ret true, w1).

(** The plan of the scenario at the end of simple_warehouse_robot.py:
    [pyhop.pyhop(state0, [('transport', 'R1', 'c1', 'room4')])]. *)
Definition simple_plan : list Simple.task :=
  [Simple.t_move "R1" "room1" "room3"; Simple.t_pickup "R1" "c1";
   Simple.t_recharge "R1"; Simple.t_move "R1" "room3" "room1";
   Simple.t_move "R1" "room1" "room2"; Simple.t_move "R1" "room2" "room4";
   Simple.t_drop "R1" "c1"].

(** The battery of [R] in the worlds in which the steps of a plan are
    executed. *)
Definition battery_trace {task} (D : Domain task) (p : list task)
    (w : World) (R : string) : list (option Z) :=
  map (fun i => wi ← world_at D p w i; battery (state wi) !! R)
    (seq 0 (length p)).

(** ** Breadth-first search *)

(** The neighbours of [z] in [G] ([G[z]], empty when [z] is no key). *)
Definition nbrs_of (G : gmap string (list string)) (z : string) : list string :=
  default [] (G !! z).

(** The neighbours that a round of the search visits for the first time,
    in the order in which it meets them. *)
Fixpoint fresh_nbrs (vis : gset string) (nbrs : list string) : list string :=
  match nbrs with
  | [] => []
  | nb :: nbrs' =>
      if bool_decide (nb ∈ vis) then fresh_nbrs vis nbrs'
      else nb :: fresh_nbrs ({[nb]} ∪ vis) nbrs'
  end.

(** The levels after a round: the nodes in [new] are at level [k]. *)
Definition relevel (lv : string -> nat) (new : list string) (k : nat)
    : string -> nat :=
  fun x => if bool_decide (x ∈ new) then k else lv x.

(** The invariant of both search loops: [vis] is the set of visited nodes,
    [queue] the queue, and [lv v] the number of edges over which the
    search reached [v]. *)
Record bfs_inv (rr : Rigid) (start : string) (lv : string -> nat)
    (vis : gset string) (queue : list string) : Prop := {
  inv_start : start ∈ vis ∧ lv start = 0%nat;
  inv_queue : ∀ x, x ∈ queue -> x ∈ vis;
  inv_vertex : ∀ v, v ∈ vis -> vertex rr v;
  inv_sound : ∀ v, v ∈ vis -> walk rr start v (lv v);
  inv_sorted : StronglySorted (fun a b => lv a ≤ lv b)%nat queue;
  inv_bound : ∀ h v, head queue = Some h -> v ∈ vis -> (lv v ≤ S (lv h))%nat;
  inv_processed : ∀ v x, v ∈ vis -> v ∉ queue -> edge rr v x ->
                         x ∈ vis ∧ (lv x ≤ S (lv v))%nat;
  inv_size : ∀ v, v ∈ vis -> (lv v < size vis)%nat
}.

(** The predecessor map of the search: the start has no predecessor, and
    a predecessor is visited, adjacent and one level up. *)
Record parent_inv (rr : Rigid) (lv : string -> nat)
    (visited : gmap string (option string)) : Prop := {
  par_root : ∀ v, visited !! v = Some None -> lv v = 0%nat;
  par_step : ∀ v p, visited !! v = Some (Some p) ->
               is_Some (visited !! p) ∧ lv v = S (lv p) ∧ edge rr p v
}.

(** The stations found so far: the visited charging stations other than
    the start, each once, in the order of their levels. *)
Record station_inv (start : string) (cs : list string) (lv : string -> nat)
    (vis : gset string) (stations : list string) : Prop := {
  st_nodup : NoDup stations;
  st_elem : ∀ s, s ∈ stations ↔ s ∈ vis ∧ s ≠ start ∧ s ∈ cs;
  st_sorted : StronglySorted (fun a b => lv a ≤ lv b)%nat stations
}.

(** ** Concrete worlds *)

(** The initial world of final_warehouse_robot.py. *)
Definition final_world0 : World := mkWorld Final.rigid_relations0 Final.state0.

(** A state in which the robot has a battery level and a cargo list but
    no entry in [state.loc]. *)
Definition state_without_loc : State :=
  mkState ∅ (<["R1" := []]> ∅) (<["R1" := 10]> ∅).

(** A state with a low battery. *)
Definition state_low_battery : State :=
  mkState (<["R1" := "room1"]> ∅) (<["R1" := []]> ∅) (<["R1" := 10]> ∅).

(** A state in which the robot carries c1. *)
Definition state_loaded : State :=
  mkState (<["R1" := "room1"]> (<["c1" := "R1"]> ∅)) (<["R1" := ["c1"]]> ∅)
    (<["R1" := 100]> ∅).

(** The rigid relations of the file with one more declared location,
    room10, that occurs in no adjacency pair. *)
Definition rigid_isolated_room : Rigid :=
  mkRigid (<["loc" := ["room1"; "room2"; "room3"; "room4"; "room5"; "room6";
                       "room7"; "room8"; "room9"; "room10"]]>
             (types Final.rigid_relations0))
    (adjacent Final.rigid_relations0).

(** The rigid relations of the file without any charging station. *)
Definition rigid_no_stations : Rigid :=
  mkRigid (<["charging_stations" := []]> (types Final.rigid_relations0))
    (adjacent Final.rigid_relations0).

(** ** Paths, executions and states *)

(** [path] leads from [a] to [b]: each of its rooms is adjacent to the one
    before it ([a] for the first), and [b] is the last one ([a] itself
    when the path is empty). *)
Fixpoint leads (rr : Rigid) (a : string) (path : list string) (b : string)
    : Prop :=
  match path with
  | [] => a = b
  | x :: path' => edge rr a x ∧ leads rr x path' b
  end.

(** Executing primitive tasks one after the other, each operator on the
    world the one before it left; [None] as soon as a task has no operator
    or its operator does not succeed. *)
Fixpoint run_tasks {task} (operators : task -> option (M bool))
    (ts : list task) (w : World) : option World :=
  match ts with
  | [] => Some w
  | t :: ts' =>
      match operators t with
      | Some operator =>
          match operator w with
          | (Ret true, w1) => run_tasks operators ts' w1
          | _ => None
          end
      | None => None
      end
  end.

(** Every battery level of the state is positive and at most the
    capacity [FULL_BATTERY]. *)
Definition battery_in_range (st : State) : Prop :=
  ∀ R b, battery st !! R = Some b -> 0 < b ≤ Final.FULL_BATTERY.

(** A well-formed state of final_warehouse_robot.py: every declared robot
    is in a declared room and has a cargo list and a battery level, every
    declared container is somewhere, and a container whose location is a
    robot is in the cargo list of that robot. *)
Record well_formed (st : State) : Prop := {
  wf_robot : ∀ R, is_a Final.rigid_relations0 R "robot" = Ret true ->
    ∃ l cg b, loc st !! R = Some l ∧
      is_a Final.rigid_relations0 l "loc" = Ret true ∧
      cargo st !! R = Some cg ∧ battery st !! R = Some b;
  wf_object : ∀ c, is_a Final.rigid_relations0 c "object" = Ret true ->
    is_Some (loc st !! c);
  wf_carried : ∀ R c, is_a Final.rigid_relations0 R "robot" = Ret true ->
    is_a Final.rigid_relations0 c "object" = Ret true ->
    loc st !! c = Some R -> ∃ cg, cargo st !! R = Some cg ∧ c ∈ cg
}.

(** The world after [rigid_relations.adjacent.pop(('room2', 'room4'))]. *)
Definition without_edge (w : World) : World :=
  mkWorld (mkRigid (types (rigid_relations w))
             (filter (fun e => e ≠ ("room2", "room4"))
                (adjacent (rigid_relations w)))) (state w).

(** The initial world of simple_warehouse_robot.py. *)
Definition simple_world0 : World :=
  mkWorld Simple.rigid_relations0 Simple.state0.

(** * Facts about the monad *)

Lemma res_bind_Ret {A B} (a : A) (f : A -> res B) : (Ret a ≫= f) = f a.
Proof. reflexivity. Qed.

Section MonadFacts.
Context {A B : Type}.

Lemma run_bind (m : M A) (f : A -> M B) w :
  (m ≫= f) w = match m w with
               | (Ret a, w') => f a w'
               | (Raise e, w') => (Raise e, w')
               end.
Proof. reflexivity. Qed.

Lemma run_ret (a : A) w : (mret a : M A) w = (Ret a, w).
Proof. reflexivity. Qed.

Lemma run_with_rigid (f : Rigid -> res A) w :
  with_rigid f w = (f (rigid_relations w), w).
Proof. reflexivity. Qed.

Lemma run_with_state (f : State -> res A) w :
  with_state f w = (f (state w), w).
Proof. reflexivity. Qed.

Lemma run_with_world (f : World -> res A) w : with_world f w = (f w, w).
Proof. reflexivity. Qed.

Lemma run_raiseM e w : (raiseM e : M A) w = (Raise e, w).
Proof. reflexivity. Qed.

Lemma readonly_preserves_rigid (m : M A) : readonly m -> preserves_rigid m.
Proof. intros H w. by rewrite H. Qed.

Lemma readonly_ret (a : A) : readonly (mret a : M A).
Proof. done. Qed.

Lemma readonly_with_rigid (f : Rigid -> res A) : readonly (with_rigid f).
Proof. done. Qed.

Lemma readonly_with_state (f : State -> res A) : readonly (with_state f).
Proof. done. Qed.

Lemma readonly_with_world (f : World -> res A) : readonly (with_world f).
Proof. done. Qed.

Lemma readonly_raiseM e : readonly (raiseM e : M A).
Proof. done. Qed.

Lemma readonly_bind (m : M A) (f : A -> M B) :
  readonly m -> (∀ a, readonly (f a)) -> readonly (m ≫= f).
Proof.
  intros Hm Hf w. rewrite run_bind. specialize (Hm w).
  destruct (m w) as [[a|e] w']; simpl in *; subst; [apply Hf | done].
Qed.

Lemma preserves_rigid_ret (a : A) : preserves_rigid (mret a : M A).
Proof. done. Qed.

Lemma preserves_rigid_bind (m : M A) (f : A -> M B) :
  preserves_rigid m -> (∀ a, preserves_rigid (f a)) ->
  preserves_rigid (m ≫= f).
Proof.
  intros Hm Hf w. rewrite run_bind. specialize (Hm w).
  destruct (m w) as [[a|e] w']; simpl in *; [by rewrite Hf | done].
Qed.

End MonadFacts.

Lemma run_andM (a b : M bool) w :
  (a &&& b) w = match a w with
                | (Ret true, w') => b w'
                | (Ret false, w') => (Ret false, w')
                | (Raise e, w') => (Raise e, w')
                end.
Proof.
  unfold andM. rewrite run_bind. by destruct (a w) as [[[|]|] ?].
Qed.

Lemma readonly_andM (a b : M bool) :
  readonly a -> readonly b -> readonly (a &&& b).
Proof. intros Ha Hb. apply readonly_bind; [done | by intros []]. Qed.

Lemma preserves_rigid_andM (a b : M bool) :
  preserves_rigid a -> preserves_rigid b -> preserves_rigid (a &&& b).
Proof. intros Ha Hb. apply preserves_rigid_bind; [done | by intros []]. Qed.

Lemma preserves_rigid_loc_set k v : preserves_rigid (loc_set k v).
Proof. done. Qed.

Lemma preserves_rigid_battery_set k v : preserves_rigid (battery_set k v).
Proof. done. Qed.

Lemma preserves_rigid_cargo_set k v : preserves_rigid (cargo_set k v).
Proof. done. Qed.

Lemma preserves_rigid_with_rigid {A} (f : Rigid -> res A) :
  preserves_rigid (with_rigid f).
Proof. done. Qed.

Lemma preserves_rigid_with_state {A} (f : State -> res A) :
  preserves_rigid (with_state f).
Proof. done. Qed.

Lemma dict_get_Some {V} (d : gmap string V) k v :
  d !! k = Some v -> dict_get d k = Ret v.
Proof. unfold dict_get. by intros ->. Qed.

Lemma dict_get_None {V} (d : gmap string V) k :
  d !! k = None -> dict_get d k = Raise KeyError.
Proof. unfold dict_get. by intros ->. Qed.

(** Frame conditions, by the structure of the computation. *)
Ltac frame_step :=
  lazymatch goal with
  | |- ∀ _, _ => intros ?
  | |- readonly (if ?b then _ else _) => destruct b
  | |- readonly (match ?x with _ => _ end) => destruct x
  | |- readonly (_ &&& _) => apply readonly_andM
  | |- readonly (_ ≫= _) => apply readonly_bind
  | |- readonly (mret _) => apply readonly_ret
  | |- readonly (with_rigid _) => apply readonly_with_rigid
  | |- readonly (with_state _) => apply readonly_with_state
  | |- readonly (with_world _) => apply readonly_with_world
  | |- readonly (raiseM _) => apply readonly_raiseM
  | |- preserves_rigid (if ?b then _ else _) => destruct b
  | |- preserves_rigid (match ?x with _ => _ end) => destruct x
  | |- preserves_rigid (_ &&& _) => apply preserves_rigid_andM
  | |- preserves_rigid (_ ≫= _) => apply preserves_rigid_bind
  | |- preserves_rigid (mret _) => apply preserves_rigid_ret
  | |- preserves_rigid (with_rigid _) => apply preserves_rigid_with_rigid
  | |- preserves_rigid (with_state _) => apply preserves_rigid_with_state
  | |- preserves_rigid (loc_set _ _) => apply preserves_rigid_loc_set
  | |- preserves_rigid (battery_set _ _) => apply preserves_rigid_battery_set
  | |- preserves_rigid (cargo_set _ _) => apply preserves_rigid_cargo_set
  end.

Ltac frame := repeat frame_step.

(** * The operators of final_warehouse_robot.py *)

Lemma move_preserves_rigid R s e : preserves_rigid (Final.move R s e).
Proof. unfold Final.move. frame. Qed.

Lemma pickup_preserves_rigid R c : preserves_rigid (Final.pickup R c).
Proof. unfold Final.pickup. frame. Qed.

Lemma drop_preserves_rigid R c : preserves_rigid (Final.drop R c).
Proof. unfold Final.drop. frame. Qed.

Lemma recharge_preserves_rigid R : preserves_rigid (Final.recharge R).
Proof. unfold Final.recharge. frame. Qed.

Lemma final_operators_preserve_rigid t op :
  Final.operators t = Some op -> preserves_rigid op.
Proof.
  destruct t; simpl; intros; simplify_eq;
    auto using move_preserves_rigid, pickup_preserves_rigid,
      drop_preserves_rigid, recharge_preserves_rigid.
Qed.

Lemma final_methods_readonly t m : m ∈ Final.methods t -> readonly m.
Proof.
  destruct t; simpl; intros Hm;
    repeat (apply elem_of_cons in Hm as [->|Hm]);
    try (by apply elem_of_nil in Hm).
  all: unfold Final.transport_all1, Final.transport_all2,
    Final.transport_all3, Final.transport_all_order1,
    Final.transport_all_order2, Final.transport_all_order_guard,
    Final.transport1, Final.transport2, Final.transport3,
    Final.travel_default, Final.travel1, Final.travel_with_wrapper1,
    Final.travel_with_wrapper2, Final.travel_with1, Final.travel_with2,
    Final.travel_via1, Final.travel_via2; frame.
Qed.

Lemma run_loc_set k v w :
  loc_set k v w =
  (Ret tt, mkWorld (rigid_relations w)
     (mkState (<[k := v]> (loc (state w))) (cargo (state w))
        (battery (state w)))).
Proof. reflexivity. Qed.

Lemma run_battery_set k v w :
  battery_set k v w =
  (Ret tt, mkWorld (rigid_relations w)
     (mkState (loc (state w)) (cargo (state w))
        (<[k := v]> (battery (state w))))).
Proof. reflexivity. Qed.

Lemma run_cargo_set k v w :
  cargo_set k v w =
  (Ret tt, mkWorld (rigid_relations w)
     (mkState (loc (state w)) (<[k := v]> (cargo (state w)))
        (battery (state w)))).
Proof. reflexivity. Qed.

Lemma res_bind_Raise {A B} e (f : A -> res B) : (Raise e ≫= f) = Raise e.
Proof. reflexivity. Qed.

(** Running a computation one step at a time, without unfolding the
    helpers. *)
Ltac run_m :=
  repeat (rewrite ?run_bind, ?run_andM, ?run_ret, ?run_with_rigid,
            ?run_with_state, ?run_with_world, ?run_raiseM, ?run_loc_set,
            ?run_battery_set, ?run_cargo_set, ?res_bind_Ret,
            ?res_bind_Raise;
          cbv beta iota).

Section FinalWorld.
Context (adj : list (string * string)) (st : State).

Lemma is_a_robot v :
  is_a (rigid_relations (Final.world adj st)) v "robot"
  = Ret (bool_decide (v ∈ ["R1"])).
Proof. reflexivity. Qed.

Lemma is_a_object v :
  is_a (rigid_relations (Final.world adj st)) v "object"
  = Ret (bool_decide (v ∈ ["c1"; "c2"; "c3"])).
Proof. reflexivity. Qed.

Lemma is_a_loc v :
  is_a (rigid_relations (Final.world adj st)) v "loc"
  = Ret (bool_decide (v ∈ ["room1"; "room2"; "room3"; "room4"; "room5";
                           "room6"; "room7"; "room8"; "room9"])).
Proof. reflexivity. Qed.

Lemma state_world : state (Final.world adj st) = st.
Proof. reflexivity. Qed.

Lemma move_low_battery_aux R s e b :
  battery st !! R = Some b -> b ≤ Final.COST_PER_MOVE ->
  (Final.move R s e (Final.world adj st)).2 = Final.world adj st ∧
  ((Final.move R s e (Final.world adj st)).1 = Ret false ∨
   ((Final.move R s e (Final.world adj st)).1 = Raise KeyError ∧
    loc st !! R = None)).
Proof.
  intros Hb Hle. unfold Final.move. run_m.
  rewrite is_a_robot.
  destruct (bool_decide (R ∈ ["R1"])); run_m; [|by auto].
  rewrite is_a_loc.
  destruct (bool_decide (s ∈ _)); run_m; [|by auto].
  rewrite is_a_loc.
  destruct (bool_decide (e ∈ _)); run_m; [|by auto].
  destruct (is_adjacent _ s e); run_m; [|by auto].
  rewrite state_world.
  unfold is_at. destruct (loc st !! R) as [l|] eqn:Hl.
  - rewrite (dict_get_Some _ _ _ Hl). run_m.
    destruct (bool_decide (s = l)); run_m; [|by auto].
    rewrite ?state_world, (dict_get_Some _ _ _ Hb). run_m.
    rewrite bool_decide_eq_false_2 by lia. run_m. by auto.
  - rewrite (dict_get_None _ _ Hl). run_m. by auto.
Qed.

End FinalWorld.

(** * Facts about the planner *)

Lemma world_eta w : mkWorld (rigid_relations w) (state w) = w.
Proof. by destruct w. Qed.

Section PlannerFacts.
Context {task : Type} (D : Domain task).

Lemma try_methods_cons fuel rest m ms :
  try_methods D fuel rest (m :: ms) =
    (subtasks ← m;
     match subtasks with
     | None => try_methods D fuel rest ms
     | Some subtasks =>
         solution ← seek_plan D fuel (subtasks ++ rest)%list;
         match solution with
         | Some plan => mret (Some plan)
         | None => try_methods D fuel rest ms
         end
     end).
Proof. reflexivity. Qed.

Lemma seek_plan_compound fuel t rest :
  operators D t = None ->
  seek_plan D (S fuel) (t :: rest) = try_methods D fuel rest (methods D t).
Proof.
  intros Hop. simpl. rewrite Hop.
  induction (methods D t) as [|m ms IH]; simpl; [done|].
  by rewrite IH.
Qed.

Lemma seek_plan_atomic fuel t rest operator w :
  operators D t = Some operator ->
  seek_plan D (S fuel) (t :: rest) w =
    match operator w with
    | (Ret true, w1) =>
        match seek_plan D fuel rest w1 with
        | (Ret (Some plan), w2) =>
            (Ret (Some (t :: plan)), mkWorld (rigid_relations w2) (state w))
        | (r, w2) => (r, mkWorld (rigid_relations w2) (state w))
        end
    | (Ret false, w1) => (Ret None, mkWorld (rigid_relations w1) (state w))
    | (Raise e, w1) => (Raise e, mkWorld (rigid_relations w1) (state w))
    end.
Proof. intros Hop. simpl. by rewrite Hop. Qed.

Section Pure.
Hypothesis operators_rigid :
  ∀ t operator, operators D t = Some operator -> preserves_rigid operator.
Hypothesis methods_readonly : ∀ t m, m ∈ methods D t -> readonly m.

Lemma try_methods_readonly fuel rest ms :
  (∀ tasks, readonly (seek_plan D fuel tasks)) ->
  (∀ m, m ∈ ms -> readonly m) ->
  readonly (try_methods D fuel rest ms).
Proof.
  intros IH. induction ms as [|m ms IHms]; intros Hms; simpl; [done|].
  apply readonly_bind; [apply Hms; left|].
  intros [subtasks|]; [|apply IHms; intros; apply Hms; by right].
  apply readonly_bind; [apply IH|].
  intros [p|]; [done|apply IHms; intros; apply Hms; by right].
Qed.

(** Planning leaves the world as it found it. *)
Lemma seek_plan_readonly fuel tasks : readonly (seek_plan D fuel tasks).
Proof.
  revert tasks. induction fuel as [|fuel IH]; intros [|t rest]; try done.
  destruct (operators D t) as [operator|] eqn:Hop.
  - intros w. rewrite (seek_plan_atomic _ _ _ _ _ Hop).
    pose proof (operators_rigid _ _ Hop w) as Hr.
    destruct (operator w) as [[[|]|e] w1]; simpl in *.
    + pose proof (IH rest w1) as H2.
      destruct (seek_plan D fuel rest w1) as [[[p|]|e] w2]; simpl in *;
        subst; rewrite Hr; apply world_eta.
    + rewrite Hr. apply world_eta.
    + rewrite Hr. apply world_eta.
  - rewrite (seek_plan_compound _ _ _ Hop).
    apply try_methods_readonly; [done|apply methods_readonly].
Qed.

Lemma seek_plan_executes fuel tasks w p w' :
  seek_plan D fuel tasks w = (Ret (Some p), w') -> executes D w p.
Proof.
  revert tasks w p w'.
  induction fuel as [|fuel IH]; intros [|t rest] w p w'; try done.
  { intros [= <- <-] i t Hi. by destruct i. }
  destruct (operators D t) as [operator|] eqn:Hop.
  - rewrite (seek_plan_atomic _ _ _ _ _ Hop).
    destruct (operator w) as [[[|]|e] w1] eqn:Hrun; try done.
    destruct (seek_plan D fuel rest w1) as [[[p'|]|e] w2] eqn:Hrec; try done.
    intros [= <- <-] [|i] t' Hi; simpl in *.
    + simplify_eq. by exists w, operator, w1.
    + rewrite Hop, Hrun. by eapply IH.
  - rewrite (seek_plan_compound _ _ _ Hop).
    assert (∀ m, m ∈ methods D t -> readonly m) as Hms
      by (intros; by eapply methods_readonly).
    induction (methods D t) as [|m ms IHms]; simpl; [done|].
    rewrite run_bind. pose proof (Hms m ltac:(left)) as Hm. specialize (Hm w).
    destruct (m w) as [[[subtasks|]|e] w1]; simpl in *; subst; try done.
    + rewrite run_bind.
      pose proof (seek_plan_readonly fuel (subtasks ++ rest) w) as Hro.
      destruct (seek_plan D fuel (subtasks ++ rest) w)
        as [[[p'|]|e] w2] eqn:Hrec; simpl in *; subst; try done.
      * intros [= <- <-]. by eapply IH.
      * apply IHms. intros; apply Hms; by right.
    + apply IHms. intros; apply Hms; by right.
Qed.

End Pure.

(** More fuel does not change an answer that did not run out of fuel. *)
Lemma seek_plan_fuel_S fuel tasks w r w' :
  seek_plan D fuel tasks w = (r, w') -> r ≠ Raise OutOfFuel ->
  seek_plan D (S fuel) tasks w = (r, w').
Proof.
  revert tasks w r w'.
  induction fuel as [|fuel IH]; intros tasks w r w'.
  { by intros [= <- <-]. }
  destruct tasks as [|t rest]; [done|].
  destruct (operators D t) as [operator|] eqn:Hop.
  - rewrite !(seek_plan_atomic _ _ _ _ _ Hop).
    destruct (operator w) as [[[|]|e] w1] eqn:Hrun; try done.
    destruct (seek_plan D fuel rest w1) as [r2 w2] eqn:Hrec.
    intros Hres Hne.
    assert (r2 ≠ Raise OutOfFuel) as Hne2.
    { intros ->. by simplify_eq. }
    by rewrite (IH _ _ _ _ Hrec Hne2).
  - rewrite !(seek_plan_compound _ _ _ Hop). revert w.
    induction (methods D t) as [|m ms IHms]; intros w; [done|].
    rewrite !try_methods_cons, !run_bind.
    destruct (m w) as [[[subtasks|]|e] w1]; try done; [|apply IHms].
    rewrite !run_bind.
    destruct (seek_plan D fuel (subtasks ++ rest) w1) as [r2 w2] eqn:Hrec.
    intros Hres Hne.
    assert (r2 ≠ Raise OutOfFuel) as Hne2.
    { intros ->. by simplify_eq. }
    rewrite (IH _ _ _ _ Hrec Hne2).
    destruct r2 as [[p|]|e]; try done. by apply IHms.
Qed.

Lemma seek_plan_fuel_mono fuel fuel' tasks w r w' :
  seek_plan D fuel tasks w = (r, w') -> r ≠ Raise OutOfFuel ->
  (fuel ≤ fuel')%nat -> seek_plan D fuel' tasks w = (r, w').
Proof.
  intros Hrun Hne Hle. induction Hle; [done|].
  by apply seek_plan_fuel_S.
Qed.

End PlannerFacts.

(** * Claims about the operators and the planner *)

Lemma res_bind_unfold {A B} (m : res A) (f : A -> res B) :
  (m ≫= f) = match m with Ret a => f a | Raise e => Raise e end.
Proof. reflexivity. Qed.

Ltac run_in H :=
  repeat (rewrite ?run_bind, ?run_andM, ?run_ret, ?run_with_rigid,
            ?run_with_state, ?run_with_world, ?run_raiseM, ?run_loc_set,
            ?run_battery_set, ?run_cargo_set, ?res_bind_Ret,
            ?res_bind_Raise, ?res_bind_unfold in H;
          cbv beta iota in H).

(** Case analysis on the innermost scrutinee of a run. *)
Ltac innermost x :=
  lazymatch x with
  | context [match _ with _ => _ end] => fail
  | _ => idtac
  end.

Ltac run_cases H :=
  repeat (run_in H;
          match type of H with
          | context [match ?x with _ => _ end] =>
              innermost x; let E := fresh "E" in
              destruct x eqn:E; try discriminate H
          end);
  run_in H.

Lemma dict_get_Ret {V} (d : gmap string V) k v :
  dict_get d k = Ret v -> d !! k = Some v.
Proof. unfold dict_get. destruct (d !! k); by intros [= ->]. Qed.

Lemma move_success_battery w R s e w1 :
  Final.move R s e w = (Ret true, w1) ->
  ∃ b, battery (state w) !! R = Some b ∧ b > Final.COST_PER_MOVE.
Proof.
  intros H. unfold Final.move in H. run_cases H.
  match goal with
  | H : dict_get (battery (state w)) _ = Ret ?b |- _ =>
      apply dict_get_Ret in H; exists b; split; [done|]
  end.
  by case_bool_decide.
Qed.

(** The execution-time [move_exec], by contrast, does change the rigid
    relations: it deletes the edge between room2 and room4. *)
Lemma move_exec_changes_rigid :
  let w := mkWorld Final.rigid_relations0
             (mkState (<["R1" := "room2"]> ∅) ∅ (<["R1" := 100]> ∅)) in
  (Final.move_exec "R1" "room2" "room4" w).1 = Ret false ∧
  ("room2", "room4") ∈ adjacent (rigid_relations w) ∧
  ("room2", "room4") ∉
    adjacent (rigid_relations (Final.move_exec "R1" "room2" "room4" w).2).
Proof.
  intros w. split; [by vm_compute|].
  split; apply (bool_decide_unpack _); by vm_compute.
Qed.

Lemma pickup_run w R c :
  is_a (rigid_relations w) R "robot" = Ret true ->
  is_a (rigid_relations w) c "object" = Ret true ->
  Final.pickup R c w =
    match cargo (state w) !! R with
    | None => (Raise KeyError, w)
    | Some [] =>
        (Ret true,
         mkWorld (rigid_relations w)
           (mkState (<[c := R]> (loc (state w)))
              (<[R := [c]]> (cargo (state w))) (battery (state w))))
    | Some (_ :: _) => (Ret false, w)
    end.
Proof.
  intros HR Hc. unfold Final.pickup. run_m. rewrite HR. run_m.
  rewrite Hc. run_m.
  destruct (cargo (state w) !! R) as [[|c0 l]|] eqn:Hcg.
  - rewrite (dict_get_Some _ _ _ Hcg). run_m. simpl. run_m.
    rewrite (dict_get_Some _ _ _ Hcg). by run_m.
  - rewrite (dict_get_Some _ _ _ Hcg). by run_m.
  - rewrite (dict_get_None _ _ Hcg). by run_m.
Qed.

Lemma pickup_fails_only w R c w' :
  Final.pickup R c w = (Ret false, w') ->
  is_a (rigid_relations w) R "robot" = Ret false ∨
  is_a (rigid_relations w) c "object" = Ret false ∨
  ∃ l, cargo (state w) !! R = Some l ∧ l ≠ [].
Proof.
  intros H. unfold Final.pickup in H. run_cases H; auto.
  right; right.
  match goal with
  | H : dict_get (cargo _) _ = Ret ?l |- _ =>
      apply dict_get_Ret in H; exists l; split; [done|]; intros ->
  end.
  by simplify_eq.
Qed.

Lemma pickup_nonempty_fails adj st R c l :
  cargo st !! R = Some l -> l ≠ [] ->
  Final.pickup R c (Final.world adj st) = (Ret false, Final.world adj st).
Proof.
  intros Hcg Hne. unfold Final.pickup. run_m. rewrite is_a_robot.
  destruct (bool_decide (R ∈ ["R1"])); run_m; [|done].
  rewrite is_a_object.
  destruct (bool_decide (c ∈ _)); run_m; [|done].
  rewrite state_world, (dict_get_Some _ _ _ Hcg). run_m.
  rewrite bool_decide_eq_false_2; [by run_m|]. by destruct l.
Qed.

Lemma list_remove_length x l l' :
  list_remove x l = Ret l' -> S (length l') = length l.
Proof.
  revert l'. induction l as [|y l IH]; intros l'; simpl; [done|].
  destruct (decide (y = x)); [by intros [= ->]|].
  destruct (list_remove x l) as [l''|]; simpl; [|done].
  intros [= <-]. simpl. f_equal. by apply IH.
Qed.

Lemma cargo_bounded_insert st R l lo bt :
  cargo_bounded st -> (length l ≤ 1)%nat ->
  cargo_bounded (mkState lo (<[R := l]> (cargo st)) bt).
Proof.
  intros Hb Hl R' l'. simpl. rewrite lookup_insert.
  case_decide; [by intros [= <-]|apply Hb].
Qed.

Lemma final_operators_cargo t operator w w' :
  Final.operators t = Some operator -> cargo_bounded (state w) ->
  operator w = (Ret true, w') -> cargo_bounded (state w').
Proof.
  intros Hop Hb H. destruct t; simpl in Hop; simplify_eq.
  - unfold Final.move in H. run_cases H. by simplify_eq.
  - unfold Final.pickup in H. run_cases H. simplify_eq. simpl in *.
    apply cargo_bounded_insert; [done|].
    match goal with
    | H : bool_decide (length ?l = 0%nat) = true |- _ =>
        apply bool_decide_eq_true in H; destruct l
    end; simpl in *; lia.
  - unfold Final.drop in H. run_cases H. simplify_eq. simpl in *.
    apply cargo_bounded_insert; [done|].
    match goal with
    | H : list_remove _ _ = Ret _ |- _ => apply list_remove_length in H
    end.
    match goal with
    | H : dict_get (cargo _) _ = Ret _ |- _ =>
        apply dict_get_Ret, Hb in H
    end. lia.
  - unfold Final.recharge in H. run_cases H. by simplify_eq.
Qed.

(** ** C4: the operators leave the rigid relations alone *)

(** C4.  Each of the four planning operators (move, pickup, drop,
    recharge), run in any world with any arguments, leaves
    [rigid_relations] (its [types] and its [adjacent]) as it was, whatever
    the outcome: success, failure or an exception. *)
Theorem operators_keep_rigid_relations (w : World) (R start_loc end_loc c : string) :
  rigid_relations (Final.move R start_loc end_loc w).2 = rigid_relations w ∧
  rigid_relations (Final.pickup R c w).2 = rigid_relations w ∧
  rigid_relations (Final.drop R c w).2 = rigid_relations w ∧
  rigid_relations (Final.recharge R w).2 = rigid_relations w.
Proof.
  repeat split.
  - apply move_preserves_rigid.
  - apply pickup_preserves_rigid.
  - apply drop_preserves_rigid.
  - apply recharge_preserves_rigid.
Qed.

(** ** C5: cargo capacity one is invariant *)

(** C5.  If every cargo list of the state has at most one item then so
    has every cargo list of the state left by an operator that succeeds;
    and [pickup] fails whenever [cargo[R]] is not empty. *)
Theorem cargo_capacity_invariant :
  (∀ t operator w w',
     Final.operators t = Some operator -> cargo_bounded (state w) ->
     operator w = (Ret true, w') -> cargo_bounded (state w')) ∧
  (∀ adj st R c l,
     cargo st !! R = Some l -> l ≠ [] ->
     Final.pickup R c (Final.world adj st) = (Ret false, Final.world adj st)).
Proof.
  split.
  - apply final_operators_cargo.
  - apply pickup_nonempty_fails.
Qed.

(** ** C8: pickup does not look at locations *)

(** C8.  [pickup] succeeds in every state in which [R] is a robot, [c] an
    object and [cargo[R]] is empty, setting [loc[c] = R] and
    [cargo[R] = [c]], wherever [c] and [R] are (in the initial state of
    the file the robot is in room1 and c1 in room4); it returns [False]
    only on a type-check failure or a non-empty cargo. *)
Theorem pickup_ignores_location :
  (∀ w R c,
     is_a (rigid_relations w) R "robot" = Ret true ->
     is_a (rigid_relations w) c "object" = Ret true ->
     cargo (state w) !! R = Some [] ->
     Final.pickup R c w =
       (Ret true,
        mkWorld (rigid_relations w)
          (mkState (<[c := R]> (loc (state w)))
             (<[R := [c]]> (cargo (state w))) (battery (state w))))) ∧
  (∀ w R c w',
     Final.pickup R c w = (Ret false, w') ->
     is_a (rigid_relations w) R "robot" = Ret false ∨
     is_a (rigid_relations w) c "object" = Ret false ∨
     ∃ l, cargo (state w) !! R = Some l ∧ l ≠ []) ∧
  (loc Final.state0 !! "R1" = Some "room1" ∧
   loc Final.state0 !! "c1" = Some "room4" ∧
   (Final.pickup "R1" "c1" (mkWorld Final.rigid_relations0 Final.state0)).1
   = Ret true).
Proof.
  split; [|split].
  - intros w R c HR Hc Hcg. by rewrite pickup_run, Hcg.
  - apply pickup_fails_only.
  - by vm_compute.
Qed.

(** ** C2: no move on a low battery *)

Lemma final_plan_executes fuel goal_tasks w p w' :
  plan Final.domain fuel goal_tasks w = (Ret (Some p), w') ->
  executes Final.domain w p.
Proof.
  apply seek_plan_executes.
  - apply final_operators_preserve_rigid.
  - apply final_methods_readonly.
Qed.

(** C2, as amended.  If [state.battery[R] <= COST_PER_MOVE] then [move]
    never succeeds and leaves the state unchanged; it returns [False]
    whenever [state.loc] has an entry for [R].  Consequently every move
    step of a plan returned by [plan] is executed with a battery above
    the per-move cost. *)
Theorem move_needs_battery :
  (∀ adj st R start_loc end_loc b,
     battery st !! R = Some b -> b ≤ Final.COST_PER_MOVE ->
     (Final.move R start_loc end_loc (Final.world adj st)).2
       = Final.world adj st ∧
     ((Final.move R start_loc end_loc (Final.world adj st)).1 = Ret false ∨
      (Final.move R start_loc end_loc (Final.world adj st)).1
        = Raise KeyError ∧ loc st !! R = None)) ∧
  (∀ fuel goal_tasks w p w' i R start_loc end_loc,
     plan Final.domain fuel goal_tasks w = (Ret (Some p), w') ->
     p !! i = Some (Final.t_move R start_loc end_loc) ->
     ∃ wi b, world_at Final.domain p w i = Some wi ∧
       battery (state wi) !! R = Some b ∧ b > Final.COST_PER_MOVE).
Proof.
  split.
  - intros. by eapply move_low_battery_aux.
  - intros fuel goal_tasks w p w' i R s e Hplan Hi.
    destruct (final_plan_executes _ _ _ _ _ Hplan _ _ Hi)
      as (wi & operator & w1 & Hwi & Hop & Hrun).
    simpl in Hop. simplify_eq.
    apply move_success_battery in Hrun as (b & Hb & Hgt). by exists wi, b.
Qed.

(** ** C3: planning is deterministic *)

(** C3 as stated fails: the planner reads the global rigid relations
    besides the state and the goal tasks.  Once [move_exec] has deleted
    the edge between room2 and room4 (it returns [False] and leaves the
    state object as it was), the same state and the same goal tasks give
    another plan. *)
Lemma plan_reads_rigid_relations :
  let goal := [Final.t_transport "R1" "c1" "room2"] in
  let w := mkWorld Final.rigid_relations0
             (mkState (<["R1" := "room2"]> (<["c1" := "room4"]> ∅))
                (<["R1" := []]> ∅) (<["R1" := 100]> ∅)) in
  let w' := (Final.move_exec "R1" "room2" "room4" w).2 in
  state w' = state w ∧
  (plan Final.domain 30 goal w).1
  = Ret (Some [Final.t_move "R1" "room2" "room4"; Final.t_pickup "R1" "c1";
               Final.t_move "R1" "room4" "room2"; Final.t_drop "R1" "c1"]) ∧
  (plan Final.domain 30 goal w').1
  = Ret (Some [Final.t_move "R1" "room2" "room3";
               Final.t_move "R1" "room3" "room4"; Final.t_pickup "R1" "c1";
               Final.t_move "R1" "room4" "room3"; Final.t_recharge "R1";
               Final.t_move "R1" "room3" "room2"; Final.t_drop "R1" "c1"]) ∧
  (plan Final.domain 30 goal w).1 ≠ (plan Final.domain 30 goal w').1.
Proof.
  vm_compute. split; [reflexivity|]. split; [reflexivity|].
  split; [reflexivity|]. discriminate.
Qed.

(** C3, as amended.  The answer of [plan] is a function of the rigid
    relations, the state and the goal tasks:
    - planning leaves the rigid relations and the state as it found them;
    - two calls in worlds with the same rigid relations and the same
      state, on the same goal tasks, return the same answer;
    - hence a second call made after the first returns what the first
      returned;
    - the answer does not depend on the depth bound of the search either:
      two searches that both come to an end return the same answer. *)
Theorem plan_deterministic :
  (∀ fuel goal_tasks w, (plan Final.domain fuel goal_tasks w).2 = w) ∧
  (∀ fuel goal_tasks w1 w2,
     rigid_relations w1 = rigid_relations w2 -> state w1 = state w2 ->
     (plan Final.domain fuel goal_tasks w1).1
     = (plan Final.domain fuel goal_tasks w2).1) ∧
  (∀ fuel goal_tasks w,
     plan Final.domain fuel goal_tasks (plan Final.domain fuel goal_tasks w).2
     = plan Final.domain fuel goal_tasks w) ∧
  (∀ fuel1 fuel2 goal_tasks w,
     (plan Final.domain fuel1 goal_tasks w).1 ≠ Raise OutOfFuel ->
     (plan Final.domain fuel2 goal_tasks w).1 ≠ Raise OutOfFuel ->
     plan Final.domain fuel1 goal_tasks w = plan Final.domain fuel2 goal_tasks w).
Proof.
  assert (∀ fuel goal_tasks w, (plan Final.domain fuel goal_tasks w).2 = w)
    as Hframe.
  { intros fuel goal_tasks w. apply seek_plan_readonly.
    - apply final_operators_preserve_rigid.
    - apply final_methods_readonly. }
  split; [done|]. split; [|split].
  - intros fuel goal_tasks [rr1 st1] [rr2 st2]. simpl. by intros -> ->.
  - intros fuel goal_tasks w. by rewrite Hframe.
  - intros fuel1 fuel2 goal_tasks w H1 H2. unfold plan in *.
    destruct (seek_plan Final.domain fuel1 goal_tasks w) as [r1 w1] eqn:E1.
    destruct (seek_plan Final.domain fuel2 goal_tasks w) as [r2 w2] eqn:E2.
    simpl in H1, H2. destruct (decide (fuel1 ≤ fuel2)%nat) as [Hle|Hle].
    + rewrite (seek_plan_fuel_mono _ _ _ _ _ _ _ E1 H1 Hle) in E2.
      by symmetry.
    + assert (fuel2 ≤ fuel1)%nat as Hle' by lia.
      by rewrite (seek_plan_fuel_mono _ _ _ _ _ _ _ E2 H2 Hle') in E1.
Qed.

Lemma plan_deterministic_witness :
  plan Final.domain 30 [Final.t_transport "R1" "c1" "room2"] final_world0
  = plan Final.domain 40 [Final.t_transport "R1" "c1" "room2"] final_world0.
Proof.
  apply (proj2 (proj2 (proj2 plan_deterministic)) 30%nat 40%nat);
    vm_compute; discriminate.
Defined.

(** ** C7: satisfied goals need no action *)

(** C7, as amended.  With enough fuel for the two levels of the search,
    planning the transport of a container that is at its destination
    gives the empty plan, and so does planning [transport_all] with an
    empty map in a state whose [cargo] has an entry for [R]. *)
Theorem satisfied_goal_empty_plan :
  (∀ n w R c dest,
     loc (state w) !! c = Some dest ->
     plan Final.domain (S (S n)) [Final.t_transport R c dest] w
     = (Ret (Some []), w)) ∧
  (∀ n w R cg,
     cargo (state w) !! R = Some cg ->
     plan Final.domain (S (S n)) [Final.t_transport_all R []] w
     = (Ret (Some []), w)).
Proof.
  split.
  - intros n w R c dest Hc. unfold plan.
    rewrite seek_plan_compound by done. simpl methods.
    rewrite try_methods_cons. unfold Final.transport1. run_m.
    rewrite (dict_get_Some _ _ _ Hc). run_m.
    rewrite bool_decide_eq_false_2 by naive_solver. run_m.
    rewrite try_methods_cons. unfold Final.transport2. run_m.
    rewrite (dict_get_Some _ _ _ Hc). run_m.
    rewrite (bool_decide_eq_false_2 (dest ≠ dest)) by naive_solver.
    cbn [andb]. run_m. rewrite try_methods_cons. unfold Final.transport3.
    run_m. rewrite (dict_get_Some _ _ _ Hc). run_m.
    rewrite bool_decide_eq_true_2 by done. by run_m.
  - intros n w R cg Hcg. unfold plan.
    rewrite seek_plan_compound by done. simpl methods.
    rewrite try_methods_cons. unfold Final.transport_all1. run_m.
    rewrite (dict_get_Some _ _ _ Hcg). run_m.
    assert ((match cg with
             | [] => mret None
             | c0 :: _ =>
                 if adict_in c0 []
                 then new_map ← with_state (λ _, adict_pop [] c0);
                      dest ← with_state (λ _, adict_get [] c0);
                      mret (Some [Final.t_transport R c0 dest;
                                  Final.t_transport_all R new_map])
                 else mret None
             end : Final.method) w = (Ret None, w)) as ->.
    { by destruct cg. }
    run_m. rewrite try_methods_cons. unfold Final.transport_all2. run_m.
    rewrite (dict_get_Some _ _ _ Hcg). run_m.
    rewrite (bool_decide_eq_false_2 (0 < length [])%nat) by (simpl; lia).
    rewrite andb_false_r. run_m. by rewrite try_methods_cons.
Qed.

(** ** Concrete runs: witnesses and counterexamples *)

Lemma cargo_bounded_loaded : cargo_bounded state_loaded.
Proof.
  intros R l. unfold state_loaded. simpl. rewrite lookup_insert.
  case_decide; [by intros [= <-]|]. by rewrite lookup_empty.
Qed.

Lemma cargo_capacity_invariant_witness :
  cargo_bounded
    (state (Final.drop "R1" "c1"
              (mkWorld Final.rigid_relations0 state_loaded)).2) ∧
  Final.pickup "R1" "c2"
    (Final.world (adjacent Final.rigid_relations0) state_loaded)
  = (Ret false, Final.world (adjacent Final.rigid_relations0) state_loaded).
Proof.
  split.
  - apply (proj1 cargo_capacity_invariant (Final.t_drop "R1" "c1")
             (Final.drop "R1" "c1")
             (mkWorld Final.rigid_relations0 state_loaded)).
    + reflexivity.
    + apply cargo_bounded_loaded.
    + vm_compute. reflexivity.
  - apply (proj2 cargo_capacity_invariant
             (adjacent Final.rigid_relations0) state_loaded "R1" "c2" ["c1"]).
    + reflexivity.
    + discriminate.
Defined.

Lemma pickup_ignores_location_witness :
  Final.pickup "R1" "c1" final_world0 =
    (Ret true,
     mkWorld Final.rigid_relations0
       (mkState (<["c1" := "R1"]> (loc Final.state0))
          (<["R1" := ["c1"]]> (cargo Final.state0)) (battery Final.state0))).
Proof.
  apply (proj1 pickup_ignores_location final_world0 "R1" "c1");
    reflexivity.
Defined.

Lemma move_needs_battery_witness :
  (Final.move "R1" "room1" "room2"
     (Final.world (adjacent Final.rigid_relations0) state_low_battery)).2
  = Final.world (adjacent Final.rigid_relations0) state_low_battery ∧
  ∃ wi b,
    world_at Final.domain
      [Final.t_move "R1" "room1" "room2"; Final.t_move "R1" "room2" "room4";
       Final.t_pickup "R1" "c1"; Final.t_move "R1" "room4" "room2";
       Final.t_drop "R1" "c1"] final_world0 3 = Some wi ∧
    battery (state wi) !! "R1" = Some b ∧ b > Final.COST_PER_MOVE.
Proof.
  split.
  - apply (proj1 move_needs_battery (adjacent Final.rigid_relations0)
             state_low_battery "R1" "room1" "room2" 10).
    + reflexivity.
    + vm_compute. discriminate.
  - apply (proj2 move_needs_battery 30%nat
             [Final.t_transport "R1" "c1" "room2"] final_world0 _
             final_world0 3%nat "R1" "room4" "room2").
    + vm_compute. reflexivity.
    + reflexivity.
Defined.

(** C2 as stated fails in a state whose [loc] has no entry for the robot:
    the guard of [move] looks up [state.loc[R]] before the battery, and
    the lookup raises instead of the operator returning [False]. *)
Lemma move_without_location :
  battery state_without_loc !! "R1" = Some 10 ∧
  10 ≤ Final.COST_PER_MOVE ∧
  Final.move "R1" "room1" "room2"
    (Final.world (adjacent Final.rigid_relations0) state_without_loc)
  = (Raise KeyError,
     Final.world (adjacent Final.rigid_relations0) state_without_loc).
Proof.
  split; [reflexivity|]. split; [vm_compute; discriminate|].
  vm_compute. reflexivity.
Qed.

Lemma satisfied_goal_empty_plan_witness :
  plan Final.domain 2 [Final.t_transport "R1" "c1" "room4"] final_world0
  = (Ret (Some []), final_world0) ∧
  plan Final.domain 2 [Final.t_transport_all "R1" []] final_world0
  = (Ret (Some []), final_world0).
Proof.
  split.
  - apply (proj1 satisfied_goal_empty_plan 0%nat final_world0 "R1" "c1"
             "room4").
    reflexivity.
  - apply (proj2 satisfied_goal_empty_plan 0%nat final_world0 "R1" []).
    reflexivity.
Defined.

(** C7 as stated fails for a robot name without a cargo list: the first
    method of [transport_all] looks up [state.cargo[R]], which raises. *)
Lemma transport_all_unknown_robot :
  plan Final.domain 2 [Final.t_transport_all "R2" []] final_world0
  = (Raise KeyError, final_world0).
Proof. vm_compute. reflexivity. Qed.

(** The run at the end of final_warehouse_robot.py:
    [pyhop.pyhop(state0, [('transport_all', 'R1', {'c2': 'room7',
    'c3': 'room5', 'c1': 'room2'})])]. *)
Example final_scenario_plan :
  (plan Final.domain 200
     [Final.t_transport_all "R1"
        [("c2", "room7"); ("c3", "room5"); ("c1", "room2")]] final_world0).1
  = Ret (Some
      [Final.t_move "R1" "room1" "room2"; Final.t_move "R1" "room2" "room4";
       Final.t_pickup "R1" "c1"; Final.t_move "R1" "room4" "room2";
       Final.t_drop "R1" "c1"; Final.t_move "R1" "room2" "room3";
       Final.t_recharge "R1"; Final.t_move "R1" "room3" "room2";
       Final.t_move "R1" "room2" "room5"; Final.t_move "R1" "room5" "room6";
       Final.t_pickup "R1" "c2"; Final.t_move "R1" "room6" "room9";
       Final.t_recharge "R1"; Final.t_move "R1" "room9" "room8";
       Final.t_move "R1" "room8" "room7"; Final.t_drop "R1" "c2";
       Final.t_move "R1" "room7" "room8"; Final.t_pickup "R1" "c3";
       Final.t_move "R1" "room8" "room9"; Final.t_recharge "R1";
       Final.t_move "R1" "room9" "room6"; Final.t_move "R1" "room6" "room5";
       Final.t_drop "R1" "c3"]).
Proof. vm_compute. reflexivity. Qed.

(** ** C1: the scenario of simple_warehouse_robot.py *)

(** C1 as stated fails: the plan does not start with move(room1, room2);
    the package is in room3, next to room1, and room2 is not adjacent to
    room3. *)
Lemma simple_plan_first_move :
  Simple.main 15 = Ret (Some simple_plan) ∧
  head simple_plan = Some (Simple.t_move "R1" "room1" "room3") ∧
  is_adjacent Simple.rigid_relations0 "room2" "room3" = false.
Proof. vm_compute. repeat split; reflexivity. Qed.

(** C1, as amended.  In the scenario of simple_warehouse_robot.py (robot
    R1 in room1 with battery 50, per-move cost 25, package c1 in room3,
    goal: c1 to room4) [plan], given enough fuel, returns exactly:
    move(room1, room3), pickup, recharge, move(room3, room1),
    move(room1, room2), move(room2, room4), drop.  The steps are executed
    with battery 50, 25, 25, 100, 75, 50, 25: the recharge stands before
    the one move that finds the battery at 25 or less. *)
Theorem simple_scenario_plan (fuel : nat) :
  (15 ≤ fuel)%nat ->
  Simple.main fuel = Ret (Some simple_plan) ∧
  battery_trace Simple.domain simple_plan
    (mkWorld Simple.rigid_relations0 Simple.state0) "R1"
  = [Some 50; Some 25; Some 25; Some 100; Some 75; Some 50; Some 25].
Proof.
  intros Hfuel. split; [|vm_compute; reflexivity].
  unfold Simple.main, plan.
  assert (seek_plan Simple.domain 15 [Simple.t_transport "R1" "c1" "room4"]
            (mkWorld Simple.rigid_relations0 Simple.state0)
          = (Ret (Some simple_plan),
             mkWorld Simple.rigid_relations0 Simple.state0)) as Hrun
    by (vm_compute; reflexivity).
  assert (Ret (Some simple_plan) ≠ Raise OutOfFuel) as Hne by discriminate.
  by rewrite (seek_plan_fuel_mono _ _ _ _ _ _ _ Hrun Hne Hfuel).
Qed.

Lemma simple_scenario_plan_witness :
  Simple.main 20 = Ret (Some simple_plan) ∧
  battery_trace Simple.domain simple_plan
    (mkWorld Simple.rigid_relations0 Simple.state0) "R1"
  = [Some 50; Some 25; Some 25; Some 100; Some 75; Some 50; Some 25].
Proof. apply (simple_scenario_plan 20). lia. Defined.

(** * The adjacency graph *)

Lemma elem_of_add_neighbor y w l : w ∈ add_neighbor y l ↔ w ∈ l ∨ w = y.
Proof.
  unfold add_neighbor. case_bool_decide; [naive_solver|].
  rewrite elem_of_app, list_elem_of_singleton. naive_solver.
Qed.

Lemma lookup_ensure_key k G z :
  ensure_key k G !! z = if decide (k = z) then Some (nbrs_of G k) else G !! z.
Proof.
  unfold ensure_key, nbrs_of. destruct (G !! k) as [l|] eqn:Hk; simpl.
  - destruct (decide (k = z)) as [<-|]; [done|done].
  - rewrite lookup_insert. by destruct (decide (k = z)).
Qed.

Lemma lookup_add_edge G x y z :
  add_edge G (x, y) !! z =
    if decide (z = x ∨ z = y)
    then Some ((if decide (z = y) then add_neighbor x else id)
                 ((if decide (z = x) then add_neighbor y else id)
                    (nbrs_of G z)))
    else G !! z.
Proof.
  unfold add_edge. simpl. rewrite !lookup_alter, !lookup_ensure_key.
  unfold nbrs_of. rewrite !lookup_ensure_key. unfold nbrs_of.
  destruct (decide (x = z)) as [->|Hx], (decide (y = z)) as [->|Hy];
    repeat (destruct (decide _) as [?|?]; simplify_eq/=; try naive_solver).
Qed.

Lemma fold_add_edge_spec (adj : list (string * string)) :
  let G := fold_left add_edge adj ∅ in
  (∀ z, is_Some (G !! z) ↔ ∃ w, (z, w) ∈ adj ∨ (w, z) ∈ adj) ∧
  (∀ z w, w ∈ nbrs_of G z ↔ (z, w) ∈ adj ∨ (w, z) ∈ adj).
Proof.
  induction adj as [|[x y] adj IH] using rev_ind; simpl.
  { split.
    - intros z. rewrite lookup_empty. split; [by intros []|].
      intros [w [H|H]]; by apply elem_of_nil in H.
    - intros z w. unfold nbrs_of. rewrite lookup_empty. simpl.
      split; [by intros ?%elem_of_nil|].
      intros [H|H]; by apply elem_of_nil in H. }
  rewrite fold_left_app. simpl. destruct IH as [IHk IHn]. split.
  - intros z. rewrite lookup_add_edge.
    destruct (decide (z = x ∨ z = y)) as [Hz|Hz].
    + split; [intros _|by eauto]. destruct Hz as [->| ->].
      * exists y. left. rewrite elem_of_app, list_elem_of_singleton. by right.
      * exists x. right. rewrite elem_of_app, list_elem_of_singleton.
        by right.
    + rewrite IHk. split; intros [w Hw]; exists w;
        rewrite !elem_of_app, !list_elem_of_singleton in *; naive_solver.
  - intros z w. unfold nbrs_of at 1. rewrite lookup_add_edge.
    rewrite !elem_of_app, !list_elem_of_singleton.
    destruct (decide (z = x ∨ z = y)) as [Hz|Hz]; simpl.
    + destruct (decide (z = y)) as [Hy|Hy], (decide (z = x)) as [Hx|Hx];
        simpl; rewrite ?elem_of_add_neighbor, ?IHn; naive_solver.
    + fold (nbrs_of (fold_left add_edge adj ∅) z). rewrite IHn.
      naive_solver.
Qed.

Section Graph.
Context (rr : Rigid).

Lemma build_graph_keys z : is_Some (build_graph rr !! z) ↔ vertex rr z.
Proof. apply (fold_add_edge_spec (adjacent rr)). Qed.

Lemma build_graph_nbrs z w : w ∈ nbrs_of (build_graph rr) z ↔ edge rr z w.
Proof. apply (fold_add_edge_spec (adjacent rr)). Qed.

Lemma build_graph_lookup z nbrs :
  build_graph rr !! z = Some nbrs -> ∀ w, w ∈ nbrs ↔ edge rr z w.
Proof.
  intros Hz w. rewrite <-build_graph_nbrs. unfold nbrs_of. by rewrite Hz.
Qed.

Lemma edge_sym x y : edge rr x y -> edge rr y x.
Proof. unfold edge. tauto. Qed.

Lemma edge_vertex_r x y : edge rr x y -> vertex rr y.
Proof. intros H. exists x. by apply edge_sym. Qed.

Lemma is_adjacent_edge x y : is_adjacent rr x y = true ↔ edge rr x y.
Proof.
  unfold is_adjacent, edge.
  rewrite orb_true_iff, !bool_decide_eq_true. done.
Qed.

Lemma walk_from_isolated a b n : ¬ vertex rr a -> walk rr a b n -> b = a.
Proof.
  intros Ha Hw. induction Hw as [|b c n Hw IH He]; [done|].
  subst b. destruct Ha. by exists c.
Qed.

Lemma walk_end_vertex a b n : walk rr a b (S n) -> vertex rr b.
Proof. inversion 1; subst. by eapply edge_vertex_r. Qed.

End Graph.

(** * Breadth-first search *)

Lemma fresh_nbrs_spec nbrs : ∀ vis,
  NoDup (fresh_nbrs vis nbrs) ∧
  ∀ x, x ∈ fresh_nbrs vis nbrs ↔ x ∈ nbrs ∧ x ∉ vis.
Proof.
  induction nbrs as [|nb nbrs IH]; intros vis; simpl.
  { split; [constructor|]. intros x. split; [by intros ?%elem_of_nil|].
    by intros [?%elem_of_nil _]. }
  case_bool_decide as Hnb.
  - destruct (IH vis) as [Hnd Hin]. split; [done|].
    intros x. rewrite Hin, elem_of_cons. naive_solver.
  - destruct (IH ({[nb]} ∪ vis)) as [Hnd Hin]. split.
    + constructor; [|done]. rewrite Hin. set_solver.
    + intros x. rewrite !elem_of_cons, Hin.
      destruct (decide (x = nb)) as [->|]; set_solver.
Qed.

Lemma fresh_nbrs_NoDup vis nbrs : NoDup (fresh_nbrs vis nbrs).
Proof. apply fresh_nbrs_spec. Qed.

Lemma elem_of_fresh_nbrs vis nbrs x :
  x ∈ fresh_nbrs vis nbrs ↔ x ∈ nbrs ∧ x ∉ vis.
Proof. apply fresh_nbrs_spec. Qed.

Lemma size_union_fresh (vis : gset string) nbrs :
  size (vis ∪ list_to_set (fresh_nbrs vis nbrs))
  = (size vis + length (fresh_nbrs vis nbrs))%nat.
Proof.
  rewrite size_union.
  - by rewrite size_list_to_set by apply fresh_nbrs_NoDup.
  - intros x Hx. rewrite elem_of_list_to_set, elem_of_fresh_nbrs.
    naive_solver.
Qed.

Lemma sorted_by_const (f : string -> nat) (k : nat) (l : list string) :
  (∀ x, x ∈ l -> f x = k) ->
  StronglySorted (fun a b => f a ≤ f b)%nat l.
Proof.
  induction l as [|a l IH]; intros Hk; constructor.
  - apply IH. intros; apply Hk; by right.
  - rewrite Forall_forall. intros x Hx.
    rewrite !Hk; [done| |]; [by right|by left].
Qed.

Lemma sorted_by_ext (f g : string -> nat) (l : list string) :
  (∀ x, x ∈ l -> g x = f x) ->
  StronglySorted (fun a b => f a ≤ f b)%nat l ->
  StronglySorted (fun a b => g a ≤ g b)%nat l.
Proof.
  intros Hfg Hs. induction Hs as [|a l Hl IH Ha]; constructor.
  - apply IH. intros; apply Hfg; by right.
  - rewrite Forall_forall in *. intros x Hx.
    rewrite !Hfg; [by apply Ha| |]; [by right|by left].
Qed.

Section Search.
Context (rr : Rigid) (start : string).

Lemma bfs_inv_init : vertex rr start -> bfs_inv rr start (fun _ => 0%nat) {[start]} [start].
Proof.
  intros Hv. split.
  - split; [set_solver|done].
  - intros x. rewrite list_elem_of_singleton. set_solver.
  - intros v ->%elem_of_singleton. done.
  - intros v ->%elem_of_singleton. constructor.
  - repeat constructor.
  - intros; lia.
  - intros v x ->%elem_of_singleton Hq. destruct Hq. by left.
  - intros v _. rewrite size_singleton. lia.
Qed.

(** One round of the search keeps the invariant. *)
Lemma bfs_inv_step lv vis u q nbrs :
  bfs_inv rr start lv vis (u :: q) ->
  (∀ x, x ∈ nbrs ↔ edge rr u x) ->
  let new := fresh_nbrs vis nbrs in
  bfs_inv rr start (relevel lv new (S (lv u)))
    (vis ∪ list_to_set new) (q ++ new).
Proof.
  intros [[Hs Hs0] Hq Hvx Hsound Hsorted Hbound Hproc Hsize] Hnbrs new.
  assert (∀ x, x ∈ new ↔ edge rr u x ∧ x ∉ vis) as Hnew.
  { intros x. unfold new. by rewrite elem_of_fresh_nbrs, Hnbrs. }
  assert (∀ x, x ∈ vis -> relevel lv new (S (lv u)) x = lv x) as Hold.
  { intros x Hx. unfold relevel. rewrite bool_decide_eq_false_2; [done|].
    rewrite Hnew. naive_solver. }
  assert (∀ x, x ∈ new -> relevel lv new (S (lv u)) x = S (lv u)) as Hlvnew.
  { intros x Hx. unfold relevel. by rewrite bool_decide_eq_true_2. }
  assert (u ∈ vis) as Hu by (apply Hq; left).
  assert (∀ v, v ∈ vis -> (lv v ≤ S (lv u))%nat) as Hbu
    by (intros; by eapply Hbound).
  apply StronglySorted_inv in Hsorted as [Hsq Hhead].
  rewrite Forall_forall in Hhead.
  split.
  - split; [set_solver|]. by rewrite Hold.
  - intros x. rewrite elem_of_app, elem_of_union, elem_of_list_to_set.
    intros [Hx|Hx]; [left; apply Hq; by right|by right].
  - intros v. rewrite elem_of_union, elem_of_list_to_set.
    intros [Hv|Hv]; [by apply Hvx|].
    apply Hnew in Hv as [He _]. by eapply edge_vertex_r.
  - intros v. rewrite elem_of_union, elem_of_list_to_set.
    intros [Hv|Hv].
    + rewrite Hold by done. by apply Hsound.
    + rewrite Hlvnew by done. apply Hnew in Hv as [He _].
      econstructor; [by apply Hsound|done].
  - apply StronglySorted_app_2.
    + intros x1 x2 H1 H2. rewrite (Hlvnew x2) by done.
      rewrite Hold by (apply Hq; by right). apply Hbu, Hq. by right.
    + apply (sorted_by_ext lv); [|done].
      intros x Hx. apply Hold, Hq. by right.
    + by apply (sorted_by_const _ (S (lv u))).
  - intros h v Hh. rewrite elem_of_union, elem_of_list_to_set.
    assert ((lv u ≤ relevel lv new (S (lv u)) h)%nat) as Hlh.
    { destruct q as [|h' q']; simpl in Hh.
      - apply head_Some_elem_of in Hh. rewrite Hlvnew by done. lia.
      - simplify_eq. rewrite Hold by (apply Hq; right; by left).
        apply Hhead. by left. }
    intros [Hv|Hv].
    + rewrite Hold by done. specialize (Hbu v Hv). lia.
    + rewrite Hlvnew by done. lia.
  - intros v x. rewrite !elem_of_union, !elem_of_list_to_set, elem_of_app.
    intros Hv Hvq He.
    assert (v ∈ vis ∧ (v ∉ q) ∧ (v ∉ new)) as (Hv1 & Hv2 & Hv3)
      by naive_solver.
    rewrite (Hold v) by done.
    destruct (decide (v = u)) as [->|Hvu].
    + destruct (decide (x ∈ vis)) as [Hx|Hx].
      * split; [by left|]. rewrite Hold by done. by apply Hbu.
      * assert (x ∈ new) by (apply Hnew; done).
        split; [by right|]. by rewrite Hlvnew.
    + destruct (Hproc v x) as [Hx Hle]; [done| |done|].
      { rewrite elem_of_cons. naive_solver. }
      split; [by left|]. by rewrite Hold.
  - intros v. unfold new. rewrite size_union_fresh.
    rewrite elem_of_union, elem_of_list_to_set. intros [Hv|Hv].
    + rewrite Hold by done. specialize (Hsize v Hv). lia.
    + rewrite Hlvnew by done. specialize (Hsize u Hu).
      unfold new in Hv.
      destruct (fresh_nbrs vis nbrs); [by apply elem_of_nil in Hv|simpl; lia].
Qed.

(** What the invariant says about shortest paths. *)
Lemma bfs_inv_frontier lv vis queue w n :
  bfs_inv rr start lv vis queue -> walk rr start w n ->
  (w ∈ vis ∧ (lv w ≤ n)%nat) ∨ (∃ u, u ∈ queue ∧ (lv u < n)%nat).
Proof.
  intros [[Hs Hs0] Hq Hvx Hsound Hsorted Hbound Hproc Hsize] Hw.
  induction Hw as [|b c n Hw IH He].
  { left. split; [done|lia]. }
  destruct IH as [[Hb Hle]|[u [Hu Hlt]]].
  - destruct (decide (b ∈ queue)) as [Hbq|Hbq].
    + right. exists b. split; [done|lia].
    + left. destruct (Hproc b c Hb Hbq He) as [Hc Hlc]. split; [done|lia].
  - right. exists u. split; [done|lia].
Qed.

Lemma bfs_inv_minimal lv vis queue v n :
  bfs_inv rr start lv vis queue -> v ∈ vis -> walk rr start v n ->
  (lv v ≤ n)%nat.
Proof.
  intros Hinv Hv Hw.
  destruct (bfs_inv_frontier _ _ _ _ _ Hinv Hw) as [[_ Hle]|[u [Hu Hlt]]];
    [done|].
  destruct Hinv as [_ _ _ _ Hsorted Hbound _ _].
  destruct queue as [|h q]; [by apply elem_of_nil in Hu|].
  specialize (Hbound h v eq_refl Hv).
  apply StronglySorted_inv in Hsorted as [_ Hhead].
  rewrite Forall_forall in Hhead.
  apply elem_of_cons in Hu as [->|Hu]; [lia|].
  specialize (Hhead u Hu). lia.
Qed.

Lemma bfs_inv_shortest lv vis queue v :
  bfs_inv rr start lv vis queue -> v ∈ vis -> shortest rr start v (lv v).
Proof.
  intros Hinv Hv. split; [by apply (inv_sound _ _ _ _ _ Hinv)|].
  intros m Hm. by eapply bfs_inv_minimal.
Qed.

Lemma bfs_inv_complete lv vis v n :
  bfs_inv rr start lv vis [] -> walk rr start v n -> v ∈ vis.
Proof.
  intros Hinv Hw.
  destruct (bfs_inv_frontier _ _ _ _ _ Hinv Hw) as [[Hv _]|[u [Hu _]]];
    [done|by apply elem_of_nil in Hu].
Qed.

End Search.

(** * The loops of [get_shortest_path] *)

Lemma visit_neighbors_spec node nbrs : ∀ visited queue,
  (visit_neighbors node nbrs visited queue).2
    = (queue ++ fresh_nbrs (dom visited) nbrs)%list ∧
  dom (visit_neighbors node nbrs visited queue).1
    = dom visited ∪ list_to_set (fresh_nbrs (dom visited) nbrs) ∧
  ∀ x, (visit_neighbors node nbrs visited queue).1 !! x =
         if bool_decide (x ∈ fresh_nbrs (dom visited) nbrs)
         then Some (Some node) else visited !! x.
Proof.
  induction nbrs as [|nb nbrs IH]; intros visited queue; simpl.
  { split; [by rewrite app_nil_r|]. split; [set_solver|done]. }
  destruct (visited !! nb) as [p|] eqn:Hnb.
  - rewrite bool_decide_eq_true_2 by (apply elem_of_dom; eauto).
    apply IH.
  - rewrite bool_decide_eq_false_2 by by apply not_elem_of_dom.
    destruct (IH (<[nb := Some node]> visited) (queue ++ [nb])%list)
      as (Hq & Hd & Hl).
    rewrite dom_insert_L in *. split; [|split].
    + rewrite Hq. by rewrite <-app_assoc.
    + rewrite Hd. set_solver.
    + intros x. rewrite Hl.
      destruct (decide (x = nb)) as [->|Hx].
      * rewrite lookup_insert_eq, (bool_decide_eq_true_2 (nb ∈ nb :: _));
          [by case_bool_decide|by left].
      * rewrite lookup_insert_ne by done.
        repeat case_bool_decide; try done;
          rewrite elem_of_cons in *; naive_solver.
Qed.

Lemma size_remaining (X : gset string) (new : list string) :
  NoDup new -> (∀ x, x ∈ new -> x ∈ X) ->
  (size (X ∖ list_to_set new) + length new = size X)%nat.
Proof.
  intros Hnd Hsub.
  assert (list_to_set new ⊆ X) as Hsub'.
  { intros x. rewrite elem_of_list_to_set. apply Hsub. }
  rewrite size_difference by done.
  rewrite size_list_to_set by done.
  apply subseteq_size in Hsub'. rewrite size_list_to_set in Hsub' by done.
  lia.
Qed.

Section ShortestPath.
Context (rr : Rigid) (start : string).

Lemma parent_inv_step lv visited u nbrs :
  parent_inv rr lv visited -> is_Some (visited !! u) ->
  (∀ x, x ∈ nbrs -> edge rr u x) ->
  parent_inv rr (relevel lv (fresh_nbrs (dom visited) nbrs) (S (lv u)))
    (visit_neighbors u nbrs visited []).1.
Proof.
  intros [Hroot Hstep] Hu Hnbrs.
  destruct (visit_neighbors_spec u nbrs visited []) as (_ & Hd & Hl).
  set (new := fresh_nbrs (dom visited) nbrs) in *.
  assert (∀ x, is_Some (visited !! x) ->
               relevel lv new (S (lv u)) x = lv x) as Hold.
  { intros x Hx. unfold relevel. rewrite bool_decide_eq_false_2; [done|].
    unfold new. rewrite elem_of_fresh_nbrs, elem_of_dom. naive_solver. }
  split.
  - intros v. rewrite Hl. case_bool_decide; [done|].
    intros Hv. rewrite Hold by (rewrite Hv; eauto). by apply Hroot.
  - intros v p. rewrite Hl. case_bool_decide as Hv.
    + intros [= <-]. split; [|split].
      * apply elem_of_dom. rewrite Hd. apply elem_of_union_l.
        by apply elem_of_dom.
      * unfold relevel at 1. rewrite bool_decide_eq_true_2 by done.
        by rewrite Hold.
      * apply Hnbrs. unfold new in Hv.
        by apply elem_of_fresh_nbrs in Hv as [? _].
    + intros Hvp. destruct (Hstep v p Hvp) as (Hp & Hlv & He).
      split; [|split; [|done]].
      * apply elem_of_dom. rewrite Hd. apply elem_of_union_l.
        by apply elem_of_dom.
      * rewrite !Hold; [done|done|]. rewrite Hvp; eauto.
Qed.

Lemma visit_neighbors_queue node nbrs visited queue :
  (visit_neighbors node nbrs visited queue).1
  = (visit_neighbors node nbrs visited []).1.
Proof.
  apply map_eq. intros x.
  destruct (visit_neighbors_spec node nbrs visited queue) as (_ & _ & ->).
  by destruct (visit_neighbors_spec node nbrs visited []) as (_ & _ & ->).
Qed.

(** The search loop returns, and it returns the predecessor map of a
    breadth-first search that either emptied its queue or stopped with
    [end] at the head of the queue. *)
Lemma search_loop_spec end_ fuel : ∀ lv visited queue,
  bfs_inv rr start lv (dom visited) queue -> parent_inv rr lv visited ->
  (size (dom (build_graph rr) ∖ dom visited) + length queue < fuel)%nat ->
  ∃ lv' visited' queue',
    search_loop fuel (build_graph rr) end_ visited queue = Ret visited' ∧
    bfs_inv rr start lv' (dom visited') queue' ∧
    parent_inv rr lv' visited' ∧
    (queue' = [] ∨ ∃ e, end_ = Some e ∧ head queue' = Some e).
Proof.
  induction fuel as [|fuel IH]; intros lv visited queue Hinv Hpar Hfuel;
    [lia|].
  destruct queue as [|node q]; simpl.
  { exists lv, visited, []. eauto. }
  case_bool_decide as Hend.
  { exists lv, visited, (node :: q). split; [done|]. split; [done|].
    split; [done|]. right. exists node. by split. }
  assert (node ∈ dom visited) as Hnode
    by (apply (inv_queue _ _ _ _ _ Hinv); left).
  assert (vertex rr node) as Hv by by apply (inv_vertex _ _ _ _ _ Hinv).
  apply build_graph_keys in Hv as [nbrs Hnbrs].
  rewrite (dict_get_Some _ _ _ Hnbrs). simpl.
  destruct (visit_neighbors_spec node nbrs visited q) as (Hq & Hd & Hl).
  rewrite Hq.
  pose proof (bfs_inv_step rr start lv (dom visited) node q nbrs Hinv
                (build_graph_lookup rr node nbrs Hnbrs)) as Hinv'.
  simpl in Hinv'. rewrite <-Hd in Hinv'.
  apply IH in Hinv' as (lv' & visited' & queue' & Hrun & Hres).
  - exists lv', visited', queue'. split; [|done]. by rewrite <-Hrun.
  - rewrite visit_neighbors_queue. apply parent_inv_step; [done| |].
    + by apply elem_of_dom.
    + intros x Hx. by apply (build_graph_lookup rr node nbrs Hnbrs).
  - rewrite Hd, length_app. simpl in Hfuel.
    assert (dom (build_graph rr) ∖ (dom visited ∪ list_to_set (fresh_nbrs (dom visited) nbrs))
            = (dom (build_graph rr) ∖ dom visited) ∖ list_to_set (fresh_nbrs (dom visited) nbrs))
      as -> by set_solver.
    pose proof (size_remaining (dom (build_graph rr) ∖ dom visited)
                  (fresh_nbrs (dom visited) nbrs)
                  (fresh_nbrs_NoDup _ _)) as Hsz.
    rewrite <-Hsz in Hfuel; [lia|].
    intros x [Hx1 Hx2]%elem_of_fresh_nbrs. apply elem_of_difference.
    split; [|done]. apply elem_of_dom, build_graph_keys.
    apply (edge_vertex_r rr node).
    by apply (build_graph_lookup rr node nbrs Hnbrs).
Qed.

(** The loop that walks back along the predecessors returns the visited
    nodes between [v] and the start, [lv v] of them. *)
Lemma path_loop_spec lv visited fuel : ∀ v path,
  parent_inv rr lv visited -> is_Some (visited !! v) ->
  (lv v < fuel)%nat ->
  ∃ chain, path_loop fuel visited v path = Ret (path ++ chain)%list ∧
           length chain = lv v.
Proof.
  induction fuel as [|fuel IH]; intros v path Hpar [p Hp] Hfuel; [lia|].
  simpl. rewrite (dict_get_Some _ _ _ Hp). simpl.
  destruct p as [p|].
  - destruct (par_step _ _ _ Hpar v p Hp) as (Hpv & Hlv & _).
    destruct (IH p (path ++ [v])%list Hpar Hpv) as (chain & Hrun & Hlen);
      [lia|].
    exists (v :: chain). rewrite Hrun. split.
    + by rewrite <-app_assoc.
    + simpl. lia.
  - exists []. split; [by rewrite app_nil_r|].
    simpl. symmetry. by apply (par_root _ _ _ Hpar).
Qed.

Lemma search_init :
  vertex rr start ->
  bfs_inv rr start (fun _ => 0%nat) (dom ({[start := None]} : gmap string (option string))) [start] ∧
  parent_inv rr (fun _ => 0%nat) ({[start := None]} : gmap string (option string)) ∧
  (size (dom (build_graph rr) ∖ dom ({[start := None]} : gmap string (option string))) + length [start] < S (size (build_graph rr)))%nat.
Proof.
  intros Hv. rewrite dom_singleton_L. split; [by apply bfs_inv_init|].
  split.
  - split; [done|]. intros v p. rewrite lookup_singleton.
    case_decide; naive_solver.
  - simpl. rewrite size_difference.
    + rewrite size_singleton, size_dom.
      assert (size (build_graph rr) ≠ 0)%nat; [|lia].
      apply build_graph_keys in Hv as [nbrs Hn].
      intros H0%map_size_empty_inv. by rewrite H0, lookup_empty in Hn.
    + apply singleton_subseteq_l, elem_of_dom. by apply build_graph_keys.
Qed.

(** From a room of the graph, [get_shortest_path] answers [False] exactly
    for the unreachable ends, and a list of as many rooms as a shortest
    path has edges for the others. *)
Lemma get_shortest_path_spec e :
  vertex rr start ->
  (¬ reachable rr start e ∧
   get_shortest_path rr start (Some e) = Ret None) ∨
  (∃ path n, get_shortest_path rr start (Some e) = Ret (Some path) ∧
             length path = n ∧ shortest rr start e n).
Proof.
  intros Hv. unfold get_shortest_path.
  destruct (search_init Hv) as (Hinv & Hpar & Hfuel).
  destruct (search_loop_spec (Some e) _ _ _ _ Hinv Hpar Hfuel)
    as (lv & visited & queue & -> & Hinv' & Hpar' & Hexit).
  simpl.
  destruct (visited !! e) as [p|] eqn:He.
  - right.
    assert (e ∈ dom visited) as Hed by (apply elem_of_dom; eauto).
    destruct (path_loop_spec lv visited (size visited) e [] Hpar')
      as (chain & -> & Hlen); [eauto| |].
    { rewrite <-size_dom. by apply (inv_size _ _ _ _ _ Hinv'). }
    simpl. exists (reverse chain), (lv e). split; [done|].
    split; [by rewrite length_reverse|].
    by eapply bfs_inv_shortest.
  - left. split; [|done]. intros [n Hw].
    destruct Hexit as [->|(e' & [= <-] & Hhead)].
    + apply (bfs_inv_complete _ _ _ _ _ _ Hinv') in Hw.
      apply elem_of_dom in Hw as [? Hw]. by rewrite He in Hw.
    + apply head_Some_elem_of in Hhead.
      apply (inv_queue _ _ _ _ _ Hinv'), elem_of_dom in Hhead as [? Hh].
      by rewrite He in Hh.
Qed.

(** With Python's [None] for [end], the search visits the whole component
    and the answer is [False]. *)
Lemma get_shortest_path_None :
  vertex rr start -> get_shortest_path rr start None = Ret None.
Proof.
  intros Hv. unfold get_shortest_path.
  destruct (search_init Hv) as (Hinv & Hpar & Hfuel).
  by destruct (search_loop_spec None _ _ _ _ Hinv Hpar Hfuel)
    as (lv & visited & queue & -> & _).
Qed.

(** A start that occurs in no adjacency pair: the empty path to itself,
    [KeyError] at [(build_graph rr)[node]] for any other end. *)
Lemma get_shortest_path_isolated e :
  ¬ vertex rr start ->
  get_shortest_path rr start e =
    if bool_decide (Some start = e) then Ret (Some []) else Raise KeyError.
Proof.
  intros Hv. unfold get_shortest_path.
  assert (search_loop (S (size (build_graph rr))) (build_graph rr) e {[start := None]} [start]
          = if bool_decide (Some start = e) then Ret {[start := None]}
            else Raise KeyError) as ->.
  { simpl. case_bool_decide; [done|].
    assert ((build_graph rr) !! start = None) as Hn.
    { apply eq_None_not_Some. by rewrite build_graph_keys. }
    by rewrite (dict_get_None _ _ Hn). }
  case_bool_decide as He; [|done]. subst e.
  rewrite res_bind_Ret, lookup_singleton_eq, map_size_singleton.
  unfold path_loop. by rewrite (dict_get_Some _ _ _ (lookup_singleton_eq _ _)).
Qed.

End ShortestPath.

(** * The loops of [get_all_charging_station] *)

Lemma StronglySorted_lookup {A} (R : relation A) (l : list A) i j a b :
  StronglySorted R l -> (i < j)%nat ->
  l !! i = Some a -> l !! j = Some b -> R a b.
Proof.
  intros Hs. revert i j. induction Hs as [|x l Hl IH Hx]; intros i j Hij.
  { by rewrite lookup_nil. }
  destruct j as [|j]; [lia|]. destruct i as [|i]; simpl.
  - intros [= <-] Hb. rewrite Forall_forall in Hx.
    by apply Hx, list_elem_of_lookup_2 with j.
  - apply IH. lia.
Qed.

Lemma shortest_unique rr a b n m :
  shortest rr a b n -> shortest rr a b m -> n = m.
Proof.
  intros [Hn Hnmin] [Hm Hmmin].
  specialize (Hnmin m Hm). specialize (Hmmin n Hn). lia.
Qed.

Section Stations.
Context (rr : Rigid) (start : string) (cs : list string).
Hypothesis types_stations : types rr !! "charging_stations" = Some cs.

Lemma scan_neighbors_spec nbrs : ∀ vis queue stations,
  scan_neighbors rr nbrs vis queue stations =
    Ret (vis ∪ list_to_set (fresh_nbrs vis nbrs),
         (queue ++ fresh_nbrs vis nbrs)%list,
         (stations ++ filter (fun s => s ∈ cs) (fresh_nbrs vis nbrs))%list).
Proof.
  induction nbrs as [|nb nbrs IH]; intros vis queue stations; simpl.
  { rewrite !app_nil_r. do 3 f_equal. set_solver. }
  case_bool_decide as Hnb; [apply IH|].
  rewrite (dict_get_Some _ _ _ types_stations). simpl. rewrite IH.
  rewrite ?list_to_set_cons, filter_cons.
  f_equal. f_equal; [f_equal|].
  - set_solver.
  - by rewrite <-app_assoc.
  - case_bool_decide; destruct (decide (nb ∈ cs)); try done.
    by rewrite <-app_assoc.
Qed.

Lemma station_inv_step lv vis u q nbrs stations :
  bfs_inv rr start lv vis (u :: q) ->
  station_inv start cs lv vis stations ->
  let new := fresh_nbrs vis nbrs in
  station_inv start cs (relevel lv new (S (lv u)))
    (vis ∪ list_to_set new) (stations ++ filter (fun s => s ∈ cs) new).
Proof.
  intros Hinv [Hnd Hel Hso] new.
  assert (∀ x, x ∈ new -> x ∉ vis) as Hnew.
  { intros x Hx. unfold new in Hx. by apply elem_of_fresh_nbrs in Hx as [_ ?]. }
  assert (∀ x, x ∈ vis -> relevel lv new (S (lv u)) x = lv x) as Hold.
  { intros x Hx. unfold relevel. rewrite bool_decide_eq_false_2; [done|].
    intros Hx'. by apply Hnew in Hx'. }
  assert (∀ x, x ∈ new -> relevel lv new (S (lv u)) x = S (lv u)) as Hlvnew.
  { intros x Hx. unfold relevel. by rewrite bool_decide_eq_true_2. }
  assert (start ∈ vis) as Hs by apply (inv_start _ _ _ _ _ Hinv).
  split.
  - apply NoDup_app. split; [done|]. split.
    + intros x Hx Hx'. apply list_elem_of_filter in Hx' as [_ Hx'].
      apply Hnew in Hx'. apply Hel in Hx. naive_solver.
    + apply NoDup_filter, fresh_nbrs_NoDup.
  - intros s. rewrite elem_of_app, list_elem_of_filter, Hel,
      elem_of_union, elem_of_list_to_set.
    split; [|naive_solver].
    intros [?|[? Hsn]]; [naive_solver|].
    split; [by right|]. split; [|done]. intros ->. by apply Hnew in Hsn.
  - apply StronglySorted_app_2.
    + intros x1 x2 H1 H2. apply list_elem_of_filter in H2 as [_ H2].
      apply Hel in H1 as [H1 _].
      rewrite Hold, Hlvnew by done.
      by apply (inv_bound _ _ _ _ _ Hinv u).
    + apply (sorted_by_ext lv); [|done].
      intros x Hx. apply Hold. by apply Hel in Hx as [? _].
    + apply (sorted_by_const _ (S (lv u))).
      intros x Hx. apply list_elem_of_filter in Hx as [_ Hx].
      by apply Hlvnew.
Qed.

(** The loop returns, with the stations of the whole component. *)
Lemma station_loop_spec fuel : ∀ lv vis queue stations,
  bfs_inv rr start lv vis queue ->
  station_inv start cs lv vis stations ->
  (size (dom (build_graph rr) ∖ vis) + length queue < fuel)%nat ->
  ∃ lv' vis' stations',
    station_loop fuel rr (build_graph rr) vis queue stations = Ret stations' ∧
    bfs_inv rr start lv' vis' [] ∧
    station_inv start cs lv' vis' stations'.
Proof.
  induction fuel as [|fuel IH]; intros lv vis queue stations Hinv Hst Hfuel;
    [lia|].
  destruct queue as [|node q]; simpl.
  { by exists lv, vis, stations. }
  assert (node ∈ vis) as Hnode by (apply (inv_queue _ _ _ _ _ Hinv); left).
  assert (vertex rr node) as Hv by by apply (inv_vertex _ _ _ _ _ Hinv).
  apply build_graph_keys in Hv as [nbrs Hnbrs].
  rewrite (dict_get_Some _ _ _ Hnbrs). simpl.
  rewrite scan_neighbors_spec. simpl.
  apply (IH (relevel lv (fresh_nbrs vis nbrs) (S (lv node)))).
  - apply bfs_inv_step; [done|].
    by apply (build_graph_lookup rr node nbrs Hnbrs).
  - by apply (station_inv_step lv vis node q).
  - rewrite length_app. simpl in Hfuel.
    assert (dom (build_graph rr) ∖ (vis ∪ list_to_set (fresh_nbrs vis nbrs))
            = (dom (build_graph rr) ∖ vis) ∖ list_to_set (fresh_nbrs vis nbrs))
      as -> by set_solver.
    pose proof (size_remaining (dom (build_graph rr) ∖ vis) (fresh_nbrs vis nbrs)
                  (fresh_nbrs_NoDup _ _)) as Hsz.
    rewrite <-Hsz in Hfuel; [lia|].
    intros x [Hx1 Hx2]%elem_of_fresh_nbrs. apply elem_of_difference.
    split; [|done]. apply elem_of_dom, build_graph_keys.
    apply (edge_vertex_r rr node).
    by apply (build_graph_lookup rr node nbrs Hnbrs).
Qed.

Lemma get_all_charging_station_spec :
  vertex rr start ->
  ∃ l, get_all_charging_station rr start = Ret l ∧
    NoDup l ∧
    (∀ s, s ∈ l ↔ s ∈ cs ∧ reachable rr start s ∧ s ≠ start) ∧
    (∀ i j s t ds dt, (i < j)%nat -> l !! i = Some s -> l !! j = Some t ->
       shortest rr start s ds -> shortest rr start t dt -> (ds ≤ dt)%nat).
Proof.
  intros Hv. unfold get_all_charging_station.
  destruct (station_loop_spec (S (size (build_graph rr))) (fun _ => 0%nat) {[start]}
              [start] []) as (lv & vis & l & Hrun & Hinv & Hst).
  - by apply bfs_inv_init.
  - split; [constructor| |constructor].
    intros s. split; [by intros ?%elem_of_nil|]. set_solver.
  - simpl. rewrite size_difference.
    + rewrite size_singleton, size_dom.
      assert (size (build_graph rr) ≠ 0)%nat; [|lia].
      apply build_graph_keys in Hv as [nbrs Hn].
      intros H0%map_size_empty_inv. by rewrite H0, lookup_empty in Hn.
    + apply singleton_subseteq_l, elem_of_dom. by apply build_graph_keys.
  - exists l. split; [done|]. split; [apply (st_nodup _ _ _ _ _ Hst)|].
    split.
    + intros s. rewrite (st_elem _ _ _ _ _ Hst). split.
      * intros (Hs & Hne & Hcs). split; [done|]. split; [|done].
        exists (lv s). by apply (inv_sound _ _ _ _ _ Hinv).
      * intros (Hcs & [n Hw] & Hne). split; [|done].
        by eapply bfs_inv_complete.
    + intros i j s t ds dt Hij Hi Hj Hds Hdt.
      assert (s ∈ vis ∧ t ∈ vis) as [Hs Ht].
      { split; eapply (st_elem _ _ _ _ _ Hst), list_elem_of_lookup_2; eauto. }
      rewrite (shortest_unique _ _ _ _ _ Hds
                 (bfs_inv_shortest _ _ _ _ _ _ Hinv Hs)).
      rewrite (shortest_unique _ _ _ _ _ Hdt
                 (bfs_inv_shortest _ _ _ _ _ _ Hinv Ht)).
      by apply (StronglySorted_lookup _ l i j s t (st_sorted _ _ _ _ _ Hst)).
Qed.

End Stations.

(** * Claims about distances and charging stations *)

Section Distance.
Context (rr : Rigid).

Lemma vertex_dec x : {vertex rr x} + {¬ vertex rr x}.
Proof.
  destruct (build_graph rr !! x) as [l|] eqn:Hx.
  - left. apply build_graph_keys. eauto.
  - right. rewrite <-build_graph_keys, Hx. by intros [].
Qed.

Lemma reachable_refl a : reachable rr a a.
Proof. exists 0%nat. constructor. Qed.

Lemma shortest_refl a : shortest rr a a 0.
Proof. split; [constructor|intros; lia]. Qed.

Lemma distance_reachable loc1 loc2 :
  reachable rr loc1 loc2 ->
  ∃ n, distance rr loc1 (Some loc2) = Ret (Z.of_nat n) ∧
       shortest rr loc1 loc2 n.
Proof.
  intros Hr. unfold distance. destruct (vertex_dec loc1) as [Hv|Hv].
  - destruct (get_shortest_path_spec rr loc1 loc2 Hv)
      as [[Hn _]|(path & n & -> & <- & Hs)]; [done|].
    by exists (length path).
  - destruct Hr as [n Hw]. apply (walk_from_isolated rr _ _ _ Hv) in Hw as ->.
    rewrite get_shortest_path_isolated by done.
    rewrite bool_decide_eq_true_2 by done.
    exists 0%nat. split; [done|apply shortest_refl].
Qed.

Lemma distance_self loc1 : distance rr loc1 (Some loc1) = Ret 0.
Proof.
  destruct (distance_reachable loc1 loc1 (reachable_refl _))
    as (n & -> & Hs).
  by rewrite (shortest_unique _ _ _ _ _ Hs (shortest_refl _)).
Qed.

Lemma distance_unreachable loc1 loc2 :
  vertex rr loc1 -> ¬ reachable rr loc1 loc2 ->
  get_shortest_path rr loc1 (Some loc2) = Ret None ∧
  distance rr loc1 (Some loc2) = Raise TypeError.
Proof.
  intros Hv Hn. unfold distance.
  destruct (get_shortest_path_spec rr loc1 loc2 Hv)
    as [[_ ->]|(path & n & _ & _ & [Hw _])]; [done|].
  destruct Hn. by exists n.
Qed.

Lemma distance_None loc1 :
  vertex rr loc1 -> distance rr loc1 None = Raise TypeError.
Proof.
  intros Hv. unfold distance. by rewrite get_shortest_path_None.
Qed.

(** [distance] returns or raises a Python exception: its loops never run
    out of fuel. *)
Lemma distance_total loc1 loc2 :
  (∃ n, distance rr loc1 loc2 = Ret n) ∨ is_raise (distance rr loc1 loc2).
Proof.
  unfold distance. destruct (vertex_dec loc1) as [Hv|Hv].
  - destruct loc2 as [loc2|].
    + destruct (get_shortest_path_spec rr loc1 loc2 Hv)
        as [[_ ->]|(path & n & -> & _)]; simpl; eauto.
    + rewrite get_shortest_path_None by done. simpl. eauto.
  - rewrite get_shortest_path_isolated by done.
    case_bool_decide; simpl; eauto.
Qed.

Section WithStations.
Context (cs : list string).
Hypothesis types_stations : types rr !! "charging_stations" = Some cs.

Lemma is_charging_station_spec loc :
  is_charging_station rr loc = Ret (bool_decide (loc ∈ cs)).
Proof.
  unfold is_charging_station. by rewrite (dict_get_Some _ _ _ types_stations).
Qed.

Lemma get_closest_charging_station_spec loc l :
  get_all_charging_station rr loc = Ret l ->
  get_closest_charging_station rr loc =
    Ret (if bool_decide (loc ∈ cs) then Some loc else head l).
Proof.
  intros Hl. unfold get_closest_charging_station.
  rewrite is_charging_station_spec. simpl.
  case_bool_decide; [done|]. by rewrite Hl.
Qed.

Lemma no_station_reachable dest :
  vertex rr dest -> (∀ s, s ∈ cs -> ¬ reachable rr dest s) ->
  get_closest_charging_station rr dest = Ret None.
Proof.
  intros Hv Hno.
  destruct (get_all_charging_station_spec rr dest cs types_stations Hv)
    as (l & Hl & _ & Hel & _).
  rewrite (get_closest_charging_station_spec _ _ Hl).
  rewrite bool_decide_eq_false_2.
  - destruct l as [|s l]; [done|].
    destruct (Hel s) as [(Hs & Hr & _) _]; [by left|]. by destruct (Hno s).
  - intros Hd. destruct (Hno dest Hd). apply reachable_refl.
Qed.

Lemma travel_cost_raises from dest :
  vertex rr dest -> (∀ s, s ∈ cs -> ¬ reachable rr dest s) ->
  is_raise (Final.travel_cost rr from dest).
Proof.
  intros Hv Hno. unfold Final.travel_cost.
  destruct (distance_total from (Some dest)) as [[n ->]|Hr].
  - simpl. rewrite (no_station_reachable dest Hv Hno). simpl.
    by rewrite distance_None.
  - by destruct (distance rr from (Some dest)).
Qed.

End WithStations.
End Distance.

Lemma no_station_travel_with1_raises w cs R dest ex b lR :
  types (rigid_relations w) !! "charging_stations" = Some cs ->
  vertex (rigid_relations w) dest ->
  (∀ s, s ∈ cs -> ¬ reachable (rigid_relations w) dest s) ->
  battery (state w) !! R = Some b -> loc (state w) !! R = Some lR ->
  is_raise (Final.travel_with1 R dest 0 ex w).1.
Proof.
  intros Hcs Hv Hno Hb Hl. unfold Final.travel_with1.
  rewrite bool_decide_eq_true_2 by done. run_m.
  rewrite (dict_get_Some _ _ _ Hb). run_m.
  rewrite (dict_get_Some _ _ _ Hl). run_m.
  pose proof (travel_cost_raises _ cs Hcs lR dest Hv Hno) as Hr.
  by destruct (Final.travel_cost (rigid_relations w) lR dest).
Qed.

(** ** The charging stations around a room of the graph *)

(** For a room [loc] of the adjacency graph,
    [get_all_charging_station(loc)] returns each charging station that is
    reachable from [loc] and is not [loc] itself, once, in the order of
    non-decreasing shortest-path distance from [loc].  Consequently
    [get_closest_charging_station(loc)] is [loc] itself when [loc] is a
    charging station, otherwise the head of that list: a reachable
    station that no other is nearer than, or [None] when no station is
    reachable. *)
Lemma charging_stations_from_vertex (rr : Rigid) (cs : list string) (loc : string) :
  types rr !! "charging_stations" = Some cs -> vertex rr loc ->
  ∃ l, get_all_charging_station rr loc = Ret l ∧
    NoDup l ∧
    (∀ s, s ∈ l ↔ s ∈ cs ∧ reachable rr loc s ∧ s ≠ loc) ∧
    (∀ i j s t ds dt, (i < j)%nat -> l !! i = Some s -> l !! j = Some t ->
       shortest rr loc s ds -> shortest rr loc t dt -> (ds ≤ dt)%nat) ∧
    get_closest_charging_station rr loc =
      Ret (if bool_decide (loc ∈ cs) then Some loc else head l) ∧
    (∀ s t ds dt, head l = Some s -> t ∈ cs -> t ≠ loc ->
       shortest rr loc s ds -> shortest rr loc t dt -> (ds ≤ dt)%nat) ∧
    ((∀ s, s ∈ cs -> ¬ reachable rr loc s) ->
     get_closest_charging_station rr loc = Ret None).
Proof.
  intros Hcs Hv.
  destruct (get_all_charging_station_spec rr loc cs Hcs Hv)
    as (l & Hl & Hnd & Hel & Hso).
  exists l. repeat (split; [done|]). split; [|split].
  - by apply get_closest_charging_station_spec.
  - intros s t ds dt Hs Ht Hne Hds Hdt.
    assert (t ∈ l) as [j Hj]%list_elem_of_lookup_1.
    { apply Hel. split; [done|]. split; [|done]. exists dt. apply Hdt. }
    destruct l as [|s' l]; simplify_eq/=. destruct j as [|j].
    + simplify_eq/=. by rewrite (shortest_unique _ _ _ _ _ Hds Hdt).
    + by apply (Hso 0%nat (S j) s t); [lia| |..].
  - by apply no_station_reachable.
Qed.

(** Every location that final_warehouse_robot.py declares is a room of
    its adjacency graph, also once [move_exec] has deleted the edge
    between room2 and room4. *)
Lemma final_locations_are_vertices l :
  is_a Final.rigid_relations0 l "loc" = Ret true ->
  vertex Final.rigid_relations0 l ∧
  vertex (mkRigid (types Final.rigid_relations0)
            (filter (fun e => e ≠ ("room2", "room4"))
               (adjacent Final.rigid_relations0))) l.
Proof.
  intros [= Hl%bool_decide_eq_true].
  repeat (apply elem_of_cons in Hl as [->|Hl]);
    [..|by apply elem_of_nil in Hl];
    (split; apply build_graph_keys; vm_compute; eauto).
Qed.

Lemma vertex_room1 : vertex Final.rigid_relations0 "room1".
Proof. apply final_locations_are_vertices. reflexivity. Defined.

(** ** C9: distances *)

(** C9, as amended.  [distance(loc1, loc2)] is the number of edges on a
    shortest path of the adjacency graph whenever [loc2] is reachable
    from [loc1] (0 when they are equal).  When [loc2] is unreachable from
    a room [loc1] of the graph, [get_shortest_path] returns [False] and
    [distance] raises ([len(False)]).  When no charging station is
    reachable from a room [dest] of the graph,
    [get_closest_charging_station(dest)] is [None], the estimate
    [distance(dest, None)] raises, and so does [travel_with1] with
    [i == 0]. *)
Theorem distance_shortest_or_raises (rr : Rigid) :
  (∀ loc1 loc2, reachable rr loc1 loc2 ->
     ∃ n, distance rr loc1 (Some loc2) = Ret (Z.of_nat n) ∧
          shortest rr loc1 loc2 n) ∧
  (∀ loc1, distance rr loc1 (Some loc1) = Ret 0) ∧
  (∀ loc1 loc2, vertex rr loc1 -> ¬ reachable rr loc1 loc2 ->
     get_shortest_path rr loc1 (Some loc2) = Ret None ∧
     distance rr loc1 (Some loc2) = Raise TypeError) ∧
  (∀ cs dest, types rr !! "charging_stations" = Some cs ->
     vertex rr dest -> (∀ s, s ∈ cs -> ¬ reachable rr dest s) ->
     get_closest_charging_station rr dest = Ret None ∧
     distance rr dest None = Raise TypeError ∧
     ∀ st R ex b lR,
       battery st !! R = Some b -> loc st !! R = Some lR ->
       is_raise (Final.travel_with1 R dest 0 ex (mkWorld rr st)).1).
Proof.
  split; [apply distance_reachable|].
  split; [apply distance_self|].
  split; [apply distance_unreachable|].
  intros cs dest Hcs Hv Hno. split; [by eapply no_station_reachable|].
  split; [by apply distance_None|].
  intros st R ex b lR Hb Hl.
  by eapply (no_station_travel_with1_raises (mkWorld rr st)).
Qed.

Lemma edge_final a b :
  is_adjacent Final.rigid_relations0 a b = true ->
  edge Final.rigid_relations0 a b.
Proof. apply is_adjacent_edge. Defined.

Lemma unreachable_non_vertex rr a b :
  ¬ vertex rr b -> a ≠ b -> ¬ reachable rr a b.
Proof.
  intros Hb Hab [[|n] Hw].
  - inversion Hw. by subst.
  - by apply walk_end_vertex in Hw.
Defined.

Lemma distance_shortest_or_raises_witness :
  (∃ n, distance Final.rigid_relations0 "room1" (Some "room9")
        = Ret (Z.of_nat n) ∧
        shortest Final.rigid_relations0 "room1" "room9" n) ∧
  (get_shortest_path Final.rigid_relations0 "room1" (Some "R1") = Ret None ∧
   distance Final.rigid_relations0 "room1" (Some "R1") = Raise TypeError) ∧
  (get_closest_charging_station rigid_no_stations "room1" = Ret None ∧
   distance rigid_no_stations "room1" None = Raise TypeError ∧
   ∀ st R ex b lR,
     battery st !! R = Some b -> loc st !! R = Some lR ->
     is_raise (Final.travel_with1 R "room1" 0 ex
                 (mkWorld rigid_no_stations st)).1).
Proof.
  split; [|split].
  - apply (proj1 (distance_shortest_or_raises Final.rigid_relations0)
             "room1" "room9").
    exists 4%nat.
    apply (walk_snoc _ _ "room6"); [|by apply edge_final].
    apply (walk_snoc _ _ "room5"); [|by apply edge_final].
    apply (walk_snoc _ _ "room2"); [|by apply edge_final].
    apply (walk_snoc _ _ "room1"); [|by apply edge_final].
    apply walk_nil.
  - apply (proj1 (proj2 (proj2
             (distance_shortest_or_raises Final.rigid_relations0)))
             "room1" "R1").
    + apply vertex_room1.
    + apply unreachable_non_vertex; [|discriminate].
      rewrite <-build_graph_keys. vm_compute. by intros [? ?].
  - apply (proj2 (proj2 (proj2
             (distance_shortest_or_raises rigid_no_stations)))
             [] "room1").
    + reflexivity.
    + exists "room2". left. simpl. left.
    + intros s Hs. by apply elem_of_nil in Hs.
Defined.

(** C9 as stated fails for a start that occurs in no adjacency pair:
    room1 cannot be reached from "room10", yet [get_shortest_path] does
    not return [False]; the lookup [G[node]] raises. *)
Lemma shortest_path_unknown_start :
  (∀ n, ¬ walk Final.rigid_relations0 "room10" "room1" n) ∧
  get_shortest_path Final.rigid_relations0 "room10" (Some "room1")
  = Raise KeyError ∧
  distance Final.rigid_relations0 "room10" (Some "room1") = Raise KeyError.
Proof.
  split; [|by vm_compute].
  intros n Hw. apply walk_from_isolated in Hw; [done|].
  rewrite <-build_graph_keys. vm_compute. by intros [? ?].
Qed.

(** * Termination of the helpers and of the methods *)

Section Terminates.
Context {A B : Type}.


Lemma res_ok_raise e : e ≠ OutOfFuel -> res_ok (Raise e : res A).
Proof. intros He [= ?]. done. Qed.









End Terminates.








Section HelpersTerminate.
Context (rr : Rigid).





(** A start that occurs in no adjacency pair: [KeyError] at [G[node]]. *)
Lemma get_all_charging_station_isolated loc :
  ¬ vertex rr loc -> get_all_charging_station rr loc = Raise KeyError.
Proof.
  intros Hv. unfold get_all_charging_station. simpl.
  assert (build_graph rr !! loc = None) as Hn.
  { apply eq_None_not_Some. by rewrite build_graph_keys. }
  by rewrite (dict_get_None _ _ Hn).
Qed.




End HelpersTerminate.



(** ** C6: methods do not mutate the state *)




(** ** C10: the charging stations around a location *)

Lemma room10_no_vertex : ¬ vertex Final.rigid_relations0 "room10".
Proof. rewrite <-build_graph_keys. vm_compute. by intros [? ?]. Defined.

(** C10 as stated fails for a declared location that occurs in no
    adjacency pair: no charging station is reachable from it, yet
    [get_all_charging_station] does not return the empty list and
    [get_closest_charging_station] does not return [None]; the lookup
    [G[node]] raises [KeyError]. *)
Lemma isolated_location_raises :
  is_a rigid_isolated_room "room10" "loc" = Ret true ∧
  is_charging_station rigid_isolated_room "room10" = Ret false ∧
  (∀ s n, walk rigid_isolated_room "room10" s n -> s = "room10") ∧
  get_all_charging_station rigid_isolated_room "room10" = Raise KeyError ∧
  get_closest_charging_station rigid_isolated_room "room10" = Raise KeyError.
Proof.
  split; [reflexivity|]. split; [reflexivity|]. split.
  - intros s n Hw. apply walk_from_isolated in Hw; [done|].
    rewrite <-build_graph_keys. vm_compute. by intros [? ?].
  - split; vm_compute; reflexivity.
Qed.

(** C10, as amended.  For a location [loc] that occurs in some adjacency
    pair, [get_all_charging_station(loc)] returns each charging station
    that is reachable from [loc] and is not [loc] itself, once, in the
    order of non-decreasing shortest-path distance from [loc];
    consequently [get_closest_charging_station(loc)] is [loc] itself when
    [loc] is a charging station, otherwise the head of that list: a
    reachable station that no other is nearer than, or [None] when no
    station is reachable.  For a location that occurs in no adjacency
    pair, [get_all_charging_station(loc)] raises [KeyError], and
    [get_closest_charging_station(loc)] returns [loc] when it is a
    charging station and raises [KeyError] otherwise. *)
Theorem charging_stations_by_distance (rr : Rigid) (cs : list string) (loc : string) :
  types rr !! "charging_stations" = Some cs ->
  (vertex rr loc ->
   ∃ l, get_all_charging_station rr loc = Ret l ∧
     NoDup l ∧
     (∀ s, s ∈ l ↔ s ∈ cs ∧ reachable rr loc s ∧ s ≠ loc) ∧
     (∀ i j s t ds dt, (i < j)%nat -> l !! i = Some s -> l !! j = Some t ->
        shortest rr loc s ds -> shortest rr loc t dt -> (ds ≤ dt)%nat) ∧
     get_closest_charging_station rr loc =
       Ret (if bool_decide (loc ∈ cs) then Some loc else head l) ∧
     (∀ s t ds dt, head l = Some s -> t ∈ cs -> t ≠ loc ->
        shortest rr loc s ds -> shortest rr loc t dt -> (ds ≤ dt)%nat) ∧
     ((∀ s, s ∈ cs -> ¬ reachable rr loc s) ->
      get_closest_charging_station rr loc = Ret None)) ∧
  (¬ vertex rr loc ->
   get_all_charging_station rr loc = Raise KeyError ∧
   get_closest_charging_station rr loc =
     if bool_decide (loc ∈ cs) then Ret (Some loc) else Raise KeyError).
Proof.
  intros Hcs. split.
  - intros Hv. by apply charging_stations_from_vertex.
  - intros Hv. split; [by apply get_all_charging_station_isolated|].
    unfold get_closest_charging_station.
    rewrite (is_charging_station_spec rr cs Hcs). simpl.
    case_bool_decide; [done|].
    by rewrite get_all_charging_station_isolated.
Qed.

Lemma charging_stations_by_distance_witness :
  (∃ l, get_all_charging_station Final.rigid_relations0 "room1" = Ret l ∧
     NoDup l ∧
     (∀ s, s ∈ l ↔ s ∈ ["room3"; "room6"; "room9"] ∧
                   reachable Final.rigid_relations0 "room1" s ∧ s ≠ "room1") ∧
     (∀ i j s t ds dt, (i < j)%nat -> l !! i = Some s -> l !! j = Some t ->
        shortest Final.rigid_relations0 "room1" s ds ->
        shortest Final.rigid_relations0 "room1" t dt -> (ds ≤ dt)%nat) ∧
     get_closest_charging_station Final.rigid_relations0 "room1" =
       Ret (if bool_decide ("room1" ∈ ["room3"; "room6"; "room9"])
            then Some "room1" else head l) ∧
     (∀ s t ds dt, head l = Some s -> t ∈ ["room3"; "room6"; "room9"] ->
        t ≠ "room1" ->
        shortest Final.rigid_relations0 "room1" s ds ->
        shortest Final.rigid_relations0 "room1" t dt -> (ds ≤ dt)%nat) ∧
     ((∀ s, s ∈ ["room3"; "room6"; "room9"] ->
         ¬ reachable Final.rigid_relations0 "room1" s) ->
      get_closest_charging_station Final.rigid_relations0 "room1" = Ret None)) ∧
  (get_all_charging_station Final.rigid_relations0 "room10" = Raise KeyError ∧
   get_closest_charging_station Final.rigid_relations0 "room10" =
     if bool_decide ("room10" ∈ ["room3"; "room6"; "room9"])
     then Ret (Some "room10") else Raise KeyError).
Proof.
  split.
  - apply (proj1 (charging_stations_by_distance Final.rigid_relations0
                    ["room3"; "room6"; "room9"] "room1" eq_refl)).
    apply vertex_room1.
  - apply (proj2 (charging_stations_by_distance Final.rigid_relations0
                    ["room3"; "room6"; "room9"] "room10" eq_refl)).
    apply room10_no_vertex.
Defined.

(** * Paths and distances *)

Section Paths.
Context (rr : Rigid).

Lemma leads_snoc a path b c :
  leads rr a path b -> edge rr b c -> leads rr a (path ++ [c]) c.
Proof.
  revert a. induction path as [|x path IH]; simpl; intros a.
  - by intros -> ?.
  - intros [Hax Hl] Hbc. split; [done|]. by apply IH.
Qed.

Lemma walk_cons a b c n : edge rr a b -> walk rr b c n -> walk rr a c (S n).
Proof.
  intros Hab Hw. induction Hw as [|c d n Hw IH Hcd].
  - apply (walk_snoc _ _ a); [constructor|done].
  - by apply (walk_snoc _ _ c).
Qed.

Lemma walk_app a b c n m :
  walk rr a b n -> walk rr b c m -> walk rr a c (n + m).
Proof.
  intros Hab Hbc. induction Hbc as [|c d m Hbc IH Hcd].
  - by rewrite Nat.add_0_r.
  - rewrite Nat.add_succ_r. by apply (walk_snoc _ _ c).
Qed.

Lemma walk_sym a b n : walk rr a b n -> walk rr b a n.
Proof.
  induction 1 as [|b c n Hw IH Hbc]; [constructor|].
  apply (walk_cons _ b); [by apply edge_sym|done].
Qed.

Lemma leads_walk a path b : leads rr a path b -> walk rr a b (length path).
Proof.
  revert a. induction path as [|x path IH]; simpl; intros a.
  - intros ->. constructor.
  - intros [Hax Hl]. apply (walk_cons _ x); [done|]. by apply IH.
Qed.

Lemma walk_leads a b n :
  walk rr a b n -> ∃ path, length path = n ∧ leads rr a path b.
Proof.
  induction 1 as [|b c n Hw (path & Hlen & Hl) Hbc].
  - by exists [].
  - exists (path ++ [c])%list. split.
    + rewrite length_app. simpl. lia.
    + by apply (leads_snoc _ _ b).
Qed.

Lemma shortest_sym a b n : shortest rr a b n -> shortest rr b a n.
Proof.
  intros [Hw Hmin]. split; [by apply walk_sym|].
  intros m Hm. by apply Hmin, walk_sym.
Qed.

(** The loop that walks back along the predecessors collects, last room
    first, a path that leads from a node without predecessor to [v]. *)
Lemma path_loop_leads lv visited fuel : ∀ v path,
  parent_inv rr lv visited -> is_Some (visited !! v) ->
  (lv v < fuel)%nat ->
  ∃ chain root, path_loop fuel visited v path = Ret (path ++ chain)%list ∧
    length chain = lv v ∧
    visited !! root = Some None ∧ leads rr root (reverse chain) v.
Proof.
  induction fuel as [|fuel IH]; intros v path Hpar [p Hp] Hfuel; [lia|].
  simpl. rewrite (dict_get_Some _ _ _ Hp). simpl.
  destruct p as [p|].
  - destruct (par_step _ _ _ Hpar v p Hp) as (Hpv & Hlv & He).
    destruct (IH p (path ++ [v])%list Hpar Hpv)
      as (chain & root & Hrun & Hlen & Hr & Hl); [lia|].
    exists (v :: chain), root. rewrite Hrun. split; [by rewrite <-app_assoc|].
    split; [simpl; lia|].
    split; [done|]. rewrite reverse_cons. by apply (leads_snoc _ _ p).
  - exists [], v. split; [by rewrite app_nil_r|].
    split; [|by split]. simpl. symmetry. by apply (par_root _ _ _ Hpar).
Qed.

End Paths.

(** The path that [get_shortest_path] returns leads from [start] to [end]
    along adjacent rooms ([start] itself is not part of it), and no path
    from [start] to [end] has fewer rooms. *)
Lemma get_shortest_path_leads (rr : Rigid) (start e : string) (path : list string) :
  get_shortest_path rr start (Some e) = Ret (Some path) ->
  leads rr start path e ∧
  ∀ path', leads rr start path' e -> (length path ≤ length path')%nat.
Proof.
  intros Hrun. destruct (vertex_dec rr start) as [Hv|Hv].
  - revert Hrun. unfold get_shortest_path.
    destruct (search_init rr start Hv) as (Hinv & Hpar & Hfuel).
    destruct (search_loop_spec rr start (Some e) _ _ _ _ Hinv Hpar Hfuel)
      as (lv & visited & queue & -> & Hinv' & Hpar' & Hexit).
    simpl. destruct (visited !! e) as [p|] eqn:He; [|done].
    assert (e ∈ dom visited) as Hed by (apply elem_of_dom; eauto).
    destruct (path_loop_leads rr lv visited (size visited) e [] Hpar')
      as (chain & root & -> & Hlen & Hroot & Hl); [eauto| |].
    { rewrite <-size_dom. by apply (inv_size _ _ _ _ _ Hinv'). }
    simpl. intros [= <-].
    assert (root = start) as ->.
    { assert (root ∈ dom visited) as Hrd by (apply elem_of_dom; eauto).
      pose proof (inv_sound _ _ _ _ _ Hinv' root Hrd) as Hw.
      rewrite (par_root _ _ _ Hpar' root Hroot) in Hw. by inversion Hw. }
    split; [done|]. intros path' Hl'.
    destruct (bfs_inv_shortest rr start lv (dom visited) queue e Hinv' Hed)
      as [_ Hmin].
    rewrite length_reverse, Hlen. by apply Hmin, leads_walk.
  - rewrite get_shortest_path_isolated in Hrun by done.
    case_bool_decide as He; [|done]. simplify_eq. split; [done|].
    intros; simpl; lia.
Qed.

Lemma distance_Ret_shortest rr a b x :
  distance rr a (Some b) = Ret x ->
  ∃ n, x = Z.of_nat n ∧ shortest rr a b n.
Proof.
  unfold distance. intros Hd.
  destruct (get_shortest_path rr a (Some b)) as [[path|]|] eqn:Hp;
    simplify_eq/=.
  apply get_shortest_path_leads in Hp as [Hl Hmin].
  exists (length path). split; [done|]. split; [by apply leads_walk|].
  intros m (path' & <- & Hl')%walk_leads. by apply Hmin.
Qed.

(** The rooms that the loop collects are one level apart from each other,
    counted down from the level of [v]. *)
Lemma path_loop_levels rr lv visited fuel : ∀ v path,
  parent_inv rr lv visited -> is_Some (visited !! v) ->
  (lv v < fuel)%nat ->
  ∃ chain, path_loop fuel visited v path = Ret (path ++ chain)%list ∧
    length chain = lv v ∧
    ∀ i x, chain !! i = Some x -> (lv x + i = lv v)%nat.
Proof.
  induction fuel as [|fuel IH]; intros v path Hpar [p Hp] Hfuel; [lia|].
  simpl. rewrite (dict_get_Some _ _ _ Hp). simpl.
  destruct p as [p|].
  - destruct (par_step _ _ _ Hpar v p Hp) as (Hpv & Hlv & He).
    destruct (IH p (path ++ [v])%list Hpar Hpv)
      as (chain & Hrun & Hlen & Hlev); [lia|].
    exists (v :: chain). rewrite Hrun. split; [by rewrite <-app_assoc|].
    split; [simpl; lia|].
    intros [|i] x; simpl; [intros [= <-]; lia|].
    intros Hx%Hlev. lia.
  - exists []. split; [by rewrite app_nil_r|].
    split; [|done]. simpl. symmetry. by apply (par_root _ _ _ Hpar).
Qed.

(** The path that [get_shortest_path] returns visits no room twice and
    does not come back to [start]. *)
Lemma get_shortest_path_NoDup (rr : Rigid) (start e : string) (path : list string) :
  get_shortest_path rr start (Some e) = Ret (Some path) ->
  NoDup (start :: path).
Proof.
  intros Hrun. destruct (vertex_dec rr start) as [Hv|Hv].
  - revert Hrun. unfold get_shortest_path.
    destruct (search_init rr start Hv) as (Hinv & Hpar & Hfuel).
    destruct (search_loop_spec rr start (Some e) _ _ _ _ Hinv Hpar Hfuel)
      as (lv & visited & queue & -> & Hinv' & Hpar' & Hexit).
    simpl. destruct (visited !! e) as [p|] eqn:He; [|done].
    destruct (path_loop_levels rr lv visited (size visited) e [] Hpar')
      as (chain & -> & Hlen & Hlev); [eauto| |].
    { rewrite <-size_dom. apply (inv_size _ _ _ _ _ Hinv').
      apply elem_of_dom. eauto. }
    simpl. intros [= <-].
    destruct (inv_start _ _ _ _ _ Hinv') as [_ H0].
    apply NoDup_cons. split.
    + rewrite elem_of_reverse. intros [i Hi]%list_elem_of_lookup_1.
      pose proof (lookup_lt_Some _ _ _ Hi). apply Hlev in Hi. lia.
    + rewrite reverse_Permutation. apply NoDup_alt. intros i j x Hi Hj.
      apply Hlev in Hi, Hj. lia.
  - rewrite get_shortest_path_isolated in Hrun by done.
    case_bool_decide as He; [|done]. simplify_eq.
    apply NoDup_singleton.
Qed.

(** X1.  When [get_shortest_path(start, end)] returns a path, the path
    leads from [start] to [end] along adjacent rooms ([start] itself not
    included), it visits no room twice and does not come back to
    [start], no path from [start] to [end] has fewer rooms, and
    [distance(start, end)] is its length. *)
Theorem shortest_path_is_shortest (rr : Rigid) (start e : string) (path : list string) :
  get_shortest_path rr start (Some e) = Ret (Some path) ->
  leads rr start path e ∧ NoDup (start :: path) ∧
  (∀ path', leads rr start path' e -> (length path ≤ length path')%nat) ∧
  distance rr start (Some e) = Ret (Z.of_nat (length path)).
Proof.
  intros Hp. destruct (get_shortest_path_leads rr start e path Hp) as [Hl Hmin].
  split; [done|]. split; [by apply (get_shortest_path_NoDup rr start e)|].
  split; [done|]. unfold distance. by rewrite Hp.
Qed.

Lemma shortest_path_is_shortest_witness :
  leads Final.rigid_relations0 "room1" ["room2"; "room5"; "room6"; "room9"]
    "room9" ∧
  NoDup ("room1" :: ["room2"; "room5"; "room6"; "room9"]) ∧
  (∀ path', leads Final.rigid_relations0 "room1" path' "room9" ->
            (length ["room2"; "room5"; "room6"; "room9"] ≤ length path')%nat) ∧
  distance Final.rigid_relations0 "room1" (Some "room9")
  = Ret (Z.of_nat (length ["room2"; "room5"; "room6"; "room9"])).
Proof.
  apply (shortest_path_is_shortest Final.rigid_relations0 "room1" "room9").
  vm_compute. reflexivity.
Defined.

(** X2.  Between two rooms of the adjacency graph [distance] is
    symmetric: [distance(loc1, loc2)] and [distance(loc2, loc1)] are the
    same number, or both raise [TypeError] when there is no path. *)
Theorem distance_symmetric (rr : Rigid) (loc1 loc2 : string) :
  vertex rr loc1 -> vertex rr loc2 ->
  distance rr loc1 (Some loc2) = distance rr loc2 (Some loc1).
Proof.
  intros H1 H2.
  destruct (get_shortest_path_spec rr loc1 loc2 H1)
    as [[Hn Hp]|(path & n & Hp & Hlen & Hs)].
  - destruct (distance_unreachable rr loc1 loc2 H1 Hn) as [_ ->].
    destruct (distance_unreachable rr loc2 loc1 H2) as [_ ->]; [|done].
    intros [m Hw]. apply Hn. exists m. by apply walk_sym.
  - destruct (distance_reachable rr loc2 loc1) as (m & -> & Hs').
    { exists n. apply walk_sym, Hs. }
    unfold distance. rewrite Hp. simpl. rewrite Hlen.
    by rewrite (shortest_unique _ _ _ _ _ Hs (shortest_sym _ _ _ _ Hs')).
Qed.

Lemma vertex_room9 : vertex Final.rigid_relations0 "room9".
Proof. apply final_locations_are_vertices. reflexivity. Defined.

Lemma distance_symmetric_witness :
  distance Final.rigid_relations0 "room1" (Some "room9")
  = distance Final.rigid_relations0 "room9" (Some "room1").
Proof.
  apply (distance_symmetric Final.rigid_relations0 "room1" "room9").
  - apply vertex_room1.
  - apply vertex_room9.
Defined.

(** X3.  Triangle inequality: when [distance(loc1, loc2)] and
    [distance(loc2, loc3)] return, so does [distance(loc1, loc3)], with at
    most their sum. *)
Theorem distance_triangle (rr : Rigid) (loc1 loc2 loc3 : string) (d12 d23 : Z) :
  distance rr loc1 (Some loc2) = Ret d12 ->
  distance rr loc2 (Some loc3) = Ret d23 ->
  ∃ d13, distance rr loc1 (Some loc3) = Ret d13 ∧ 0 ≤ d13 ≤ d12 + d23.
Proof.
  intros (n & -> & [Hw1 _])%distance_Ret_shortest
         (m & -> & [Hw2 _])%distance_Ret_shortest.
  destruct (distance_reachable rr loc1 loc3) as (k & -> & [_ Hmin]).
  { exists (n + m)%nat. by apply (walk_app _ _ loc2). }
  exists (Z.of_nat k). split; [done|].
  pose proof (Hmin _ (walk_app _ _ _ _ _ _ Hw1 Hw2)). lia.
Qed.

Lemma distance_triangle_witness :
  ∃ d13, distance Final.rigid_relations0 "room1" (Some "room9") = Ret d13 ∧
         0 ≤ d13 ≤ 2 + 3.
Proof.
  apply (distance_triangle Final.rigid_relations0 "room1" "room3" "room9");
    vm_compute; reflexivity.
Defined.

(** X4.  Between two different rooms that [is_adjacent] accepts, the
    shortest path is the one room [[loc2]] and the distance is 1. *)
Theorem adjacent_rooms_one_move (rr : Rigid) (loc1 loc2 : string) :
  is_adjacent rr loc1 loc2 = true -> loc1 ≠ loc2 ->
  get_shortest_path rr loc1 (Some loc2) = Ret (Some [loc2]) ∧
  distance rr loc1 (Some loc2) = Ret 1.
Proof.
  intros He%is_adjacent_edge Hne.
  assert (vertex rr loc1) as Hv by by exists loc2.
  destruct (get_shortest_path_spec rr loc1 loc2 Hv)
    as [[Hn _]|(path & n & Hp & Hlen & Hs)].
  { destruct Hn. exists 1%nat. apply (walk_snoc _ _ loc1); [constructor|done]. }
  destruct (get_shortest_path_leads rr _ _ _ Hp) as [Hl Hmin].
  specialize (Hmin [loc2]). simpl in Hmin.
  destruct path as [|x [|y path]]; simpl in *.
  - done.
  - destruct Hl as [_ ->]. unfold distance. by rewrite Hp.
  - assert (S (S (length path)) ≤ 1)%nat; [|lia]. by apply Hmin.
Qed.

Lemma adjacent_rooms_one_move_witness :
  get_shortest_path Final.rigid_relations0 "room4" (Some "room2")
  = Ret (Some ["room2"]) ∧
  distance Final.rigid_relations0 "room4" (Some "room2") = Ret 1.
Proof.
  apply (adjacent_rooms_one_move Final.rigid_relations0 "room4" "room2").
  - reflexivity.
  - discriminate.
Defined.

(** X5.  A start that occurs in no adjacency pair is no key of the graph
    [G]: [get_shortest_path] returns the empty path to the start itself
    and raises [KeyError] for any other end (also for [None]);
    [get_all_charging_station] raises [KeyError];
    [get_closest_charging_station] returns the start when it is a
    charging station (the graph is not consulted) and raises [KeyError]
    otherwise. *)
Theorem search_outside_graph (rr : Rigid) (cs : list string) (loc : string) :
  types rr !! "charging_stations" = Some cs -> ¬ vertex rr loc ->
  get_shortest_path rr loc (Some loc) = Ret (Some []) ∧
  (∀ e, e ≠ loc -> get_shortest_path rr loc (Some e) = Raise KeyError) ∧
  get_shortest_path rr loc None = Raise KeyError ∧
  get_all_charging_station rr loc = Raise KeyError ∧
  get_closest_charging_station rr loc =
    if bool_decide (loc ∈ cs) then Ret (Some loc) else Raise KeyError.
Proof.
  intros Hcs Hv.
  split; [|split; [|split; [|split]]].
  - rewrite get_shortest_path_isolated by done.
    by rewrite bool_decide_eq_true_2.
  - intros e He. rewrite get_shortest_path_isolated by done.
    rewrite bool_decide_eq_false_2; [done|]. by intros [= ->].
  - by rewrite get_shortest_path_isolated.
  - by apply get_all_charging_station_isolated.
  - unfold get_closest_charging_station.
    rewrite (is_charging_station_spec rr cs Hcs). simpl.
    case_bool_decide; [done|].
    by rewrite get_all_charging_station_isolated.
Qed.

Lemma search_outside_graph_witness :
  get_shortest_path Final.rigid_relations0 "room10" (Some "room10")
  = Ret (Some []) ∧
  (∀ e, e ≠ "room10" ->
        get_shortest_path Final.rigid_relations0 "room10" (Some e)
        = Raise KeyError) ∧
  get_shortest_path Final.rigid_relations0 "room10" None = Raise KeyError ∧
  get_all_charging_station Final.rigid_relations0 "room10" = Raise KeyError ∧
  get_closest_charging_station Final.rigid_relations0 "room10" =
    if bool_decide ("room10" ∈ ["room3"; "room6"; "room9"])
    then Ret (Some "room10") else Raise KeyError.
Proof.
  apply (search_outside_graph Final.rigid_relations0
           ["room3"; "room6"; "room9"] "room10").
  - reflexivity.
  - apply room10_no_vertex.
Defined.

(** * The operators: failures, bounds and sequences *)

(** The lookups and the decided guards among the hypotheses, as
    propositions. *)
Ltac dict_hyps :=
  repeat match goal with
         | H : dict_get _ _ = Ret _ |- _ => apply dict_get_Ret in H
         | H : bool_decide _ = true |- _ => apply bool_decide_eq_true in H
         | H : bool_decide _ = false |- _ => apply bool_decide_eq_false in H
         end.

(** [move], [drop] on arguments that pass the type check, in a state
    with the entries they look up. *)
Lemma move_run w R s e l b :
  is_a (rigid_relations w) R "robot" = Ret true ->
  is_a (rigid_relations w) s "loc" = Ret true ->
  is_a (rigid_relations w) e "loc" = Ret true ->
  loc (state w) !! R = Some l -> battery (state w) !! R = Some b ->
  Final.move R s e w =
    if is_adjacent (rigid_relations w) s e && bool_decide (s = l)
       && bool_decide (b > Final.COST_PER_MOVE)
    then (Ret true,
          mkWorld (rigid_relations w)
            (mkState (<[R := e]> (loc (state w))) (cargo (state w))
               (<[R := b - Final.COST_PER_MOVE]> (battery (state w)))))
    else (Ret false, w).
Proof.
  intros HR Hs He Hl Hb. unfold Final.move. run_m.
  rewrite HR. run_m. rewrite Hs. run_m. rewrite He. run_m.
  destruct (is_adjacent _ s e); run_m; [|done].
  unfold is_at. rewrite (dict_get_Some _ _ _ Hl). run_m.
  destruct (bool_decide (s = l)); run_m; [|done].
  rewrite (dict_get_Some _ _ _ Hb). run_m.
  destruct (bool_decide (b > _)); run_m; [|done].
  simpl. by rewrite (dict_get_Some _ _ _ Hb).
Qed.

Lemma list_remove_Raise x l : x ∉ l -> list_remove x l = Raise ValueError.
Proof.
  induction l as [|y l IH]; simpl; [done|].
  rewrite not_elem_of_cons. intros [Hxy Hl].
  rewrite decide_False by done. by rewrite IH.
Qed.

Lemma list_remove_other x y l l' :
  list_remove x l = Ret l' -> y ≠ x -> y ∈ l -> y ∈ l'.
Proof.
  revert l'. induction l as [|z l IH]; intros l'; simpl; [done|].
  destruct (decide (z = x)) as [->|Hz].
  - intros [= <-] Hy. rewrite elem_of_cons. naive_solver.
  - destruct (list_remove x l) as [l''|] eqn:Hr; simpl; [|done].
    intros [= <-] Hy. rewrite !elem_of_cons. naive_solver.
Qed.

Lemma drop_run w R c l cg :
  is_a (rigid_relations w) R "robot" = Ret true ->
  is_a (rigid_relations w) c "object" = Ret true ->
  loc (state w) !! c = Some R -> loc (state w) !! R = Some l ->
  cargo (state w) !! R = Some cg ->
  Final.drop R c w =
    match list_remove c cg with
    | Ret cg' =>
        (Ret true,
         mkWorld (rigid_relations w)
           (mkState (<[c := l]> (loc (state w)))
              (<[R := cg']> (cargo (state w))) (battery (state w))))
    | Raise e =>
        (Raise e,
         mkWorld (rigid_relations w)
           (mkState (<[c := l]> (loc (state w))) (cargo (state w))
              (battery (state w))))
    end.
Proof.
  intros HR Hc Hlc HlR Hcg. unfold Final.drop. run_m.
  rewrite HR. run_m. rewrite Hc. run_m.
  rewrite (dict_get_Some _ _ _ Hlc). run_m.
  rewrite bool_decide_eq_true_2 by done. run_m.
  rewrite (dict_get_Some _ _ _ HlR). run_m. simpl.
  rewrite (dict_get_Some _ _ _ Hcg). run_m.
  destruct (list_remove c cg); by run_m.
Qed.

(** X6.  An operator (move, pickup, drop, recharge) that returns [False]
    has changed nothing: the state and the rigid relations are as
    before. *)
Theorem operators_fail_closed (t : Final.task) (operator : M bool) (w w' : World) :
  Final.operators t = Some operator ->
  operator w = (Ret false, w') -> w' = w.
Proof.
  intros Hop H. destruct t; simpl in Hop; simplify_eq.
  - unfold Final.move in H. run_cases H; by simplify_eq.
  - unfold Final.pickup in H. run_cases H; by simplify_eq.
  - unfold Final.drop in H. run_cases H; by simplify_eq.
  - unfold Final.recharge in H. run_cases H; by simplify_eq.
Qed.

Lemma operators_fail_closed_witness :
  (Final.move "R1" "room1" "room4" final_world0).2 = final_world0.
Proof.
  apply (operators_fail_closed (Final.t_move "R1" "room1" "room4")
           (Final.move "R1" "room1" "room4") final_world0).
  - reflexivity.
  - vm_compute. reflexivity.
Defined.

(** X7.  Called with a name that is not a declared robot, each of the
    four operators returns [False] and changes nothing, whatever the
    state holds: the type check comes first and short-circuits every
    lookup in the state, so no [KeyError] is raised even on an empty
    state. *)
Theorem non_robot_rejected (w : World) (robots : list string) (R s e c : string) :
  types (rigid_relations w) !! "robot" = Some robots -> R ∉ robots ->
  Final.move R s e w = (Ret false, w) ∧
  Final.pickup R c w = (Ret false, w) ∧
  Final.drop R c w = (Ret false, w) ∧
  Final.recharge R w = (Ret false, w).
Proof.
  intros Hty HR.
  assert (is_a (rigid_relations w) R "robot" = Ret false) as Hno.
  { unfold is_a. rewrite (dict_get_Some _ _ _ Hty). simpl.
    by rewrite bool_decide_eq_false_2. }
  repeat split.
  - unfold Final.move. run_m. rewrite Hno. by run_m.
  - unfold Final.pickup. run_m. rewrite Hno. by run_m.
  - unfold Final.drop. run_m. rewrite Hno. by run_m.
  - unfold Final.recharge. run_m. rewrite Hno. by run_m.
Qed.

Lemma non_robot_rejected_witness :
  let w := mkWorld Final.rigid_relations0 (mkState ∅ ∅ ∅) in
  Final.move "c1" "room1" "room2" w = (Ret false, w) ∧
  Final.pickup "c1" "c2" w = (Ret false, w) ∧
  Final.drop "c1" "c2" w = (Ret false, w) ∧
  Final.recharge "c1" w = (Ret false, w).
Proof.
  apply (non_robot_rejected (mkWorld Final.rigid_relations0 (mkState ∅ ∅ ∅))
           ["R1"] "c1" "room1" "room2" "c2").
  - reflexivity.
  - apply (bool_decide_unpack _). by vm_compute.
Defined.

Lemma battery_in_range_insert st R b lo cg :
  battery_in_range st -> 0 < b ≤ Final.FULL_BATTERY ->
  battery_in_range (mkState lo cg (<[R := b]> (battery st))).
Proof.
  intros Hr Hb R' b'. simpl. rewrite lookup_insert.
  case_decide; [by intros [= <-]|apply Hr].
Qed.

Lemma final_operators_battery t operator w w' :
  Final.operators t = Some operator -> battery_in_range (state w) ->
  operator w = (Ret true, w') -> battery_in_range (state w').
Proof.
  intros Hop Hr H. destruct t; simpl in Hop; simplify_eq.
  - unfold Final.move in H. run_cases H. simplify_eq. simpl in *.
    apply battery_in_range_insert; [done|].
    dict_hyps. simplify_option_eq.
    match goal with
    | H : battery _ !! _ = Some _ |- _ => apply Hr in H
    end.
    unfold Final.COST_PER_MOVE, Final.FULL_BATTERY in *. lia.
  - unfold Final.pickup in H. run_cases H. simplify_eq. simpl in *.
    intros R' b'. apply Hr.
  - unfold Final.drop in H. run_cases H. simplify_eq. simpl in *.
    intros R' b'. apply Hr.
  - unfold Final.recharge in H. run_cases H. simplify_eq. simpl in *.
    apply battery_in_range_insert; [done|].
    unfold Final.FULL_BATTERY. lia.
Qed.

(** X8.  If every battery level is positive and at most [FULL_BATTERY],
    it is so again after any operator that succeeds; and a level that
    changes either drops by [COST_PER_MOVE] or becomes [FULL_BATTERY]. *)
Theorem battery_stays_in_range (t : Final.task) (operator : M bool) (w w' : World) :
  Final.operators t = Some operator -> battery_in_range (state w) ->
  operator w = (Ret true, w') ->
  battery_in_range (state w') ∧
  ∀ R b b', battery (state w) !! R = Some b ->
            battery (state w') !! R = Some b' ->
            b' = b ∨ b' = b - Final.COST_PER_MOVE ∨ b' = Final.FULL_BATTERY.
Proof.
  intros Hop Hr H. split; [by eapply final_operators_battery|].
  intros R' b b' Hb Hb'. destruct t; simpl in Hop; simplify_eq.
  - unfold Final.move in H. run_cases H. simplify_eq. simpl in *.
    dict_hyps. rewrite lookup_insert in Hb'. case_decide; simplify_eq; auto.
  - unfold Final.pickup in H. run_cases H. simplify_eq. simpl in *.
    left. congruence.
  - unfold Final.drop in H. run_cases H. simplify_eq. simpl in *.
    left. congruence.
  - unfold Final.recharge in H. run_cases H. simplify_eq. simpl in *.
    rewrite lookup_insert in Hb'. case_decide; simplify_eq; auto.
Qed.

Lemma battery_in_range_state0 : battery_in_range Final.state0.
Proof.
  intros R b. unfold Final.state0. simpl. rewrite lookup_insert.
  case_decide; [|by rewrite lookup_empty].
  intros [= <-]. unfold Final.FULL_BATTERY. lia.
Defined.

Lemma battery_stays_in_range_witness :
  battery_in_range (state (Final.move "R1" "room1" "room2" final_world0).2) ∧
  ∀ R b b', battery (state final_world0) !! R = Some b ->
            battery (state (Final.move "R1" "room1" "room2" final_world0).2)
              !! R = Some b' ->
            b' = b ∨ b' = b - Final.COST_PER_MOVE ∨ b' = Final.FULL_BATTERY.
Proof.
  apply (battery_stays_in_range (Final.t_move "R1" "room1" "room2")
           (Final.move "R1" "room1" "room2") final_world0).
  - reflexivity.
  - apply battery_in_range_state0.
  - vm_compute. reflexivity.
Defined.

(** Equality of two maps built by insertions, key by key. *)
Ltac map_eq_insert :=
  apply map_eq; intros ?; rewrite ?lookup_insert;
  repeat case_decide; simplify_eq; try done.

(** X9.  A robot with more than twice [COST_PER_MOVE] in its battery can
    move to an adjacent room and back: both moves succeed, and the world
    is as before except that the battery has lost twice the cost. *)
Theorem move_there_and_back (w : World) (R a b : string) (x : Z) :
  is_a (rigid_relations w) R "robot" = Ret true ->
  is_a (rigid_relations w) a "loc" = Ret true ->
  is_a (rigid_relations w) b "loc" = Ret true ->
  is_adjacent (rigid_relations w) a b = true ->
  loc (state w) !! R = Some a -> battery (state w) !! R = Some x ->
  x > 2 * Final.COST_PER_MOVE ->
  run_tasks Final.operators [Final.t_move R a b; Final.t_move R b a] w =
    Some (mkWorld (rigid_relations w)
            (mkState (loc (state w)) (cargo (state w))
               (<[R := x - 2 * Final.COST_PER_MOVE]> (battery (state w))))).
Proof.
  intros HR Ha Hb Hab Hl Hx Hgt. unfold Final.COST_PER_MOVE in Hgt.
  simpl. rewrite (move_run w R a b a x) by done.
  rewrite Hab, !bool_decide_eq_true_2 by (unfold Final.COST_PER_MOVE; lia || done).
  simpl.
  erewrite move_run; [|done..| |]; simpl.
  2: { by rewrite lookup_insert_eq. }
  2: { by rewrite lookup_insert_eq. }
  assert (is_adjacent (rigid_relations w) b a = true) as ->.
  { unfold is_adjacent in *. by rewrite orb_comm. }
  rewrite !bool_decide_eq_true_2 by (unfold Final.COST_PER_MOVE; lia || done).
  simpl. do 3 f_equal.
  - map_eq_insert.
  - unfold Final.COST_PER_MOVE. map_eq_insert. f_equal. lia.
Qed.

Lemma move_there_and_back_witness :
  run_tasks Final.operators
    [Final.t_move "R1" "room1" "room2"; Final.t_move "R1" "room2" "room1"]
    final_world0
  = Some (mkWorld Final.rigid_relations0
            (mkState (loc Final.state0) (cargo Final.state0)
               (<["R1" := 100 - 2 * Final.COST_PER_MOVE]>
                  (battery Final.state0)))).
Proof.
  apply (move_there_and_back final_world0 "R1" "room1" "room2" 100);
    reflexivity.
Defined.

(** X10.  [pickup] followed by [drop] of the same container by a robot
    with empty cargo succeeds and leaves the world as it was but for the
    container, which is now where the robot is; when it was there
    already, the world is exactly as before. *)
Theorem pickup_then_drop (w : World) (R c l : string) :
  is_a (rigid_relations w) R "robot" = Ret true ->
  is_a (rigid_relations w) c "object" = Ret true ->
  R ≠ c -> cargo (state w) !! R = Some [] -> loc (state w) !! R = Some l ->
  run_tasks Final.operators [Final.t_pickup R c; Final.t_drop R c] w =
    Some (mkWorld (rigid_relations w)
            (mkState (<[c := l]> (loc (state w))) (cargo (state w))
               (battery (state w)))) ∧
  (loc (state w) !! c = Some l ->
   run_tasks Final.operators [Final.t_pickup R c; Final.t_drop R c] w = Some w).
Proof.
  intros HR Hc Hne Hcg Hl.
  assert (run_tasks Final.operators [Final.t_pickup R c; Final.t_drop R c] w =
          Some (mkWorld (rigid_relations w)
                  (mkState (<[c := l]> (loc (state w))) (cargo (state w))
                     (battery (state w))))) as Hrun.
  { simpl. rewrite pickup_run, Hcg by done.
    erewrite (drop_run _ R c l [c]); simpl; [|done|done|..].
    - rewrite decide_True by done. do 3 f_equal; map_eq_insert.
    - by rewrite lookup_insert_eq.
    - by rewrite lookup_insert_ne.
    - by rewrite lookup_insert_eq. }
  split; [done|]. intros Hlc. rewrite Hrun. f_equal.
  rewrite insert_id by done. by destruct w as [rr []].
Qed.

Lemma pickup_then_drop_witness :
  let w := mkWorld Final.rigid_relations0
             (mkState (<["R1" := "room4"]> (<["c1" := "room4"]> ∅))
                (<["R1" := []]> ∅) (<["R1" := 100]> ∅)) in
  run_tasks Final.operators [Final.t_pickup "R1" "c1"; Final.t_drop "R1" "c1"] w =
    Some (mkWorld (rigid_relations w)
            (mkState (<["c1" := "room4"]> (loc (state w))) (cargo (state w))
               (battery (state w)))) ∧
  (loc (state w) !! "c1" = Some "room4" ->
   run_tasks Final.operators [Final.t_pickup "R1" "c1"; Final.t_drop "R1" "c1"] w = Some w).
Proof.
  apply (pickup_then_drop
           (mkWorld Final.rigid_relations0
              (mkState (<["R1" := "room4"]> (<["c1" := "room4"]> ∅))
                 (<["R1" := []]> ∅) (<["R1" := 100]> ∅))) "R1" "c1" "room4");
    (reflexivity || discriminate).
Defined.

(** X11.  Pickup, one move, drop: the container ends in the room the
    robot moved to, whatever its location before, the cargo list is empty
    again, and the battery has lost [COST_PER_MOVE]. *)
Theorem pickup_move_drop (w : World) (R c a b : string) (x : Z) :
  is_a (rigid_relations w) R "robot" = Ret true ->
  is_a (rigid_relations w) c "object" = Ret true ->
  is_a (rigid_relations w) a "loc" = Ret true ->
  is_a (rigid_relations w) b "loc" = Ret true ->
  is_adjacent (rigid_relations w) a b = true ->
  R ≠ c -> cargo (state w) !! R = Some [] -> loc (state w) !! R = Some a ->
  battery (state w) !! R = Some x -> x > Final.COST_PER_MOVE ->
  run_tasks Final.operators
    [Final.t_pickup R c; Final.t_move R a b; Final.t_drop R c] w =
    Some (mkWorld (rigid_relations w)
            (mkState (<[c := b]> (<[R := b]> (loc (state w))))
               (cargo (state w))
               (<[R := x - Final.COST_PER_MOVE]> (battery (state w))))).
Proof.
  intros HR Hc Ha Hb Hab Hne Hcg Hl Hx Hgt.
  simpl. rewrite pickup_run, Hcg by done.
  erewrite (move_run _ R a b a x); simpl; [|done..| |done].
  2: { by rewrite lookup_insert_ne. }
  rewrite Hab, !bool_decide_eq_true_2 by done. simpl.
  erewrite (drop_run _ R c b [c]); simpl; [|done|done|..].
  - rewrite decide_True by done. do 3 f_equal; map_eq_insert.
  - rewrite lookup_insert_ne by done. by rewrite lookup_insert_eq.
  - by rewrite lookup_insert_eq.
  - by rewrite lookup_insert_eq.
Qed.

Lemma pickup_move_drop_witness :
  let w := mkWorld Final.rigid_relations0
             (mkState (<["R1" := "room4"]> (<["c1" := "room4"]> ∅))
                (<["R1" := []]> ∅) (<["R1" := 100]> ∅)) in
  run_tasks Final.operators
    [Final.t_pickup "R1" "c1"; Final.t_move "R1" "room4" "room2";
     Final.t_drop "R1" "c1"] w =
    Some (mkWorld (rigid_relations w)
            (mkState (<["c1" := "room2"]> (<["R1" := "room2"]> (loc (state w))))
               (cargo (state w))
               (<["R1" := 100 - Final.COST_PER_MOVE]> (battery (state w))))).
Proof.
  apply (pickup_move_drop
           (mkWorld Final.rigid_relations0
              (mkState (<["R1" := "room4"]> (<["c1" := "room4"]> ∅))
                 (<["R1" := []]> ∅) (<["R1" := 100]> ∅)))
           "R1" "c1" "room4" "room2" 100);
    (reflexivity || discriminate).
Defined.

(** X12.  [drop] is not atomic.  When [state.loc[c]] names the robot but
    [c] is not in [state.cargo[R]], [state.cargo[R].remove(c)] raises
    [ValueError] after [state.loc[c]] has been overwritten with the
    robot's location. *)
Theorem drop_missing_cargo (w : World) (R c l : string) (cg : list string) :
  is_a (rigid_relations w) R "robot" = Ret true ->
  is_a (rigid_relations w) c "object" = Ret true ->
  loc (state w) !! c = Some R -> loc (state w) !! R = Some l ->
  cargo (state w) !! R = Some cg -> c ∉ cg ->
  Final.drop R c w =
    (Raise ValueError,
     mkWorld (rigid_relations w)
       (mkState (<[c := l]> (loc (state w))) (cargo (state w))
          (battery (state w)))).
Proof.
  intros HR Hc Hlc Hl Hcg Hno.
  rewrite (drop_run w R c l cg) by done.
  by rewrite list_remove_Raise.
Qed.

Lemma drop_missing_cargo_witness :
  let w := mkWorld Final.rigid_relations0
             (mkState (<["R1" := "room1"]> (<["c1" := "R1"]> ∅))
                (<["R1" := []]> ∅) (<["R1" := 100]> ∅)) in
  Final.drop "R1" "c1" w =
    (Raise ValueError,
     mkWorld (rigid_relations w)
       (mkState (<["c1" := "room1"]> (loc (state w))) (cargo (state w))
          (battery (state w)))).
Proof.
  apply (drop_missing_cargo
           (mkWorld Final.rigid_relations0
              (mkState (<["R1" := "room1"]> (<["c1" := "R1"]> ∅))
                 (<["R1" := []]> ∅) (<["R1" := 100]> ∅)))
           "R1" "c1" "room1" []); try reflexivity.
  apply not_elem_of_nil.
Defined.

(** Running a computation along the results recorded in the hypotheses. *)
Ltac replay :=
  repeat (run_m; simpl;
          match goal with
          | H : ?x = _ |- context [?x] => rewrite H
          end);
  run_m; simpl.

(** X13.  [recharge] is idempotent: a second [recharge] of the same
    robot gives the same answer and the same world as the first.  When it
    succeeds, the robot is at a charging station, its battery is
    [FULL_BATTERY], and locations and cargo are untouched. *)
Theorem recharge_idempotent (w : World) (R : string) :
  Final.recharge R (Final.recharge R w).2 = Final.recharge R w ∧
  ((Final.recharge R w).1 = Ret true ->
   battery (state (Final.recharge R w).2) !! R = Some Final.FULL_BATTERY ∧
   loc (state (Final.recharge R w).2) = loc (state w) ∧
   cargo (state (Final.recharge R w).2) = cargo (state w) ∧
   ∃ l cs, loc (state w) !! R = Some l ∧
     types (rigid_relations w) !! "charging_stations" = Some cs ∧ l ∈ cs).
Proof.
  destruct (Final.recharge R w) as [r w'] eqn:H. simpl.
  unfold Final.recharge in H. run_cases H; simplify_eq; simpl.
  all: split; [unfold Final.recharge; replay; try done|try done].
  - do 3 f_equal. map_eq_insert.
  - intros _. rewrite lookup_insert_eq. split; [done|].
    split; [done|]. split; [done|].
    match goal with
    | H : dict_get (loc _) _ = Ret ?l |- _ =>
        apply dict_get_Ret in H; exists l
    end.
    match goal with
    | H : is_charging_station _ _ = Ret true |- _ =>
        unfold is_charging_station in H;
        destruct (types (rigid_relations w) !! "charging_stations") as [cs|]
          eqn:Hty;
        [rewrite (dict_get_Some _ _ _ Hty) in H
        |by rewrite (dict_get_None _ _ Hty) in H]
    end.
    simplify_eq/=. exists cs. split; [done|]. split; [done|].
    by dict_hyps.
Qed.

(** * Well-formed states *)

Lemma robot_no_object x :
  is_a Final.rigid_relations0 x "robot" = Ret true ->
  is_a Final.rigid_relations0 x "object" = Ret true -> False.
Proof.
  intros [= H1%bool_decide_eq_true] [= H2%bool_decide_eq_true].
  apply list_elem_of_singleton in H1 as ->.
  revert H2. apply (bool_decide_unpack _). by vm_compute.
Qed.

Lemma robot_no_room x :
  is_a Final.rigid_relations0 x "robot" = Ret true ->
  is_a Final.rigid_relations0 x "loc" = Ret true -> False.
Proof.
  intros [= H1%bool_decide_eq_true] [= H2%bool_decide_eq_true].
  apply list_elem_of_singleton in H1 as ->.
  revert H2. apply (bool_decide_unpack _). by vm_compute.
Qed.

Section WellFormed.
Context (st : State).
Hypothesis Hwf : well_formed st.

(** The updates of the operators keep a state well-formed. *)
Lemma well_formed_move R e b :
  is_a Final.rigid_relations0 R "robot" = Ret true ->
  is_a Final.rigid_relations0 e "loc" = Ret true ->
  well_formed (mkState (<[R := e]> (loc st)) (cargo st)
                 (<[R := b]> (battery st))).
Proof.
  intros HR He. destruct Hwf as [Hr Ho Hc]. split; simpl.
  - intros R' HR'. destruct (Hr R' HR') as (l & cg & b' & Hl & Hll & Hcg & Hb).
    rewrite !lookup_insert. case_decide; simplify_eq; eauto 10.
  - intros c Hc'. rewrite lookup_insert. case_decide; eauto.
  - intros R' c HR' Hc'. rewrite lookup_insert. case_decide; simplify_eq.
    + destruct (robot_no_object _ HR Hc').
    + by apply Hc.
Qed.

Lemma well_formed_pickup R c :
  is_a Final.rigid_relations0 R "robot" = Ret true ->
  is_a Final.rigid_relations0 c "object" = Ret true ->
  cargo st !! R = Some [] ->
  well_formed (mkState (<[c := R]> (loc st)) (<[R := [c]]> (cargo st))
                 (battery st)).
Proof.
  intros HR Hc' Hcg0. destruct Hwf as [Hr Ho Hc]. split; simpl.
  - intros R' HR'. destruct (Hr R' HR') as (l & cg & b' & Hl & Hll & Hcg & Hb).
    rewrite !lookup_insert. case_decide; simplify_eq.
    { destruct (robot_no_object _ HR' Hc'). }
    case_decide; simplify_eq; eauto 10.
  - intros c0 Hc0. rewrite lookup_insert. case_decide; eauto.
  - intros R' c0 HR' Hc0. rewrite !lookup_insert. case_decide; simplify_eq.
    + intros [= <-]. rewrite decide_True by done. exists [c0].
      split; [done|]. by left.
    + intros Hl. destruct (Hc R' c0 HR' Hc0 Hl) as (cg & Hcg & Hin).
      case_decide; simplify_eq; [|eauto]. by apply elem_of_nil in Hin.
Qed.

Lemma well_formed_drop R c l cg cg' :
  is_a Final.rigid_relations0 R "robot" = Ret true ->
  is_a Final.rigid_relations0 c "object" = Ret true ->
  loc st !! R = Some l -> cargo st !! R = Some cg ->
  list_remove c cg = Ret cg' ->
  well_formed (mkState (<[c := l]> (loc st)) (<[R := cg']> (cargo st))
                 (battery st)).
Proof.
  intros HR Hc' Hl Hcg Hrm. destruct Hwf as [Hr Ho Hc].
  destruct (Hr R HR) as (l0 & cg0 & b0 & Hl0 & Hll0 & Hcg0 & Hb0).
  simplify_eq. split; simpl.
  - intros R' HR'. destruct (Hr R' HR') as (l1 & cg1 & b' & Hl' & Hll & Hcg1 & Hb).
    rewrite !lookup_insert. case_decide; simplify_eq.
    { destruct (robot_no_object _ HR' Hc'). }
    case_decide; simplify_eq; eauto 10.
  - intros c0 Hc0. rewrite lookup_insert. case_decide; eauto.
  - intros R' c0 HR' Hc0. rewrite !lookup_insert. case_decide; simplify_eq.
    + intros [= <-]. destruct (robot_no_room _ HR' Hll0).
    + intros Hl'. destruct (Hc R' c0 HR' Hc0 Hl') as (cg1 & Hcg1 & Hin).
      case_decide; simplify_eq; [|eauto]. exists cg'. split; [done|].
      eapply list_remove_other; eauto.
Qed.

Lemma well_formed_recharge R b :
  well_formed (mkState (loc st) (cargo st) (<[R := b]> (battery st))).
Proof.
  destruct Hwf as [Hr Ho Hc]. split; simpl; [|done..].
  intros R' HR'. destruct (Hr R' HR') as (l & cg & b' & Hl & Hll & Hcg & Hb).
  rewrite lookup_insert. case_decide; simplify_eq; eauto 10.
Qed.

End WellFormed.

Lemma list_remove_Ret x l : x ∈ l -> ∃ l', list_remove x l = Ret l'.
Proof.
  induction l as [|y l IH]; simpl; [by intros ?%elem_of_nil|].
  destruct (decide (y = x)); [eauto|].
  rewrite elem_of_cons. intros [->|Hin]; [done|].
  destruct (IH Hin) as [l' ->]. simpl. eauto.
Qed.

(** What a well-formed state holds for the robot of a passed type check. *)
Ltac wf_robot_facts Hwf :=
  match goal with
  | E : is_a _ ?R "robot" = Ret true |- _ =>
      let l := fresh "l" in let cg := fresh "cg" in let b := fresh "b" in
      let Hl := fresh "Hl" in let Hll := fresh "Hll" in
      let Hcg := fresh "Hcg" in let Hb := fresh "Hb" in
      destruct (wf_robot _ Hwf R E) as (l & cg & b & Hl & Hll & Hcg & Hb);
      unfold is_at in *; simpl in *;
      rewrite ?(dict_get_Some _ _ _ Hl), ?(dict_get_Some _ _ _ Hcg),
        ?(dict_get_Some _ _ _ Hb) in *
  end.

(** No operator raises in a well-formed state, and the state it leaves
    is well-formed. *)
Lemma final_operators_safe adj st t operator :
  Final.operators t = Some operator -> well_formed st ->
  ∃ ok st', operator (Final.world adj st) = (Ret ok, Final.world adj st') ∧
            well_formed st'.
Proof.
  intros Hop Hwf. destruct (operator (Final.world adj st)) as [r w'] eqn:H.
  destruct t; simpl in Hop; simplify_eq.
  - unfold Final.move in H. run_cases H; simplify_eq.
    all: try (by exists false, st).
    all: wf_robot_facts Hwf; simplify_eq/=.
    exists true. eexists. split; [reflexivity|].
    by apply well_formed_move.
  - unfold Final.pickup in H. run_cases H; simplify_eq.
    all: try (by exists false, st).
    all: wf_robot_facts Hwf; simplify_eq/=.
    exists true. eexists. split; [reflexivity|].
    match goal with
    | H : bool_decide (length ?a = 0%nat) = true |- _ => destruct a; [|done]
    end.
    by apply well_formed_pickup.
  - unfold Final.drop in H. run_cases H; simplify_eq.
    all: try (by exists false, st).
    all: wf_robot_facts Hwf; simplify_eq/=.
    + exists true. eexists. split; [reflexivity|].
      by eapply well_formed_drop.
    + dict_hyps. simplify_eq.
      match goal with
      | Hr : is_a _ ?R "robot" = Ret true, Hc : is_a _ ?c "object" = Ret true,
        Hl : loc st !! ?c = Some ?R |- _ =>
          destruct (wf_carried _ Hwf R c Hr Hc Hl) as (cg' & Hcg' & Hin)
      end.
      simplify_eq.
      match goal with
      | H : list_remove _ _ = Raise _ |- _ =>
          destruct (list_remove_Ret _ _ Hin) as [? ?]; congruence
      end.
    + match goal with
      | Hc : is_a _ ?c "object" = Ret true |- _ =>
          destruct (wf_object _ Hwf c Hc) as [l' Hl']
      end.
      rewrite (dict_get_Some _ _ _ Hl') in *. simplify_eq.
  - unfold Final.recharge in H. run_cases H; simplify_eq.
    all: try (by exists false, st).
    all: wf_robot_facts Hwf; simplify_eq/=.
    + exists true. eexists. split; [reflexivity|].
      by apply well_formed_recharge.
Qed.

(** X14.  In a well-formed state of final_warehouse_robot.py no operator
    raises, whatever its arguments and whatever the adjacency relation:
    it returns [True] or [False], the state it leaves is well-formed
    again, and it is the same state when the answer is [False]. *)
Theorem operators_safe (adj : list (string * string)) (st : State)
    (t : Final.task) (operator : M bool) :
  Final.operators t = Some operator -> well_formed st ->
  ∃ ok st', operator (Final.world adj st) = (Ret ok, Final.world adj st') ∧
            well_formed st' ∧ (ok = false -> st' = st).
Proof.
  intros Hop Hwf.
  destruct (final_operators_safe adj st t operator Hop Hwf)
    as (ok & st' & Hrun & Hwf').
  exists ok, st'. split; [done|]. split; [done|]. intros ->.
  assert (Final.world adj st' = Final.world adj st) as [= ->]; [|done].
  destruct t; simpl in Hop; simplify_eq.
  - unfold Final.move in Hrun. run_cases Hrun; by simplify_eq.
  - unfold Final.pickup in Hrun. run_cases Hrun; by simplify_eq.
  - unfold Final.drop in Hrun. run_cases Hrun; by simplify_eq.
  - unfold Final.recharge in Hrun. run_cases Hrun; by simplify_eq.
Qed.

Lemma well_formed_state0 : well_formed Final.state0.
Proof.
  split.
  - intros R [= HR%bool_decide_eq_true].
    apply list_elem_of_singleton in HR as ->.
    exists "room1", [], 100. by repeat split.
  - intros c [= Hc%bool_decide_eq_true].
    repeat (apply elem_of_cons in Hc as [->|Hc]); [by eexists..|].
    by apply elem_of_nil in Hc.
  - intros R c [= HR%bool_decide_eq_true] [= Hc%bool_decide_eq_true].
    apply list_elem_of_singleton in HR as ->.
    repeat (apply elem_of_cons in Hc as [->|Hc]); [by intros [=]..|].
    by apply elem_of_nil in Hc.
Defined.

Lemma operators_safe_witness :
  ∃ ok st',
    Final.move "R1" "room1" "room2"
      (Final.world (adjacent Final.rigid_relations0) Final.state0)
    = (Ret ok, Final.world (adjacent Final.rigid_relations0) st') ∧
    well_formed st' ∧ (ok = false -> st' = Final.state0).
Proof.
  apply (operators_safe (adjacent Final.rigid_relations0) Final.state0
           (Final.t_move "R1" "room1" "room2")).
  - reflexivity.
  - apply well_formed_state0.
Defined.

Lemma cargo_bounded_state0 : cargo_bounded Final.state0.
Proof.
  intros R l. unfold Final.state0. simpl. rewrite lookup_insert.
  case_decide; [intros [= <-]; simpl; lia|]. by rewrite lookup_empty.
Defined.

(** X15.  Executing any sequence of primitive tasks that all succeed,
    from a well-formed state with batteries in range and at most one item
    per cargo list, ends in such a state again, under the same rigid
    relations. *)
Theorem run_tasks_keeps_invariants (adj : list (string * string))
    (ts : list Final.task) (st : State) (w' : World) :
  well_formed st -> battery_in_range st -> cargo_bounded st ->
  run_tasks Final.operators ts (Final.world adj st) = Some w' ->
  ∃ st', w' = Final.world adj st' ∧
         well_formed st' ∧ battery_in_range st' ∧ cargo_bounded st'.
Proof.
  revert st. induction ts as [|t ts IH]; intros st Hwf Hbat Hcg; simpl.
  - intros [= <-]. by exists st.
  - destruct (Final.operators t) as [operator|] eqn:Hop; [|done].
    destruct (final_operators_safe adj st t operator Hop Hwf)
      as (ok & st1 & Hrun & Hwf1).
    rewrite Hrun. destruct ok; [|done].
    apply IH; [done| |].
    + by apply (final_operators_battery t operator (Final.world adj st)
                  (Final.world adj st1) Hop).
    + by apply (final_operators_cargo t operator (Final.world adj st)
                  (Final.world adj st1) Hop).
Qed.

Lemma run_tasks_keeps_invariants_witness :
  ∃ st',
    mkWorld Final.rigid_relations0
      (mkState (<["c1" := "room2"]> (<["R1" := "room2"]> (loc Final.state0)))
         (cargo Final.state0) (<["R1" := 40]> (battery Final.state0)))
    = Final.world (adjacent Final.rigid_relations0) st' ∧
    well_formed st' ∧ battery_in_range st' ∧ cargo_bounded st'.
Proof.
  apply (run_tasks_keeps_invariants (adjacent Final.rigid_relations0)
           [Final.t_move "R1" "room1" "room2"; Final.t_move "R1" "room2" "room4";
            Final.t_pickup "R1" "c1"; Final.t_move "R1" "room4" "room2";
            Final.t_drop "R1" "c1"] Final.state0).
  - apply well_formed_state0.
  - apply battery_in_range_state0.
  - apply cargo_bounded_state0.
  - vm_compute. reflexivity.
Defined.

(** * The execution-time move *)

Lemma is_a_without_edge w v ty :
  is_a (rigid_relations (without_edge w)) v ty = is_a (rigid_relations w) v ty.
Proof. reflexivity. Qed.

Lemma state_without_edge w : state (without_edge w) = state w.
Proof. reflexivity. Qed.

(** The same in a world that has lost the edge, without unfolding it. *)
Ltac replay_keep :=
  repeat (run_m; rewrite ?is_a_without_edge, ?state_without_edge;
          match goal with
          | H : ?x = _ |- context [?x] => rewrite H
          end);
  run_m.

(** X16.  Away from the pair room2/room4 the execution-time operator
    [move_exec] is the planning operator [move]: same answer, same
    world. *)
Theorem move_exec_agrees_with_move (w : World) (R start_loc end_loc : string) :
  ¬ (start_loc = "room4" ∧ end_loc = "room2") ->
  ¬ (start_loc = "room2" ∧ end_loc = "room4") ->
  Final.move_exec R start_loc end_loc w = Final.move R start_loc end_loc w.
Proof.
  intros H1 H2. unfold Final.move_exec, Final.move.
  rewrite (bool_decide_eq_false_2 _ H1), (bool_decide_eq_false_2 _ H2).
  reflexivity.
Qed.

Lemma move_exec_agrees_with_move_witness :
  Final.move_exec "R1" "room1" "room2" final_world0
  = Final.move "R1" "room1" "room2" final_world0.
Proof.
  apply (move_exec_agrees_with_move final_world0 "R1" "room1" "room2");
    intros [? ?]; discriminate.
Defined.

Lemma is_adjacent_without_edge w x y :
  is_adjacent (rigid_relations (without_edge w)) x y =
    bool_decide ((x, y) ∈ adjacent (rigid_relations w) ∧
                 (x, y) ≠ ("room2", "room4"))
    || bool_decide ((y, x) ∈ adjacent (rigid_relations w) ∧
                    (y, x) ≠ ("room2", "room4")).
Proof.
  unfold is_adjacent, without_edge. simpl. f_equal.
  - apply bool_decide_ext. rewrite list_elem_of_filter. naive_solver.
  - apply bool_decide_ext. rewrite list_elem_of_filter. naive_solver.
Qed.

(** X17.  Where [move] would succeed between room2 and room4,
    [move_exec] does not move the robot: it pops the key
    [('room2', 'room4')] from the adjacency dictionary and returns
    [False], or raises [KeyError] when the dictionary has no such key (the
    edge being stored as [('room4', 'room2')]).  After the pop, unless the
    reversed key is present, both [move] and [move_exec] between the two
    rooms return [False] and change nothing more; the adjacency of all
    other pairs of rooms is as before. *)
Theorem move_exec_blocked_edge (w : World) (R start_loc end_loc : string) :
  (Final.move R start_loc end_loc w).1 = Ret true ->
  (start_loc = "room2" ∧ end_loc = "room4") ∨
  (start_loc = "room4" ∧ end_loc = "room2") ->
  Final.move_exec R start_loc end_loc w =
    (if bool_decide (("room2", "room4") ∈ adjacent (rigid_relations w))
     then (Ret false, without_edge w) else (Raise KeyError, w)) ∧
  (("room4", "room2") ∉ adjacent (rigid_relations w) ->
   Final.move R start_loc end_loc (without_edge w)
   = (Ret false, without_edge w) ∧
   Final.move_exec R start_loc end_loc (without_edge w)
   = (Ret false, without_edge w)) ∧
  (∀ x y, ¬ (x = "room2" ∧ y = "room4") -> ¬ (x = "room4" ∧ y = "room2") ->
     is_adjacent (rigid_relations (without_edge w)) x y
     = is_adjacent (rigid_relations w) x y).
Proof.
  intros H Hse. destruct (Final.move R start_loc end_loc w) as [r w1] eqn:Hm.
  simpl in H. subst r. unfold Final.move in Hm. run_cases Hm. clear Hm.
  split; [|split].
  - unfold Final.move_exec. replay.
    assert (bool_decide (start_loc = "room4" ∧ end_loc = "room2")
            || bool_decide (start_loc = "room2" ∧ end_loc = "room4") = true)
      as ->.
    { destruct Hse as [Hse|Hse].
      - rewrite (bool_decide_eq_true_2 _ Hse). apply orb_true_r.
      - by rewrite (bool_decide_eq_true_2 _ Hse). }
    unfold adjacent_pop. run_m. destruct (bool_decide (_ ∈ _)); reflexivity.
  - intros Hrev.
    assert (is_adjacent (rigid_relations (without_edge w)) start_loc end_loc
            = false) as Hno.
    { rewrite is_adjacent_without_edge.
      destruct Hse as [[-> ->]|[-> ->]].
      - rewrite !bool_decide_eq_false_2; [done|naive_solver..].
      - rewrite !bool_decide_eq_false_2; [done|naive_solver..]. }
    split.
    + unfold Final.move. run_m.
      by replay_keep.
    + unfold Final.move_exec. run_m.
      by replay_keep.
  - intros x y Hxy Hyx. rewrite is_adjacent_without_edge. unfold is_adjacent.
    f_equal; apply bool_decide_ext; naive_solver.
Qed.

Lemma move_exec_blocked_edge_witness :
  let w := mkWorld Final.rigid_relations0
             (mkState (<["R1" := "room2"]> ∅) (<["R1" := []]> ∅)
                (<["R1" := 100]> ∅)) in
  Final.move_exec "R1" "room2" "room4" w =
    (if bool_decide (("room2", "room4") ∈ adjacent (rigid_relations w))
     then (Ret false, without_edge w) else (Raise KeyError, w)) ∧
  (("room4", "room2") ∉ adjacent (rigid_relations w) ->
   Final.move "R1" "room2" "room4" (without_edge w)
   = (Ret false, without_edge w) ∧
   Final.move_exec "R1" "room2" "room4" (without_edge w)
   = (Ret false, without_edge w)) ∧
  (∀ x y, ¬ (x = "room2" ∧ y = "room4") -> ¬ (x = "room4" ∧ y = "room2") ->
     is_adjacent (rigid_relations (without_edge w)) x y
     = is_adjacent (rigid_relations w) x y).
Proof.
  apply (move_exec_blocked_edge
           (mkWorld Final.rigid_relations0
              (mkState (<["R1" := "room2"]> ∅) (<["R1" := []]> ∅)
                 (<["R1" := 100]> ∅))) "R1" "room2" "room4").
  - vm_compute. reflexivity.
  - left. split; reflexivity.
Defined.

(** * The travel methods *)

Lemma leads_nonempty rr a path b : leads rr a path b -> a ≠ b -> path ≠ [].
Proof. by destruct path. Qed.

(** The moves along a path of adjacent declared rooms all succeed when
    the battery holds more than the cost of every one of them. *)
Lemma run_moves_along R dest path : ∀ w lR b,
  is_a (rigid_relations w) R "robot" = Ret true ->
  (∀ x, vertex (rigid_relations w) x ->
        is_a (rigid_relations w) x "loc" = Ret true) ->
  leads (rigid_relations w) lR path dest ->
  loc (state w) !! R = Some lR -> battery (state w) !! R = Some b ->
  b > Final.COST_PER_MOVE * Z.of_nat (length path) ->
  ∃ w', run_tasks Final.operators (Final.moves_along R lR path) w = Some w' ∧
    rigid_relations w' = rigid_relations w ∧
    loc (state w') = <[R := dest]> (loc (state w)) ∧
    cargo (state w') = cargo (state w) ∧
    battery (state w') =
      <[R := b - Final.COST_PER_MOVE * Z.of_nat (length path)]>
        (battery (state w)).
Proof.
  induction path as [|x path IH]; intros w lR b HR Hrooms Hl HlR Hb Hgt.
  - simpl in *. subst. exists w. split; [done|]. split; [done|].
    rewrite insert_id by done. split; [done|]. split; [done|].
    rewrite Z.mul_0_r, Z.sub_0_r. by rewrite insert_id.
  - destruct Hl as [He Hl]. simpl.
    assert (is_adjacent (rigid_relations w) lR x = true) as Hadj
      by by apply is_adjacent_edge.
    rewrite (move_run w R lR x lR b); [|done|apply Hrooms; by exists x
                                       |apply Hrooms; by eapply edge_vertex_r
                                       |done..].
    rewrite Hadj, !bool_decide_eq_true_2;
      [|unfold Final.COST_PER_MOVE in *; simpl length in Hgt; lia|done].
    simpl.
    edestruct (IH (mkWorld (rigid_relations w)
                     (mkState (<[R := x]> (loc (state w))) (cargo (state w))
                        (<[R := b - Final.COST_PER_MOVE]> (battery (state w)))))
                 x (b - Final.COST_PER_MOVE))
      as (w' & Hrun & Hrr & Hloc & Hcg & Hbat); simpl; try done.
    + by rewrite lookup_insert_eq.
    + by rewrite lookup_insert_eq.
    + unfold Final.COST_PER_MOVE in *. simpl length in Hgt. lia.
    + simpl in Hrr, Hloc, Hcg, Hbat.
      exists w'. split; [done|]. split; [done|].
      rewrite Hloc, Hbat, insert_insert_eq. split; [done|]. split; [done|].
      rewrite insert_insert_eq. f_equal. simpl length. lia.
Qed.

Lemma distance_None_raises rr a x : distance rr a None = Ret x -> False.
Proof.
  destruct (vertex_dec rr a) as [Hv|Hv].
  - by rewrite distance_None.
  - unfold distance. by rewrite get_shortest_path_isolated.
Qed.

(** What [travel_with1] has checked when it returns subtasks. *)
Lemma travel_with1_Some w R dest i ex moves w' :
  Final.travel_with1 R dest i ex w = (Ret (Some moves), w') ->
  ∃ lR b path s d2,
    i = 0 ∧ loc (state w) !! R = Some lR ∧ battery (state w) !! R = Some b ∧
    lR ≠ dest ∧ is_a (rigid_relations w) dest "loc" = Ret true ∧
    get_shortest_path (rigid_relations w) lR (Some dest) = Ret (Some path) ∧
    moves = Final.moves_along R lR path ∧
    get_closest_charging_station (rigid_relations w) dest = Ret (Some s) ∧
    distance (rigid_relations w) dest (Some s) = Ret d2 ∧
    b > Final.COST_PER_MOVE * (Z.of_nat (length path) + d2).
Proof.
  intros H. unfold Final.travel_with1, Final.travel_cost in H.
  run_cases H; simplify_eq. dict_hyps. simplify_eq.
  match goal with
  | H1 : distance _ ?a (Some dest) = Ret ?d,
    H2 : get_shortest_path _ ?a (Some dest) = Ret (Some ?l) |- _ =>
      unfold distance in H1; rewrite H2 in H1; simpl in H1;
      injection H1 as <-
  end.
  match goal with
  | H1 : get_closest_charging_station _ dest = Ret ?o,
    H2 : distance _ dest ?o = Ret _ |- _ =>
      destruct o as [s|]; [|by apply distance_None_raises in H2]
  end.
  eauto 15.
Qed.

(** X18.  The moves that [travel_with1] returns can be executed: for a
    declared robot, when every room of the adjacency graph is a declared
    location, the [move] operators succeed one after the other and bring
    the robot to [dest]; the battery pays [COST_PER_MOVE] per move and
    keeps more than the cost of the way from [dest] to its closest
    charging station. *)
Theorem travel_with1_executes (w w' : World) (R dest : string) (i : Z)
    (excluded_stations : list string) (moves : list Final.task) :
  is_a (rigid_relations w) R "robot" = Ret true ->
  (∀ x, vertex (rigid_relations w) x ->
        is_a (rigid_relations w) x "loc" = Ret true) ->
  Final.travel_with1 R dest i excluded_stations w = (Ret (Some moves), w') ->
  ∃ b s d w'',
    battery (state w) !! R = Some b ∧
    get_closest_charging_station (rigid_relations w) dest = Ret (Some s) ∧
    distance (rigid_relations w) dest (Some s) = Ret d ∧
    run_tasks Final.operators moves w = Some w'' ∧
    loc (state w'') !! R = Some dest ∧
    battery (state w'') !! R
    = Some (b - Final.COST_PER_MOVE * Z.of_nat (length moves)) ∧
    b - Final.COST_PER_MOVE * Z.of_nat (length moves)
    > Final.COST_PER_MOVE * d ∧ 0 ≤ d.
Proof.
  intros HR Hrooms H.
  apply travel_with1_Some in H
    as (lR & b & path & s & d2 & -> & HlR & Hb & Hne & Hdest & Hp & -> & Hs
        & Hd & Hgt).
  apply get_shortest_path_leads in Hp as [Hl _].
  apply distance_Ret_shortest in Hd as Hd'. destruct Hd' as (n & -> & _).
  assert (length (Final.moves_along R lR path) = length path) as Hlen.
  { clear. revert lR. induction path; intros; simpl; [done|]. by rewrite IHpath. }
  destruct (run_moves_along R dest path w lR b HR Hrooms Hl HlR Hb)
    as (w'' & Hrun & _ & Hloc & _ & Hbat).
  { unfold Final.COST_PER_MOVE in *. lia. }
  exists b, s, (Z.of_nat n), w''. rewrite Hlen, Hloc, Hbat, !lookup_insert_eq.
  repeat split; try done; unfold Final.COST_PER_MOVE in *; lia.
Qed.

Lemma final_vertices_are_locations x :
  vertex Final.rigid_relations0 x ->
  is_a Final.rigid_relations0 x "loc" = Ret true.
Proof.
  intros [y [H|H]]; simpl in H;
    repeat (apply elem_of_cons in H as [[= -> ->]|H]; [reflexivity|]);
    by apply elem_of_nil in H.
Defined.

Lemma travel_with1_executes_witness :
  ∃ b s d w'',
    battery (state final_world0) !! "R1" = Some b ∧
    get_closest_charging_station (rigid_relations final_world0) "room4"
    = Ret (Some s) ∧
    distance (rigid_relations final_world0) "room4" (Some s) = Ret d ∧
    run_tasks Final.operators
      [Final.t_move "R1" "room1" "room2"; Final.t_move "R1" "room2" "room4"]
      final_world0 = Some w'' ∧
    loc (state w'') !! "R1" = Some "room4" ∧
    battery (state w'') !! "R1"
    = Some (b - Final.COST_PER_MOVE *
                Z.of_nat (length [Final.t_move "R1" "room1" "room2";
                                  Final.t_move "R1" "room2" "room4"])) ∧
    b - Final.COST_PER_MOVE *
        Z.of_nat (length [Final.t_move "R1" "room1" "room2";
                          Final.t_move "R1" "room2" "room4"])
    > Final.COST_PER_MOVE * d ∧ 0 ≤ d.
Proof.
  apply (travel_with1_executes final_world0 final_world0 "R1" "room4" 0 []).
  - reflexivity.
  - apply final_vertices_are_locations.
  - vm_compute. reflexivity.
Defined.

(** The head of a filtered list is the first element that passes. *)
Lemma head_filter_Some {A} (P : A -> Prop) `{∀ x, Decision (P x)} (l : list A) s :
  head (filter P l) = Some s ->
  ∃ i, l !! i = Some s ∧ P s ∧ ∀ j t, (j < i)%nat -> l !! j = Some t -> ¬ P t.
Proof.
  induction l as [|x l IH]; [done|].
  rewrite filter_cons. destruct (decide (P x)) as [HP|HP].
  - intros [= ->]. exists 0%nat. split; [done|]. split; [done|]. lia.
  - intros (i & Hi & Hs & Hmin)%IH. exists (S i). split; [done|].
    split; [done|]. intros [|j] t Hj; simpl; [by intros [= <-]|].
    apply Hmin. lia.
Qed.

(** X19.  When [travel_with2] returns subtasks, it is the one task
    [travel_via] through a charging station that is reachable from
    [dest], is not [dest], is not excluded, and is nearest to [dest] among
    such stations; [other_stations] are exactly the remaining ones. *)
Theorem travel_with2_nearest_station (w w' : World) (cs : list string)
    (R dest : string) (i : Z) (excluded_stations : list string)
    (subtasks : list Final.task) :
  types (rigid_relations w) !! "charging_stations" = Some cs ->
  Final.travel_with2 R dest i excluded_stations w = (Ret (Some subtasks), w') ->
  ∃ station other_stations,
    subtasks = [Final.t_travel_via R dest station other_stations
                  excluded_stations i] ∧
    0 < i ∧ station ∈ cs ∧ (station ∉ excluded_stations) ∧ station ≠ dest ∧
    reachable (rigid_relations w) dest station ∧
    (∀ t ds dt, t ∈ cs -> t ∉ excluded_stations -> t ≠ dest ->
       shortest (rigid_relations w) dest station ds ->
       shortest (rigid_relations w) dest t dt -> (ds ≤ dt)%nat) ∧
    (∀ t, t ∈ other_stations ↔
          t ∈ cs ∧ (t ∉ excluded_stations) ∧ t ≠ dest ∧ t ≠ station ∧
          reachable (rigid_relations w) dest t).
Proof.
  intros Hcs H. unfold Final.travel_with2 in H. run_cases H; simplify_eq.
  dict_hyps.
  match goal with
  | H : get_all_charging_station _ dest = Ret ?l |- _ =>
      rename H into Hall; rename l into stations
  end.
  match goal with
  | H : filter _ stations = ?s :: ?o |- _ =>
      rename H into Hf; rename s into station; rename o into others
  end.
  assert (vertex (rigid_relations w') dest) as Hv.
  { destruct (vertex_dec (rigid_relations w') dest) as [Hv|Hv]; [done|].
    by rewrite get_all_charging_station_isolated in Hall. }
  destruct (get_all_charging_station_spec _ dest cs Hcs Hv)
    as (l' & Hl & Hnd & Hel & Hso).
  rewrite Hl in Hall. injection Hall as ->.
  exists station, others.
  assert (∀ t, t ∈ station :: others ↔
               (t ∉ excluded_stations) ∧ t ∈ cs ∧
               reachable (rigid_relations w') dest t ∧ t ≠ dest)
    as Hmem.
  { intros t. rewrite <-Hf, list_elem_of_filter, Hel. naive_solver. }
  assert (NoDup (station :: others)) as Hnd'.
  { rewrite <-Hf. by apply NoDup_filter. }
  apply NoDup_cons in Hnd' as [Hnotin _].
  destruct (Hmem station) as [(Hex & Hin & Hr & Hne) _]; [by left|].
  split; [done|]. split; [lia|]. do 4 (split; [done|]). split.
  - intros t ds dt Ht Htex Htne Hds Hdt.
    destruct (head_filter_Some (fun s => s ∉ excluded_stations) stations station)
      as (k & Hk & _ & Hmin); [by rewrite Hf|].
    assert (t ∈ stations) as [j Hj]%list_elem_of_lookup_1.
    { apply Hel. split; [done|]. split; [|done]. exists dt. apply Hdt. }
    destruct (decide (j < k)%nat) as [Hjk|Hjk].
    { by destruct (Hmin j t Hjk Hj). }
    destruct (decide (j = k)) as [->|Hne'].
    { simplify_eq. by rewrite (shortest_unique _ _ _ _ _ Hds Hdt). }
    apply (Hso k j station t); [lia|done..].
  - intros t. split.
    + intros Ht. destruct (Hmem t) as [(? & ? & ? & ?) _]; [by right|].
      repeat split; try done. by intros ->.
    + intros (? & ? & ? & ? & ?).
      destruct (Hmem t) as [_ Ht]. rewrite elem_of_cons in Ht.
      naive_solver.
Qed.

Lemma travel_with2_nearest_station_witness :
  ∃ station other_stations,
    [Final.t_travel_via "R1" "room4" "room3" ["room6"; "room9"] [] 1] =
    [Final.t_travel_via "R1" "room4" station other_stations [] 1] ∧
    0 < 1 ∧ station ∈ ["room3"; "room6"; "room9"] ∧ (station ∉ []) ∧
    station ≠ "room4" ∧
    reachable (rigid_relations final_world0) "room4" station ∧
    (∀ t ds dt, t ∈ ["room3"; "room6"; "room9"] -> t ∉ [] -> t ≠ "room4" ->
       shortest (rigid_relations final_world0) "room4" station ds ->
       shortest (rigid_relations final_world0) "room4" t dt -> (ds ≤ dt)%nat) ∧
    (∀ t, t ∈ other_stations ↔
          t ∈ ["room3"; "room6"; "room9"] ∧ (t ∉ []) ∧ t ≠ "room4" ∧
          t ≠ station ∧ reachable (rigid_relations final_world0) "room4" t).
Proof.
  apply (travel_with2_nearest_station final_world0 final_world0
           ["room3"; "room6"; "room9"] "R1" "room4" 1 []).
  - reflexivity.
  - vm_compute. reflexivity.
Defined.

(** * The transport methods *)

(** [list.sort(key=...)]: the keys are computed for every element, the
    sorted list is a rearrangement in the order of the keys. *)
Lemma mapM_res_Ret {A B} (f : A -> res B) l ys :
  mapM_res f l = Ret ys -> Forall2 (fun x y => f x = Ret y) l ys.
Proof.
  revert ys. induction l as [|x l IH]; intros ys; simpl.
  - intros [= <-]. constructor.
  - destruct (f x) as [y|] eqn:Hy; simpl; [|done].
    destruct (mapM_res f l) as [ys'|]; simpl; [|done].
    intros [= <-]. constructor; [done|]. by apply IH.
Qed.

Lemma insert_by_key_perm x l : insert_by_key x l ≡ₚ x :: l.
Proof.
  induction l as [|y l IH]; simpl; [done|].
  case_bool_decide; [done|]. rewrite IH. apply Permutation_swap.
Qed.

Lemma insert_by_key_sorted x l :
  StronglySorted (fun a b : Z * string => a.1 ≤ b.1) l ->
  StronglySorted (fun a b : Z * string => a.1 ≤ b.1) (insert_by_key x l).
Proof.
  induction 1 as [|y l Hs IH Hy]; simpl.
  - repeat constructor.
  - case_bool_decide as Hxy.
    + constructor; [by constructor|]. constructor; [done|].
      eapply Forall_impl; [done|]. simpl. intros; lia.
    + constructor; [done|]. rewrite insert_by_key_perm.
      constructor; [lia|done].
Qed.

Lemma sort_pairs_perm l : foldr insert_by_key [] l ≡ₚ l.
Proof.
  induction l as [|x l IH]; simpl; [done|].
  by rewrite insert_by_key_perm, IH.
Qed.

Lemma sort_pairs_sorted l :
  StronglySorted (fun a b : Z * string => a.1 ≤ b.1) (foldr insert_by_key [] l).
Proof.
  induction l as [|x l IH]; simpl; [constructor|].
  by apply insert_by_key_sorted.
Qed.

(** X20.  When [transport_all2] returns subtasks, the robot carries
    nothing, and the [containers] of the one task [transport_all_order]
    are the keys of the map, rearranged in the order of non-decreasing
    distance between the robot's location and the container's. *)
Theorem transport_all2_nearest_first (w w' : World) (R : string)
    (container_destination_map : list (string * string))
    (subtasks : list Final.task) :
  Final.transport_all2 R container_destination_map w
  = (Ret (Some subtasks), w') ->
  ∃ containers lR,
    subtasks = [Final.t_transport_all_order R containers
                  container_destination_map 0] ∧
    containers ≡ₚ container_destination_map.*1 ∧
    cargo (state w) !! R = Some [] ∧ loc (state w) !! R = Some lR ∧
    ∀ i j c1 c2, (i < j)%nat ->
      containers !! i = Some c1 -> containers !! j = Some c2 ->
      ∃ l1 l2 d1 d2,
        loc (state w) !! c1 = Some l1 ∧ loc (state w) !! c2 = Some l2 ∧
        distance (rigid_relations w) lR (Some l1) = Ret d1 ∧
        distance (rigid_relations w) lR (Some l2) = Ret d2 ∧ d1 ≤ d2.
Proof.
  intros H. unfold Final.transport_all2 in H. run_cases H; simplify_eq.
  match goal with
  | H : _ && _ = true |- _ => apply andb_true_iff in H as [Hcg Hm]
  end.
  match goal with
  | H : mapM_res _ _ = Ret ?ys |- _ =>
      apply mapM_res_Ret in H; rename H into HF; rename ys into keyed
  end.
  dict_hyps.
  match goal with
  | H : cargo _ !! R = Some ?a |- _ => destruct a; [|done]
  end.
  assert (∀ d c, (d, c) ∈ keyed ->
            ∃ lR lc, loc (state w') !! R = Some lR ∧
              loc (state w') !! c = Some lc ∧
              distance (rigid_relations w') lR (Some lc) = Ret d) as Hkey.
  { intros d c [k Hk]%list_elem_of_lookup_1.
    destruct (Forall2_lookup_r _ _ _ _ _ HF Hk) as (x & _ & Hx).
    destruct (loc (state w') !! R) as [lR|] eqn:HlR;
      [rewrite (dict_get_Some _ _ _ HlR) in Hx
      |by rewrite (dict_get_None _ _ HlR) in Hx].
    simpl in Hx.
    destruct (loc (state w') !! x) as [lc|] eqn:Hlc;
      [rewrite (dict_get_Some _ _ _ Hlc) in Hx
      |by rewrite (dict_get_None _ _ Hlc) in Hx].
    simpl in Hx.
    destruct (distance (rigid_relations w') lR (Some lc)) as [d'|] eqn:Hd;
      simplify_eq/=. eauto. }
  assert (keyed.*2 = container_destination_map.*1) as Hsnd.
  { clear -HF. induction HF as [|x y l ys Hxy HF IH]; [done|].
    rewrite fmap_cons, IH. f_equal.
    destruct (dict_get (loc (state w')) R); simpl in Hxy; [|done].
    destruct (dict_get (loc (state w')) x); simpl in Hxy; [|done].
    destruct (distance _ _ _); simpl in Hxy; [|done]. by simplify_eq. }
  assert (∃ lR, loc (state w') !! R = Some lR) as [lR HlR].
  { destruct keyed as [|[d c] keyed].
    - destruct container_destination_map; simpl in *; [lia|done].
    - destruct (Hkey d c) as (lR & _ & HlR & _); [by left|]. eauto. }
  exists (sort_by_key keyed), lR. split; [done|]. split.
  { unfold sort_by_key. by rewrite sort_pairs_perm, Hsnd. }
  split; [done|]. split; [done|].
  intros i j c1 c2 Hij. unfold sort_by_key. rewrite !list_lookup_fmap.
  destruct (foldr insert_by_key [] keyed !! i) as [[d1 c1']|] eqn:Hi;
    [|done].
  destruct (foldr insert_by_key [] keyed !! j) as [[d2 c2']|] eqn:Hj;
    [|done].
  simpl. intros [= ->] [= ->].
  pose proof (StronglySorted_lookup _ _ _ _ _ _ (sort_pairs_sorted keyed)
                Hij Hi Hj) as Hle. simpl in Hle.
  destruct (Hkey d1 c1) as (lR1 & l1 & HlR1 & Hl1 & Hd1).
  { rewrite <-(sort_pairs_perm keyed). by eapply list_elem_of_lookup_2. }
  destruct (Hkey d2 c2) as (lR2 & l2 & HlR2 & Hl2 & Hd2).
  { rewrite <-(sort_pairs_perm keyed). by eapply list_elem_of_lookup_2. }
  simplify_eq. eauto 10.
Qed.

Lemma transport_all2_nearest_first_witness :
  ∃ containers lR,
    [Final.t_transport_all_order "R1" ["c1"; "c2"; "c3"]
       [("c2", "room7"); ("c3", "room5"); ("c1", "room2")] 0] =
    [Final.t_transport_all_order "R1" containers
       [("c2", "room7"); ("c3", "room5"); ("c1", "room2")] 0] ∧
    containers ≡ₚ [("c2", "room7"); ("c3", "room5"); ("c1", "room2")].*1 ∧
    cargo (state final_world0) !! "R1" = Some [] ∧
    loc (state final_world0) !! "R1" = Some lR ∧
    ∀ i j c1 c2, (i < j)%nat ->
      containers !! i = Some c1 -> containers !! j = Some c2 ->
      ∃ l1 l2 d1 d2,
        loc (state final_world0) !! c1 = Some l1 ∧
        loc (state final_world0) !! c2 = Some l2 ∧
        distance (rigid_relations final_world0) lR (Some l1) = Ret d1 ∧
        distance (rigid_relations final_world0) lR (Some l2) = Ret d2 ∧
        d1 ≤ d2.
Proof.
  apply (transport_all2_nearest_first final_world0 final_world0 "R1").
  vm_compute. reflexivity.
Defined.

Lemma adict_get_elem_of d k v : adict_get d k = Ret v -> (k, v) ∈ d.
Proof.
  induction d as [|[k' v'] d IH]; simpl; [done|].
  case_decide; [intros [= <-]; subst; by left|].
  intros ?%IH. by right.
Qed.

Lemma adict_pop_Ret d k d' :
  adict_pop d k = Ret d' ->
  k ∈ d.*1 ∧ d' = filter (fun kv => kv.1 ≠ k) d ∧
  (length d' < length d)%nat ∧ k ∉ d'.*1.
Proof.
  unfold adict_pop, adict_in. case_bool_decide as Hk; [|done].
  intros [= <-]. split; [done|]. split; [done|]. split.
  - clear -Hk. induction d as [|[k' v'] d IH]; [by apply elem_of_nil in Hk|].
    rewrite filter_cons. simpl. case_decide as Hne.
    + simpl. apply elem_of_cons in Hk as [->|Hk]; [done|].
      specialize (IH Hk). lia.
    + pose proof (length_filter (λ kv : string * string, kv.1 ≠ k) d). lia.
  - rewrite list_elem_of_fmap. intros ([k' v'] & -> & Hin).
    by apply list_elem_of_filter in Hin as [Hne _].
Qed.

(** X21.  The task [transport_all] that [transport_all1] or
    [transport_all_order1] passes on has a strictly smaller map: the
    entry of the container that is transported first is removed, the
    other entries are kept. *)
Theorem transport_all_shrinks_map (w w' : World) (R : string)
    (containers : list string)
    (container_destination_map : list (string * string)) (i : Z)
    (subtasks : list Final.task) :
  Final.transport_all1 R container_destination_map w
    = (Ret (Some subtasks), w') ∨
  Final.transport_all_order1 R containers container_destination_map i w
    = (Ret (Some subtasks), w') ->
  ∃ c dest new_map,
    subtasks = [Final.t_transport R c dest; Final.t_transport_all R new_map] ∧
    (c, dest) ∈ container_destination_map ∧
    new_map = filter (fun kv => kv.1 ≠ c) container_destination_map ∧
    (c ∉ new_map.*1) ∧
    (length new_map < length container_destination_map)%nat.
Proof.
  intros [H|H].
  - unfold Final.transport_all1 in H. run_cases H; simplify_eq.
    match goal with
    | H1 : adict_pop _ _ = Ret _, H2 : adict_get _ _ = Ret _ |- _ =>
        apply adict_pop_Ret in H1 as (_ & -> & Hlen & Hno);
        apply adict_get_elem_of in H2
    end.
    eauto 10.
  - unfold Final.transport_all_order1, Final.transport_all_order_guard in H.
    run_cases H; simplify_eq.
    match goal with
    | H1 : adict_pop _ _ = Ret _, H2 : adict_get _ _ = Ret _ |- _ =>
        apply adict_pop_Ret in H1 as (_ & -> & Hlen & Hno);
        apply adict_get_elem_of in H2
    end.
    eauto 10.
Qed.

Lemma transport_all_shrinks_map_witness :
  ∃ c dest new_map,
    [Final.t_transport "R1" "c1" "room2";
     Final.t_transport_all "R1" [("c2", "room7"); ("c3", "room5")]]
    = [Final.t_transport "R1" c dest; Final.t_transport_all "R1" new_map] ∧
    (c, dest) ∈ [("c2", "room7"); ("c3", "room5"); ("c1", "room2")] ∧
    new_map = filter (fun kv => kv.1 ≠ c)
                [("c2", "room7"); ("c3", "room5"); ("c1", "room2")] ∧
    (c ∉ new_map.*1) ∧
    (length new_map
     < length [("c2", "room7"); ("c3", "room5"); ("c1", "room2")])%nat.
Proof.
  apply (transport_all_shrinks_map final_world0 final_world0 "R1"
           ["c1"; "c2"; "c3"]
           [("c2", "room7"); ("c3", "room5"); ("c1", "room2")] 0).
  right. vm_compute. reflexivity.
Defined.

(** * The operators and methods of simple_warehouse_robot.py *)

(** [move] of simple_warehouse_robot.py on arguments that pass the type
    check. *)
Lemma simple_move_run w R s e l b :
  is_a (rigid_relations w) R "robot" = Ret true ->
  is_a (rigid_relations w) s "loc" = Ret true ->
  is_a (rigid_relations w) e "loc" = Ret true ->
  loc (state w) !! R = Some l -> battery (state w) !! R = Some b ->
  Simple.move R s e w =
    if is_adjacent (rigid_relations w) s e && bool_decide (s = l)
       && bool_decide (b > 25)
    then (Ret true,
          mkWorld (rigid_relations w)
            (mkState (<[R := e]> (loc (state w))) (cargo (state w))
               (<[R := b - 25]> (battery (state w)))))
    else (Ret false, w).
Proof.
  intros HR Hs He Hl Hb. unfold Simple.move. run_m.
  rewrite HR. run_m. rewrite Hs. run_m. rewrite He. run_m.
  destruct (is_adjacent _ s e); run_m; [|done].
  unfold is_at. rewrite (dict_get_Some _ _ _ Hl). run_m.
  destruct (bool_decide (s = l)); run_m; [|done].
  rewrite (dict_get_Some _ _ _ Hb). run_m.
  destruct (bool_decide (b > _)); run_m; [|done].
  simpl. by rewrite (dict_get_Some _ _ _ Hb).
Qed.

(** X22.  In simple_warehouse_robot.py, for a robot in [loc] with a
    battery level and an adjacent declared room [next_loc], exactly one
    of [move_next1] and [move_next2] returns subtasks (the first when the
    battery is above 25), and these subtasks execute: the robot ends in
    [next_loc], with 25 less in the battery, or with 75 after the
    recharge. *)
Theorem simple_move_next_executes (w : World) (R a b : string) (x : Z) :
  is_a (rigid_relations w) R "robot" = Ret true ->
  is_a (rigid_relations w) a "loc" = Ret true ->
  is_a (rigid_relations w) b "loc" = Ret true ->
  is_adjacent (rigid_relations w) a b = true ->
  loc (state w) !! R = Some a -> battery (state w) !! R = Some x ->
  ∃ subtasks,
    (if bool_decide (x > 25)
     then Simple.move_next1 R a b w = (Ret (Some subtasks), w) ∧
          Simple.move_next2 R a b w = (Ret None, w)
     else Simple.move_next1 R a b w = (Ret None, w) ∧
          Simple.move_next2 R a b w = (Ret (Some subtasks), w)) ∧
    run_tasks Simple.operators subtasks w =
      Some (mkWorld (rigid_relations w)
              (mkState (<[R := b]> (loc (state w))) (cargo (state w))
                 (<[R := if bool_decide (x > 25) then x - 25 else 75]>
                    (battery (state w))))).
Proof.
  intros HR Ha Hb Hab Hl Hx.
  unfold Simple.move_next1, Simple.move_next2. run_m. rewrite Hab. run_m.
  rewrite (dict_get_Some _ _ _ Hx). run_m.
  case_bool_decide as Hgt.
  - rewrite bool_decide_eq_false_2 by lia. run_m.
    eexists. split; [done|]. simpl.
    rewrite (simple_move_run w R a b a x) by done.
    by rewrite Hab, !bool_decide_eq_true_2.
  - rewrite bool_decide_eq_true_2 by lia. run_m.
    eexists. split; [done|]. simpl.
    unfold Simple.recharge. run_m. rewrite HR. run_m.
    erewrite (simple_move_run _ R a b a 100); simpl; [|done..| ].
    2: { by rewrite lookup_insert_eq. }
    rewrite Hab, !bool_decide_eq_true_2 by (lia || done). simpl.
    do 3 f_equal. by rewrite insert_insert_eq.
Qed.

Lemma simple_move_next_executes_witness :
  ∃ subtasks,
    (if bool_decide (50 > 25)
     then Simple.move_next1 "R1" "room1" "room3" simple_world0
          = (Ret (Some subtasks), simple_world0) ∧
          Simple.move_next2 "R1" "room1" "room3" simple_world0
          = (Ret None, simple_world0)
     else Simple.move_next1 "R1" "room1" "room3" simple_world0
          = (Ret None, simple_world0) ∧
          Simple.move_next2 "R1" "room1" "room3" simple_world0
          = (Ret (Some subtasks), simple_world0)) ∧
    run_tasks Simple.operators subtasks simple_world0 =
      Some (mkWorld (rigid_relations simple_world0)
              (mkState (<["R1" := "room3"]> (loc (state simple_world0)))
                 (cargo (state simple_world0))
                 (<["R1" := if bool_decide (50 > 25) then 50 - 25 else 75]>
                    (battery (state simple_world0))))).
Proof.
  apply (simple_move_next_executes simple_world0 "R1" "room1" "room3" 50);
    reflexivity.
Defined.

(** X23.  When [travel1] of simple_warehouse_robot.py returns subtasks,
    they are the [move_next] tasks along a shortest path from the robot's
    location to [dest]: one per room of the path, at least one. *)
Theorem simple_travel1_shortest (w w' : World) (R dest : string)
    (subtasks : list Simple.task) :
  Simple.travel1 R dest w = (Ret (Some subtasks), w') ->
  ∃ lR path,
    loc (state w) !! R = Some lR ∧ lR ≠ dest ∧
    is_a (rigid_relations w) dest "loc" = Ret true ∧
    subtasks = Simple.move_nexts R lR path ∧
    length subtasks = length path ∧ path ≠ [] ∧
    leads (rigid_relations w) lR path dest ∧
    ∀ path', leads (rigid_relations w) lR path' dest ->
             (length path ≤ length path')%nat.
Proof.
  intros H. unfold Simple.travel1 in H. run_cases H; simplify_eq.
  dict_hyps. simplify_eq.
  match goal with
  | H : get_shortest_path _ ?a (Some dest) = Ret (Some ?l) |- _ =>
      apply get_shortest_path_leads in H as [Hl Hmin]; exists a, l
  end.
  repeat split; try done.
  - match goal with
    | |- length (Simple.move_nexts R ?a ?l) = _ =>
        clear; revert a; induction l; intros; simpl; [done|]; by f_equal
    end.
  - by eapply leads_nonempty.
Qed.

Lemma simple_travel1_shortest_witness :
  ∃ lR path,
    loc (state simple_world0) !! "R1" = Some lR ∧ lR ≠ "room4" ∧
    is_a (rigid_relations simple_world0) "room4" "loc" = Ret true ∧
    [Simple.t_move_next "R1" "room1" "room2";
     Simple.t_move_next "R1" "room2" "room4"]
    = Simple.move_nexts "R1" lR path ∧
    length [Simple.t_move_next "R1" "room1" "room2";
            Simple.t_move_next "R1" "room2" "room4"] = length path ∧
    path ≠ [] ∧
    leads (rigid_relations simple_world0) lR path "room4" ∧
    ∀ path', leads (rigid_relations simple_world0) lR path' "room4" ->
             (length path ≤ length path')%nat.
Proof.
  apply (simple_travel1_shortest simple_world0 simple_world0 "R1" "room4").
  vm_compute. reflexivity.
Defined.

(** X24.  The four operators of simple_warehouse_robot.py never change
    the rigid relations, change nothing at all when they return [False],
    and keep every cargo list at one item at most when they succeed. *)
Theorem simple_operators_frame (t : Simple.task) (operator : M bool) (w : World) :
  Simple.operators t = Some operator ->
  rigid_relations (operator w).2 = rigid_relations w ∧
  ((operator w).1 = Ret false -> (operator w).2 = w) ∧
  (cargo_bounded (state w) -> (operator w).1 = Ret true ->
   cargo_bounded (state (operator w).2)).
Proof.
  intros Hop. destruct (operator w) as [r w'] eqn:H. simpl.
  destruct t; simpl in Hop; simplify_eq.
  - unfold Simple.move in H. run_cases H; simplify_eq; simpl; try done.
  - unfold Simple.pickup in H. run_cases H; simplify_eq; simpl; try done.
    split; [done|]. split; [done|]. intros Hb _.
    apply cargo_bounded_insert; [done|]. dict_hyps.
    match goal with
    | H : length ?l = 0%nat |- _ => destruct l; [|done]
    end.
    simpl. lia.
  - unfold Simple.drop in H. run_cases H; simplify_eq; simpl; try done.
    split; [done|]. split; [done|]. intros Hb _.
    apply cargo_bounded_insert; [done|].
    match goal with
    | H : list_remove _ _ = Ret _ |- _ => apply list_remove_length in H
    end.
    match goal with
    | H : dict_get (cargo _) _ = Ret _ |- _ =>
        apply dict_get_Ret, Hb in H
    end. lia.
  - unfold Simple.recharge in H. run_cases H; simplify_eq; simpl; try done.
Qed.

Lemma simple_operators_frame_witness :
  rigid_relations (Simple.recharge "R1" simple_world0).2
  = rigid_relations simple_world0 ∧
  ((Simple.recharge "R1" simple_world0).1 = Ret false ->
   (Simple.recharge "R1" simple_world0).2 = simple_world0) ∧
  (cargo_bounded (state simple_world0) ->
   (Simple.recharge "R1" simple_world0).1 = Ret true ->
   cargo_bounded (state (Simple.recharge "R1" simple_world0).2)).
Proof.
  apply (simple_operators_frame (Simple.t_recharge "R1")). reflexivity.
Defined.
